(** * SkinNameManager: the semantic name-resolution engine

    A shallow embedding of [src/skin_name_manager.py].  The manager object is
    a record, its methods are computations in a small state-and-exception
    monad, and what the methods call outside the repository (the sentence
    encoder, faiss, [np.argsort], the writing of the cache file) are fields
    of a record of externals, so that every statement holds for whatever
    those compute and however the write goes.

    Conventions.
    - Python [float] scores are rationals ([Q]); [score_cutoff / 100.0] is
      the exact quotient.  NaN is outside the model.
    - Python [str] is [string]; [str.strip] and [str.lower] are given on the
      ASCII repertoire (code units above 127 are neither blank nor cased).
    - [print] calls are dropped, except that the subscripts evaluated inside
      their f-strings are kept, because they can raise. *)

From Stdlib Require Import ZArith QArith List Bool Ascii String Lia.
From stdpp Require Import gmap strings list fin_maps.

Set Warnings "-register-all".

Local Open Scope string_scope.
Local Open Scope list_scope.
Local Open Scope Z_scope.

(** ** Python strings *)

Module PyStr.

(** [str.isspace] on one ASCII character: TAB..CR, FS..US and SPACE. *)
Definition is_space (c : ascii) : bool :=
  let n := nat_of_ascii c in
  ((9 <=? n)%nat && (n <=? 13)%nat)
  || ((28 <=? n)%nat && (n <=? 31)%nat)
  || (n =? 32)%nat.

Definition is_empty (s : string) : bool :=
  match s with EmptyString => true | String _ _ => false end.

Fixpoint lstrip (s : string) : string :=
  match s with
  | EmptyString => EmptyString
  | String c t => if is_space c then lstrip t else s
  end.

Fixpoint rstrip (s : string) : string :=
  match s with
  | EmptyString => EmptyString
  | String c t =>
      let t' := rstrip t in
      if is_space c && is_empty t' then EmptyString else String c t'
  end.

(** [s.strip()] *)
Definition strip (s : string) : string := rstrip (lstrip s).

Definition lower_char (c : ascii) : ascii :=
  let n := nat_of_ascii c in
  if (65 <=? n)%nat && (n <=? 90)%nat then ascii_of_nat (n + 32) else c.

(** [s.lower()] *)
Fixpoint lower (s : string) : string :=
  match s with
  | EmptyString => EmptyString
  | String c t => String (lower_char c) (lower t)
  end.

(** Every character of [s] is blank (true of the empty string too). *)
Fixpoint all_space (s : string) : bool :=
  match s with
  | EmptyString => true
  | String c t => is_space c && all_space t
  end.

End PyStr.

(** ** Python lists: subscripting with a possibly negative index *)

Definition py_index {A : Type} (l : list A) (i : Z) : option A :=
  let n := Z.of_nat (length l) in
  if (0 <=? i) && (i <? n) then nth_error l (Z.to_nat i)
  else if (- n <=? i) && (i <? 0) then nth_error l (Z.to_nat (n + i))
  else None.

(** ** Floats as rationals *)

Definition Qltb (a b : Q) : bool := negb (Qle_bool b a).

(** ** The alias-mapping artifact

    What [json.load] hands back, as far as [_load_alias_mapping] looks at it:
    a string, an object (its members in file order; a repeated key keeps the
    last value, as in a Python [dict]), or any other value, which carries the
    text [str()] renders it to. *)

Inductive json : Type :=
| JStr (s : string)
| JObj (members : list (string * json))
| JOther (rendered : string).

(** The file at [name_mapping_path]. *)
Inductive mapping_file : Type :=
| MappingMissing                 (* [mapping_path.exists()] is false *)
| MappingUnreadable              (* [open] or [json.load] raises *)
| MappingParsed (data : json).

Section Alias.

(** [str(v)] for a JSON object is its Python [repr]; the rendering of
    objects is left to the caller. *)
Variable repr_obj : list (string * json) -> string.

Definition py_str (v : json) : string :=
  match v with
  | JStr s => s
  | JObj ms => repr_obj ms
  | JOther r => r
  end.

(** [d.get(key)] on the members of a parsed object. *)
Fixpoint dict_get (ms : list (string * json)) (key : string) : option json :=
  match ms with
  | [] => None
  | (k, v) :: rest =>
      match dict_get rest key with
      | Some v' => Some v'
      | None => if decide (k = key) then Some v else None
      end
  end.

(** [{str(alias): str(canonical) for alias, canonical in d.items()}] *)
Definition str_items (ms : list (string * json)) : gmap string string :=
  fold_left (fun m kv => <[fst kv := py_str (snd kv)]> m) ms ∅.

(** The body of the [try] block: the explicit entries of the artifact. *)
Definition explicit_entries (f : mapping_file) : gmap string string :=
  match f with
  | MappingParsed (JObj ms) =>
      match dict_get ms "alias_to_en" with
      | Some (JObj inner) => str_items inner
      | _ => str_items ms
      end
  | _ => ∅
  end.

(** [alias_map.setdefault(name, name)] *)
Definition setdefault (m : gmap string string) (name : string)
  : gmap string string :=
  match m !! name with
  | Some _ => m
  | None => <[name := name]> m
  end.

(** [{name: name for name in skin_names}] *)
Definition identity_map (names : list string) : gmap string string :=
  fold_left (fun m name => <[name := name]> m) names ∅.

(** [_load_alias_mapping]: the value stored in [self.alias_to_canonical]. *)
Definition _load_alias_mapping (f : mapping_file) (skin_names : list string)
  : gmap string string :=
  let alias_map := explicit_entries f in
  if decide (alias_map = ∅) then identity_map skin_names
  else fold_left setdefault skin_names alias_map.

End Alias.

(** [alias_to_canonical.get(name, name)] *)
Definition resolve (alias_to_canonical : gmap string string) (name : string)
  : string :=
  default name (alias_to_canonical !! name).

(** ** NumPy arrays, the cache file, faiss *)

Definition vec := list Q.

(** An [ndarray] as the manager observes it: its [shape], and the rows it
    holds when it is 2-dimensional. *)
Record ndarray : Type := {
  shape : list nat;
  rows : list vec;
}.


(** A 2-dimensional [float32] array, the only kind [self._embeddings]
    ever holds. *)
Record matrix : Type := {
  nrows : nat;                     (* [shape[0]] *)
  ncols : nat;                     (* [shape[1]] *)
  mrows : list vec;
}.

(** [cached.ndim == 2 and cached.shape[0] == n], and then
    [cached.astype(np.float32, copy=False)]. *)
Definition usable_cache (cached : ndarray) (n : nat) : option matrix :=
  match shape cached with
  | [r; c] =>
      if (r =? n)%nat
      then Some {| nrows := r; ncols := c; mrows := rows cached |}
      else None
  | _ => None
  end.

(** The array [np.save] writes for a matrix. *)
Definition to_ndarray (m : matrix) : ndarray :=
  {| shape := [nrows m; ncols m]; rows := mrows m |}.

(** The file at [embedding_cache_path]. *)
Inductive cache_file : Type :=
| CacheMissing                   (* [cache_path.exists()] is false *)
| CacheUnreadable                (* [np.load] or [astype] raises *)
| CacheArray (cached : ndarray).

Inductive exn : Type :=
| ModelUnavailable               (* [SentenceTransformer(...)] raises *)
| IndexError                     (* a subscript out of range *)
| ValueError                     (* [np.dot] on mismatched shapes *)
| FaissError                     (* faiss refuses its arguments *)
| OSError.                       (* [mkdir] or [np.save] raises *)

(** What [cache_path.parent.mkdir(parents=True, exist_ok=True)] followed by
    [np.save(cache_path, embeddings)] comes to.  Neither stands inside a
    [try]: when one of them raises (the directory cannot be made, the path
    is a directory or may not be written, the disk is full), the exception
    leaves [_ensure_embeddings]. *)
Inductive save_result : Type :=
| Saved                          (* the file now holds the array *)
| SaveFailed (after : cache_file). (* raised; the file as it is left *)

(** A [faiss.IndexFlatIP] object: its [search] method, giving the
    [(index, score)] pairs of [zip(indices[0], scores[0])], or raising. *)
Record faiss_index : Type := {
  index_search : vec -> nat -> option (list (Z * Q));
}.

(** What lies outside the repository. *)
Record externals : Type := {
  (* whether [SentenceTransformer(name, device=...)] succeeds *)
  model_available : bool;
  (* [model.encode([text], normalize_embeddings=normalize)[0]] *)
  encode_text : bool -> string -> vec;
  (* the width of the encoder's output *)
  encode_dim : nat;
  (* the [faiss] module when it could be imported: [IndexFlatIP(d)]
     followed by [add(embeddings)] *)
  faiss : option (option nat -> matrix -> option faiss_index);
  (* [np.argsort(-similarities)] *)
  argsort_desc : list Q -> list nat;
  (* how writing the cache file goes, by the file as it is found *)
  save_cache : cache_file -> save_result;
}.

(** [model.encode(texts, ..., normalize_embeddings=normalize)
      .astype(np.float32)] *)
Definition encode (ext : externals) (normalize : bool) (texts : list string)
  : matrix :=
  {| nrows := length texts;
     ncols := encode_dim ext;
     mrows := map (encode_text ext normalize) texts |}.

(** Calls that reach the embedding model, in the order they happen. *)
Inductive event : Type :=
| LoadModel
| EncodeCatalog (names : list string) (batch_size : nat) (normalize : bool)
| EncodeQuery (text : string) (normalize : bool).

(** ** The manager and what it can touch *)

Record state : Type := {
  skin_names : list string;
  alias_to_canonical : gmap string string;
  _embedding_model : bool;                 (* [is not None] *)
  _embeddings : option matrix;
  _vector_dim : option nat;
  _vector_index : option faiss_index;
  cache : cache_file;
  events : list event;
}.

Definition set_embeddings (e : option matrix) (s : state) : state :=
  {| skin_names := skin_names s;
     alias_to_canonical := alias_to_canonical s;
     _embedding_model := _embedding_model s;
     _embeddings := e;
     _vector_dim := _vector_dim s;
     _vector_index := _vector_index s;
     cache := cache s;
     events := events s |}.

Definition set_vector_dim (d : option nat) (s : state) : state :=
  {| skin_names := skin_names s;
     alias_to_canonical := alias_to_canonical s;
     _embedding_model := _embedding_model s;
     _embeddings := _embeddings s;
     _vector_dim := d;
     _vector_index := _vector_index s;
     cache := cache s;
     events := events s |}.

Definition set_vector_index (i : option faiss_index) (s : state) : state :=
  {| skin_names := skin_names s;
     alias_to_canonical := alias_to_canonical s;
     _embedding_model := _embedding_model s;
     _embeddings := _embeddings s;
     _vector_dim := _vector_dim s;
     _vector_index := i;
     cache := cache s;
     events := events s |}.

Definition set_embedding_model (b : bool) (s : state) : state :=
  {| skin_names := skin_names s;
     alias_to_canonical := alias_to_canonical s;
     _embedding_model := b;
     _embeddings := _embeddings s;
     _vector_dim := _vector_dim s;
     _vector_index := _vector_index s;
     cache := cache s;
     events := events s |}.

Definition set_cache (c : cache_file) (s : state) : state :=
  {| skin_names := skin_names s;
     alias_to_canonical := alias_to_canonical s;
     _embedding_model := _embedding_model s;
     _embeddings := _embeddings s;
     _vector_dim := _vector_dim s;
     _vector_index := _vector_index s;
     cache := c;
     events := events s |}.

Definition log (e : event) (s : state) : state :=
  {| skin_names := skin_names s;
     alias_to_canonical := alias_to_canonical s;
     _embedding_model := _embedding_model s;
     _embeddings := _embeddings s;
     _vector_dim := _vector_dim s;
     _vector_index := _vector_index s;
     cache := cache s;
     events := events s ++ [e] |}.

(** ** State and exceptions *)

Inductive outcome (A : Type) : Type :=
| Ok (a : A)
| Raise (e : exn).
Arguments Ok {A} a.
Arguments Raise {A} e.

Definition M (A : Type) : Type := state -> outcome A * state.

Definition ret {A} (a : A) : M A := fun s => (Ok a, s).
Definition raise {A} (e : exn) : M A := fun s => (Raise e, s).
Definition bind {A B} (m : M A) (k : A -> M B) : M B :=
  fun s =>
    match m s with
    | (Ok a, s') => k a s'
    | (Raise e, s') => (Raise e, s')
    end.
Definition gets {A} (f : state -> A) : M A := fun s => (Ok (f s), s).
Definition modify (f : state -> state) : M unit := fun s => (Ok tt, f s).

Notation "x <- m ;; k" := (bind m (fun x => k))
  (at level 100, m at level 99, k at level 200, right associativity).
Notation "m ;;; k" := (bind m (fun _ => k))
  (at level 100, k at level 200, right associativity).

(** ** The methods of [SkinNameManager] *)

Section Manager.

Variable ext : externals.

Definition is_nil {A} (l : list A) : bool :=
  match l with [] => true | _ :: _ => false end.

Definition is_some {A} (o : option A) : bool :=
  match o with Some _ => true | None => false end.

Definition _get_embedding_model : M unit :=
  loaded <- gets _embedding_model ;;
  if loaded then ret tt
  else if model_available ext then
    modify (set_embedding_model true) ;;;
    modify (log LoadModel)
  else raise ModelUnavailable.

(** The cache is consulted only when no rebuild is forced and the file
    exists; anything raised while reading it is swallowed. *)
Definition read_cache (force_rebuild : bool) (c : cache_file) (n : nat)
  : option matrix :=
  if force_rebuild then None
  else match c with
       | CacheArray cached => usable_cache cached n
       | CacheMissing | CacheUnreadable => None
       end.

Definition _ensure_embeddings (force_rebuild : bool) : M unit :=
  names <- gets skin_names ;;
  if is_nil names then
    modify (set_embeddings None) ;;;
    modify (set_vector_dim None)
  else
    present <- gets _embeddings ;;
    if is_some present && negb force_rebuild then ret tt
    else
      c <- gets cache ;;
      match read_cache force_rebuild c (length names) with
      | Some cached =>
          modify (set_embeddings (Some cached)) ;;;
          modify (set_vector_dim (Some (ncols cached)))
      | None =>
          _get_embedding_model ;;;
          modify (log (EncodeCatalog names 64 true)) ;;;
          let embeddings := encode ext true names in
          match save_cache ext c with
          | Saved =>
              modify (set_cache (CacheArray (to_ndarray embeddings))) ;;;
              modify (set_embeddings (Some embeddings)) ;;;
              modify (set_vector_dim (Some (ncols embeddings)))
          | SaveFailed after =>
              modify (set_cache after) ;;;
              raise OSError
          end
      end.

Definition _build_vector_index (force_rebuild : bool) : M unit :=
  names <- gets skin_names ;;
  if is_nil names then
    modify (set_vector_index None) ;;;
    modify (set_embeddings None)
  else
    _ensure_embeddings force_rebuild ;;;
    present <- gets _embeddings ;;
    match present with
    | None => modify (set_vector_index None)
    | Some embeddings =>
        match faiss ext with
        | Some index_flat_ip =>
            d <- gets _vector_dim ;;
            match index_flat_ip d embeddings with
            | Some index => modify (set_vector_index (Some index))
            | None => raise FaissError
            end
        | None => modify (set_vector_index None)
        end
    end.

Definition dot (u v : vec) : Q :=
  fold_right Qplus 0%Q (zip_with Qmult u v).

(** [np.dot(embeddings, query)] for a query of [encode_dim] entries. *)
Definition np_dot (embeddings : matrix) (query : vec) : M (list Q) :=
  if (ncols embeddings =? encode_dim ext)%nat
  then ret (map (fun row => dot row query) (mrows embeddings))
  else raise ValueError.

(** [[(int(idx), float(similarities[idx])) for idx in top_indices]] *)
Fixpoint pair_scores (similarities : list Q) (top_indices : list nat)
  : M (list (Z * Q)) :=
  match top_indices with
  | [] => ret []
  | idx :: rest =>
      match nth_error similarities idx with
      | Some score =>
          tl <- pair_scores similarities rest ;;
          ret ((Z.of_nat idx, score) :: tl)
      | None => raise IndexError
      end
  end.

Definition _vector_search (query_text : string) (top_k : nat)
  : M (list (Z * Q)) :=
  names <- gets skin_names ;;
  if is_nil names then ret []
  else
    _ensure_embeddings false ;;;
    _get_embedding_model ;;;
    modify (log (EncodeQuery query_text true)) ;;;
    let query_embedding := encode_text ext true query_text in
    before <- gets _vector_index ;;
    (if is_some (faiss ext) && negb (is_some before)
     then _build_vector_index false else ret tt) ;;;
    vector_index <- gets _vector_index ;;
    match vector_index with
    | Some index =>
        match index_search index query_embedding top_k with
        | Some found => ret found
        | None => raise FaissError
        end
    | None =>
        present <- gets _embeddings ;;
        match present with
        | None => ret []
        | Some embeddings =>
            similarities <- np_dot embeddings query_embedding ;;
            let top_indices := firstn top_k (argsort_desc ext similarities) in
            pair_scores similarities top_indices
        end
    end.

(** The three locals the loop of [find_best_match] updates. *)
Record best : Type := {
  best_idx : option Z;
  best_score : Q;
  used_query : option string;
}.

Definition no_best : best :=
  {| best_idx := None; best_score := (-1)%Q; used_query := None |}.

(** [score_cutoff / 100.0] *)
Definition similarity_threshold (score_cutoff : Z) : Q :=
  (inject_Z score_cutoff / 100)%Q.

(** [search_text_candidates] *)
Definition search_text_candidates (normalized_query : string) : list string :=
  let normalized_query_lower := PyStr.lower normalized_query in
  let cands :=
    if PyStr.is_empty normalized_query_lower then []
    else [normalized_query_lower] in
  if decide (normalized_query ∈ cands) then cands
  else cands ++ [normalized_query].

(** The [for text in search_text_candidates] loop. *)
Fixpoint search_loop (threshold : Q) (texts : list string) (b : best)
  : M best :=
  match texts with
  | [] => ret b
  | text :: rest =>
      results <- _vector_search text 3 ;;
      match results with
      | [] => search_loop threshold rest b                     (* continue *)
      | (idx, score) :: _ =>
          names <- gets skin_names ;;
          match py_index names idx with                    (* in the print *)
          | None => raise IndexError
          | Some _ =>
              let b' :=
                if Qltb (best_score b) score
                then {| best_idx := Some idx; best_score := score;
                        used_query := Some text |}
                else b in
              if Qle_bool threshold score then ret b'           (* break *)
              else search_loop threshold rest b'
          end
      end
  end.

Definition find_best_match (user_query : string) (score_cutoff : Z)
  : M (option string) :=
  names <- gets skin_names ;;
  if is_nil names then ret None
  else
    let normalized_query := PyStr.strip user_query in
    if PyStr.is_empty normalized_query then ret None
    else
      let threshold := similarity_threshold score_cutoff in
      b <- search_loop threshold (search_text_candidates normalized_query)
             no_best ;;
      match best_idx b with
      | None => ret None
      | Some idx =>
          names' <- gets skin_names ;;
          match py_index names' idx with        (* both branches read it *)
          | None => raise IndexError
          | Some best_skin_base_name =>
              if Qltb (best_score b) threshold then ret None
              else
                aliases <- gets alias_to_canonical ;;
                ret (Some (resolve aliases best_skin_base_name))
          end
      end.

End Manager.

(** The query texts handed to the encoder, oldest first. *)
Fixpoint queries (evs : list event) : list string :=
  match evs with
  | [] => []
  | EncodeQuery text _ :: rest => text :: queries rest
  | _ :: rest => queries rest
  end.

(** The first pair a search returns, when it returns one. *)
Definition top1 (ext : externals) (s : state) (text : string)
  : option (Z * Q) :=
  match fst (_vector_search ext text 3 s) with
  | Ok (found :: _) => Some found
  | _ => None
  end.

(** [keeps f m]: running [m] leaves the observation [f] of the state as it
    was, whether [m] returns or raises. *)
Definition keeps {A B} (f : state -> B) (m : M A) : Prop :=
  forall s, f (snd (m s)) = f s.


(** ** Construction *)

(** The three files [__init__] reads, as they are when it reads them (after
    [update_skin_list()] when [refresh_data] is set). *)
Record disk : Type := {
  skin_list_file : option (list string);   (* its lines; [None]: not found *)
  name_mapping_file : mapping_file;
  embedding_cache_file : cache_file;
}.

(** [[line.strip() for line in f if line.strip()]] *)
Definition load_skin_names (f : option (list string)) : list string :=
  match f with
  | None => []
  | Some lines =>
      filter (fun line => PyStr.is_empty line = false)
             (map PyStr.strip lines)
  end.

Definition __init__ (ext : externals)
    (repr_obj : list (string * json) -> string) (d : disk)
    (rebuild_index refresh_data : bool) : outcome unit * state :=
  let names := load_skin_names (skin_list_file d) in
  let self :=
    {| skin_names := names;
       alias_to_canonical :=
         _load_alias_mapping repr_obj (name_mapping_file d) names;
       _embedding_model := false;
       _embeddings := None;
       _vector_dim := None;
       _vector_index := None;
       cache := embedding_cache_file d;
       events := [] |} in
  if rebuild_index then _build_vector_index ext refresh_data self
  else (Ok tt, self).

(** The states a manager goes through: the one [__init__] leaves, and the
    one after each call of [find_best_match]. *)
Inductive reachable (ext : externals)
    (repr_obj : list (string * json) -> string) (d : disk) : state -> Prop :=
| reach_init rebuild_index refresh_data :
    reachable ext repr_obj d
      (snd (__init__ ext repr_obj d rebuild_index refresh_data))
| reach_call s q c :
    reachable ext repr_obj d s ->
    reachable ext repr_obj d (snd (find_best_match ext q c s)).

(** Nothing that was initialised in [s] has been dropped or replaced in
    [s']. *)
Definition kept_initialised (s s' : state) : Prop :=
  (_embedding_model s = true -> _embedding_model s' = true)
  /\ (forall E, _embeddings s = Some E -> _embeddings s' = Some E)
  /\ (forall i, _vector_index s = Some i -> _vector_index s' = Some i).

(** ** Two views of [_vector_search]

    The method first brings the manager up (embeddings, model, index), then
    reads the result off the prepared state.  [warm_up] and [lookup] name
    the two halves; [vector_search_split] shows they compose to the method. *)

Definition warm_up (ext : externals) (query_text : string) : M unit :=
  _ensure_embeddings ext false ;;;
  _get_embedding_model ext ;;;
  modify (log (EncodeQuery query_text true)) ;;;
  before <- gets _vector_index ;;
  if is_some (faiss ext) && negb (is_some before)
  then _build_vector_index ext false else ret tt.

Definition lookup (ext : externals) (query_text : string) (top_k : nat)
  : M (list (Z * Q)) :=
  let query_embedding := encode_text ext true query_text in
  vector_index <- gets _vector_index ;;
  match vector_index with
  | Some index =>
      match index_search index query_embedding top_k with
      | Some found => ret found
      | None => raise FaissError
      end
  | None =>
      present <- gets _embeddings ;;
      match present with
      | None => ret []
      | Some embeddings =>
          similarities <- np_dot ext embeddings query_embedding ;;
          let top_indices := firstn top_k (argsort_desc ext similarities) in
          pair_scores similarities top_indices
      end
  end.

(** A manager that has served a search: nothing is left to initialise. *)
Definition warm (ext : externals) (s : state) : Prop :=
  is_nil (skin_names s) = false
  /\ is_some (_embeddings s) = true
  /\ _embedding_model s = true
  /\ (is_some (faiss ext) = true -> is_some (_vector_index s) = true).

(** The first text of [texts] whose top candidate reaches the threshold,
    with that candidate. *)
Fixpoint first_clearing (ext : externals) (s : state) (threshold : Q)
    (texts : list string) : option (Z * Q * string) :=
  match texts with
  | [] => None
  | text :: rest =>
      match top1 ext s text with
      | Some (idx, score) =>
          if Qle_bool threshold score then Some (idx, score, text)
          else first_clearing ext s threshold rest
      | None => first_clearing ext s threshold rest
      end
  end.

(** The texts a run of the loop searches: it goes down [texts] and stops
    after the first one whose top candidate reaches the threshold. *)
Fixpoint searched_texts (ext : externals) (s : state) (threshold : Q)
    (texts : list string) : list string :=
  match texts with
  | [] => []
  | text :: rest =>
      text ::
        match top1 ext s text with
        | Some (_, score) =>
            if Qle_bool threshold score then []
            else searched_texts ext s threshold rest
        | None => searched_texts ext s threshold rest
        end
  end.

(** The loop's update of its three locals: [if score > best_score: ...]. *)
Definition tracked (b : best) (idx : Z) (score : Q) (text : string) : best :=
  if Qltb (best_score b) score
  then {| best_idx := Some idx; best_score := score;
          used_query := Some text |}
  else b.

(** ** A small instance, for running the definitions

    Three catalog rows embedded in the plane, the third an alias of the
    first; an encoder given by a table; [np.argsort] as a stable descending
    sort; faiss either absent or an exact inner-product index. *)

Module Demo.

Definition redline : string := "AK-47 | Redline (Field-Tested)".
Definition asiimov : string := "AWP | Asiimov (Field-Tested)".
Definition hongxian : string := "AK-47 | Hongxian (Jiujing Shachang)".

Definition catalog : list string := [redline; asiimov; hongxian].

Definition encoder (normalize : bool) (text : string) : vec :=
  if decide (text = redline) then [1; 0]%Q
  else if decide (text = asiimov) then [0; 1]%Q
  else if decide (text = hongxian) then [-3 # 5; 4 # 5]%Q
  else if decide (text = "ak redline") then [1; 0]%Q
  else if decide (text = "hongxian") then [-3 # 5; 4 # 5]%Q
  else if decide (text = "xyz123") then [-3 # 5; -4 # 5]%Q
  else if decide (text = "awp") then [4 # 5; 3 # 5]%Q
  else if decide (text = "AWP") then [0; 1]%Q
  else if decide (text = "m4") then [3 # 5; 4 # 5]%Q
  else if decide (text = "M4") then [4 # 5; 3 # 5]%Q
  else [0; 0]%Q.

Fixpoint insert_desc (p : nat * Q) (l : list (nat * Q)) : list (nat * Q) :=
  match l with
  | [] => [p]
  | h :: t =>
      if Qle_bool (snd h) (snd p) then p :: h :: t
      else h :: insert_desc p t
  end.

(** Positions paired with scores, best first, equal scores in index
    order. *)
Definition ranked (scores : list Q) : list (nat * Q) :=
  fold_right insert_desc [] (imap (fun i x => (i, x)) scores).

Definition argsort (scores : list Q) : list nat := map fst (ranked scores).

(** The filler faiss returns when fewer than [k] vectors are indexed. *)
Definition no_hit : Z * Q :=
  (-1, (-340282346638528859811704183484516925440 # 1)%Q).

Definition flat_ip (d : option nat) (m : matrix) : option faiss_index :=
  if decide (d = Some (ncols m)) then
    Some {| index_search := fun q k =>
              let hits :=
                map (fun p => (Z.of_nat (fst p), snd p))
                    (firstn k (ranked (map (fun row => dot row q) (mrows m)))) in
              Some (hits ++ repeat no_hit (k - length hits)) |}
  else None.

Definition numpy_only : externals :=
  {| model_available := true;
     encode_text := encoder;
     encode_dim := 2;
     faiss := None;
     argsort_desc := argsort;
     save_cache := fun _ => Saved |}.

Definition with_faiss : externals :=
  {| model_available := true;
     encode_text := encoder;
     encode_dim := 2;
     faiss := Some flat_ip;
     argsort_desc := argsort;
     save_cache := fun _ => Saved |}.

Definition no_model : externals :=
  {| model_available := false;
     encode_text := encoder;
     encode_dim := 2;
     faiss := None;
     argsort_desc := argsort;
     save_cache := fun _ => Saved |}.

(** The cache path can be neither read nor written (it is a directory,
    say): a write raises and leaves it as it was. *)
Definition locked : externals :=
  {| model_available := true;
     encode_text := encoder;
     encode_dim := 2;
     faiss := None;
     argsort_desc := argsort;
     save_cache := fun c => SaveFailed c |}.

Definition repr_obj (ms : list (string * json)) : string := "{...}".

(** [{"alias_to_en": {hongxian: redline}}] *)
Definition mapping : mapping_file :=
  MappingParsed (JObj [("alias_to_en", JObj [(hongxian, JStr redline)])]).

(** The files next to the demo manager: no cache file yet. *)
Definition files : disk :=
  {| skin_list_file :=
       Some [redline; String.append "  " asiimov; "   ";
             String.append hongxian " "];
     name_mapping_file := mapping;
     embedding_cache_file := CacheMissing |}.

(** A manager right after [__init__(..., rebuild_index=False)]. *)
Definition fresh : state :=
  {| skin_names := catalog;
     alias_to_canonical := _load_alias_mapping repr_obj mapping catalog;
     _embedding_model := false;
     _embeddings := None;
     _vector_dim := None;
     _vector_index := None;
     cache := CacheMissing;
     events := [] |}.

(** The same manager next to a cache file that cannot be read. *)
Definition unreadable : state :=
  {| skin_names := catalog;
     alias_to_canonical := _load_alias_mapping repr_obj mapping catalog;
     _embedding_model := false;
     _embeddings := None;
     _vector_dim := None;
     _vector_index := None;
     cache := CacheUnreadable;
     events := [] |}.

(** The same manager with an empty catalog. *)
Definition empty : state :=
  {| skin_names := [];
     alias_to_canonical := ∅;
     _embedding_model := false;
     _embeddings := None;
     _vector_dim := None;
     _vector_index := None;
     cache := CacheMissing;
     events := [] |}.

End Demo.

(** The artifact gives no explicit entries: it is absent, unreadable, or
    its top level is not an object. *)
Definition no_mapping (f : mapping_file) : Prop :=
  match f with
  | MappingMissing | MappingUnreadable => True
  | MappingParsed (JObj _) => False
  | MappingParsed _ => True
  end.


(** A search for [text] from state [s] returns, and its top index, if it
    has one, is a valid subscript of the catalog. *)
Definition search_returns (ext : externals) (s : state) (text : string)
  : Prop :=
  exists results,
    fst (_vector_search ext text 3 s) = Ok results
    /\ forall idx score,
        head results = Some (idx, score) ->
        is_Some (py_index (skin_names s) idx).

(** ** What the two search paths are asked to return

    [IndexFlatIP.search] and [np.argsort] are third-party code; the
    statements that compare the two paths take them by their contracts. *)

(** Scores best first. *)
Definition descending (found : list (Z * Q)) : Prop :=
  forall i j p p',
    (i <= j)%nat -> found !! i = Some p -> found !! j = Some p' ->
    (snd p' <= snd p)%Q.

(** [found] is what an exact inner-product index over the rows of [E]
    may return for [search(q, k)]: at most [k] pairs, best first, the first
    of them a row of [E] with its inner product, which that of no row
    exceeds.  Which of several rows with the best score comes first is left
    open. *)
Definition exact_search (E : matrix) (q : vec) (k : nat)
    (found : list (Z * Q)) : Prop :=
  (length found <= k)%nat
  /\ descending found
  /\ exists i row score rest,
      found = (Z.of_nat i, score) :: rest
      /\ mrows E !! i = Some row
      /\ (score == dot row q)%Q
      /\ forall row', row' ∈ mrows E -> (dot row' q <= score)%Q.

(** [order] is what [np.argsort(-xs)] may return: the positions of [xs],
    each once, by descending value.  The order of positions with equal
    values is left open. *)
Definition argsort_of (xs : list Q) (order : list nat) : Prop :=
  Permutation order (seq 0 (length xs))
  /\ forall i j a b x y,
      (i <= j)%nat -> order !! i = Some a -> order !! j = Some b ->
      xs !! a = Some x -> xs !! b = Some y -> (y <= x)%Q.

(** ** Bookkeeping over the event log *)

Fixpoint count_loads (evs : list event) : nat :=
  match evs with
  | [] => 0
  | LoadModel :: rest => S (count_loads rest)
  | _ :: rest => count_loads rest
  end.

Fixpoint count_catalog_encodes (evs : list event) : nat :=
  match evs with
  | [] => 0
  | EncodeCatalog _ _ _ :: rest => S (count_catalog_encodes rest)
  | _ :: rest => count_catalog_encodes rest
  end.

(** Every write of the cache file goes through. *)
Definition cache_writable (ext : externals) : Prop :=
  forall c, save_cache ext c = Saved.

(** What holds of a manager between calls: the model has been constructed
    once if it is loaded and never otherwise; where the cache file can be
    written, the catalog has been encoded at most once, and then its matrix
    is in memory; a matrix in memory has one row per catalog name and
    [_vector_dim] is its width. *)
Definition consistent (ext : externals) (s : state) : Prop :=
  count_loads (events s) = (if _embedding_model s then 1 else 0)%nat
  /\ (cache_writable ext ->
      count_catalog_encodes (events s) = 0%nat
      \/ (count_catalog_encodes (events s) = 1%nat
          /\ is_some (_embeddings s) = true
          /\ is_nil (skin_names s) = false))
  /\ (forall E, _embeddings s = Some E ->
        nrows E = length (skin_names s) /\ _vector_dim s = Some (ncols E)).

(** The demo manager after one call that found a match. *)
Definition Demo_served : state :=
  snd (find_best_match Demo.numpy_only "ak redline" 50 Demo.fresh).

(** Files with no catalog at all. *)
Definition Demo_no_files : disk :=
  {| skin_list_file := None;
     name_mapping_file := MappingMissing;
     embedding_cache_file := CacheUnreadable |}.

(** A catalog that lists one name twice: its two rows are equal. *)
Definition Demo_twins : matrix :=
  encode Demo.numpy_only true [Demo.redline; Demo.redline].

Fixpoint Demo_insert_later (p : nat * Q) (l : list (nat * Q))
  : list (nat * Q) :=
  match l with
  | [] => [p]
  | h :: t =>
      if Qltb (snd h) (snd p) then p :: h :: t
      else h :: Demo_insert_later p t
  end.

(** An exact inner-product index that, of rows with equal scores, names the
    later one first. *)
Definition Demo_later_first (m : matrix) : faiss_index :=
  {| index_search := fun q k =>
       let ranked :=
         fold_right Demo_insert_later []
           (imap (fun i x => (i, x)) (map (fun row => dot row q) (mrows m))) in
       let hits :=
         map (fun p => (Z.of_nat (fst p), snd p)) (firstn k ranked) in
       Some (hits ++ repeat Demo.no_hit (k - length hits)) |}.

(** A warm manager over a matrix, with or without an index. *)
Definition Demo_warm (names : list string) (E : matrix)
    (index : option faiss_index) : state :=
  {| skin_names := names;
     alias_to_canonical := identity_map names;
     _embedding_model := true;
     _embeddings := Some E;
     _vector_dim := Some (ncols E);
     _vector_index := index;
     cache := CacheArray (to_ndarray E);
     events := [] |}.

(** * The catalog refresh: [src/update_skin_name.py]

    [update_skin_list] downloads the English and the Chinese item feeds and
    rewrites the list file and the mapping file.  A download is what
    [response.json()] gave, or a failure ([requests.get],
    [raise_for_status] or the JSON parser raised). *)

Inductive download : Type :=
| DownloadFailed
| Downloaded (data : json).

(** [bool(v)] for a parsed JSON value.  The values other than strings and
    objects are told apart by their [str()]: [None], [False], the zeros and
    the empty list are the false ones. *)
Definition json_truthy (v : json) : bool :=
  match v with
  | JStr s => negb (PyStr.is_empty s)
  | JObj ms => negb (is_nil ms)
  | JOther r =>
      negb (bool_decide (r ∈ ["None"; "False"; "0"; "0.0"; "-0.0"; "[]"]))
  end.

(** [d.items()] for the members of a parsed object: each key once, where it
    first stands, with the value that stands last. *)
Fixpoint dict_items (ms : list (string * json)) : list (string * json) :=
  match ms with
  | [] => []
  | (k, v) :: rest =>
      (k, default v (dict_get rest k))
        :: filter (fun kv => fst kv <> k) (dict_items rest)
  end.

(** [list(dict.fromkeys(names))]: first occurrences, in order. *)
Definition fromkeys (names : list string) : list string :=
  fold_left (fun acc x => if decide (x ∈ acc) then acc else acc ++ [x])
            names [].

Section Refresh.

Variable repr_obj : list (string * json) -> string.

(** One turn of [for name in candidate_raw], on the pair
    [(candidates, seen)]. *)
Definition add_candidate (st : list string * gset string)
    (name : option json) : list string * gset string :=
  match name with
  | None => st                                   (* [item.get] gave [None] *)
  | Some v =>
      if json_truthy v then
        let normalized := PyStr.strip (py_str repr_obj v) in
        if negb (PyStr.is_empty normalized)
           && negb (bool_decide (normalized ∈ snd st))
        then (fst st ++ [normalized], {[normalized]} ∪ snd st)
        else st
      else st
  end.

(** [candidates] for one item of the feed. *)
Definition item_candidates (fields : list (string * json)) : list string :=
  let candidate_raw :=
    [dict_get fields "market_hash_name";
     dict_get fields "market_name";
     dict_get fields "name"] in
  fst (fold_left add_candidate candidate_raw ([], ∅)).

(** The three accumulators of [update_skin_list]. *)
Record refresh : Type := {
  all_skin_names : list string;
  alias_map : gmap string string;
  english_primary_by_id : gmap string string;
}.

Definition refresh_start : refresh :=
  {| all_skin_names := []; alias_map := ∅; english_primary_by_id := ∅ |}.

(** The body of [for item_id, item in all_items_dict.items()] for an item
    that is an object. *)
Definition process_item (locale item_id : string)
    (fields : list (string * json)) (a : refresh) : refresh :=
  match item_candidates fields with
  | [] => a                                                    (* continue *)
  | primary_en :: more =>
      let candidates := primary_en :: more in
      let is_en := bool_decide (locale = "en") in
      let base_name :=
        if is_en then primary_en
        else default primary_en (english_primary_by_id a !! item_id) in
      {| all_skin_names := all_skin_names a ++ candidates;
         alias_map :=
           fold_left (fun m alias => <[alias := base_name]> m) candidates
                     (alias_map a);
         english_primary_by_id :=
           if is_en then <[item_id := primary_en]> (english_primary_by_id a)
           else english_primary_by_id a |}
  end.

(** The item loop.  An item that is not an object makes [item.get] raise;
    the handler around the loop swallows that, so the rest of the locale is
    dropped and what has been gathered stays. *)
Fixpoint process_items (locale : string) (items : list (string * json))
    (a : refresh) : refresh :=
  match items with
  | [] => a
  | (item_id, JObj fields) :: rest =>
      process_items locale rest (process_item locale item_id fields a)
  | (_, _) :: _ => a
  end.

(** The [try] block for one locale: a failed download, or a feed that is
    not an object, leaves the accumulators as they are. *)
Definition process_locale (locale : string) (d : download) (a : refresh)
  : refresh :=
  match d with
  | Downloaded (JObj ms) => process_items locale (dict_items ms) a
  | Downloaded _ | DownloadFailed => a
  end.

(** What [update_skin_list] writes: the names of the list file, one per
    line, and the object under [alias_to_en] in the mapping file; [None]
    when it returns before writing. *)
Definition update_skin_list (en zh : download)
  : option (list string * gmap string string) :=
  let a := process_locale "zh-CN" zh (process_locale "en" en refresh_start) in
  let unique_skin_names := fromkeys (all_skin_names a) in
  if is_nil unique_skin_names then None
  else Some (unique_skin_names, alias_map a).

End Refresh.

(** ** The two files, written and read back *)

Definition LF : ascii := ascii_of_nat 10.
Definition CR : ascii := ascii_of_nat 13.

(** ['\n'.join(names)] *)
Fixpoint join_lines (names : list string) : string :=
  match names with
  | [] => EmptyString
  | [name] => name
  | name :: rest => String.append name (String LF (join_lines rest))
  end.

Definition snoc_char (s : string) (c : ascii) : string :=
  String.append s (String c EmptyString).

(** [for line in f] on a file opened in text mode: a line ends at a line
    feed, a carriage return or the two in a row, each handed over as one
    line feed; a last line may lack it. *)
Fixpoint read_lines_from (cur : string) (text : string) : list string :=
  match text with
  | EmptyString => if PyStr.is_empty cur then [] else [cur]
  | String c rest =>
      if Ascii.eqb c LF then snoc_char cur LF :: read_lines_from EmptyString rest
      else if Ascii.eqb c CR then
        snoc_char cur LF ::
          match rest with
          | String c' rest' =>
              if Ascii.eqb c' LF then read_lines_from EmptyString rest'
              else read_lines_from EmptyString rest
          | EmptyString => read_lines_from EmptyString rest
          end
      else read_lines_from (snoc_char cur c) rest
  end.

Definition read_lines (text : string) : list string :=
  read_lines_from EmptyString text.

(** No line end inside [s]. *)
Fixpoint one_line (s : string) : bool :=
  match s with
  | EmptyString => true
  | String c rest => negb (Ascii.eqb c LF) && negb (Ascii.eqb c CR) && one_line rest
  end.

(** What [json.load] gives back for [{"alias_to_en": alias_map}] as
    [json.dump] wrote it. *)
Definition mapping_payload (aliases : gmap string string) : json :=
  JObj [("alias_to_en",
         JObj (map (fun kv => (fst kv, JStr (snd kv))) (map_to_list aliases)))].

(** The disk after [update_skin_list] has written [(names, aliases)]. *)
Definition refreshed_disk (names : list string)
    (aliases : gmap string string) (c : cache_file) : disk :=
  {| skin_list_file := Some (read_lines (join_lines names));
     name_mapping_file := MappingParsed (mapping_payload aliases);
     embedding_cache_file := c |}.

(** A name as the list file holds it: not empty, nothing to strip. *)
Definition clean (name : string) : Prop :=
  PyStr.is_empty name = false /\ PyStr.strip name = name.

(** What holds of the accumulators of [update_skin_list] all along: the
    names gathered are clean, the keys of the alias map are the names
    gathered, and every canonical name, in the alias map or remembered as an
    English primary, is one of them. *)
Definition sound (a : refresh) : Prop :=
  (forall n, n ∈ all_skin_names a -> clean n)
  /\ (forall k, is_Some (alias_map a !! k) <-> k ∈ all_skin_names a)
  /\ (forall k v, alias_map a !! k = Some v -> v ∈ all_skin_names a)
  /\ (forall id v, english_primary_by_id a !! id = Some v ->
                   v ∈ all_skin_names a).

(** Two small feeds: the English one names two items, the Chinese one gives
    the first item another name and has an item without a usable name. *)
Definition Demo_feed_en : download :=
  Downloaded (JObj
    [("1", JObj [("market_hash_name", JStr Demo.redline);
                 ("name", JStr "  AK-47 | Redline ")]);
     ("2", JObj [("name", JStr Demo.asiimov);
                 ("market_name", JStr Demo.asiimov)])]).

Definition Demo_feed_zh : download :=
  Downloaded (JObj
    [("1", JObj [("name", JStr Demo.hongxian)]);
     ("3", JObj [("name", JStr "   "); ("market_name", JOther "None")])]).

Definition Demo_names : list string :=
  [Demo.redline; "AK-47 | Redline"; Demo.asiimov; Demo.hongxian].

Definition Demo_aliases : gmap string string :=
  list_to_map
    [(Demo.redline, Demo.redline); ("AK-47 | Redline", Demo.redline);
     (Demo.asiimov, Demo.asiimov); (Demo.hongxian, Demo.redline)].

(** * The agent: [src/agent.py] *)

(** ** [str.split] *)

Fixpoint string_drop (n : nat) (s : string) : string :=
  match n, s with
  | O, _ => s
  | S k, String _ rest => string_drop k rest
  | S _, EmptyString => EmptyString
  end.

(** The text before and the text after the first place where [sep] stands
    in [s]. *)
Fixpoint cut (sep s : string) : option (string * string) :=
  if String.prefix sep s then
    Some (EmptyString, string_drop (String.length sep) s)
  else
    match s with
    | EmptyString => None
    | String c rest =>
        match cut sep rest with
        | Some (before, after) => Some (String c before, after)
        | None => None
        end
    end.

Fixpoint py_split_fuel (fuel : nat) (s sep : string) : list string :=
  match fuel with
  | O => [s]
  | S f =>
      match cut sep s with
      | Some (before, after) => before :: py_split_fuel f after sep
      | None => [s]
      end
  end.

(** [s.split(sep)] for a separator that is not empty: every cut uses up at
    least one character, so [length s] cuts are enough. *)
Definition py_split (s sep : string) : list string :=
  py_split_fuel (String.length s) s sep.

(** [sep] stands somewhere in [s]. *)
Definition occurs (sep s : string) : Prop :=
  exists before after, s = String.append before (String.append sep after).

(** ** [_parse_llm_output] *)

Definition thought_marker : string := "Thought:".
Definition action_marker : string := "Action:".
Definition input_marker : string := "Action Input:".

(** [pieces[i]] *)
Definition piece (pieces : list string) (i : Z) : outcome string :=
  match py_index pieces i with
  | Some p => Ok p
  | None => Raise IndexError
  end.

Definition and_then {A B} (o : outcome A) (k : A -> outcome B) : outcome B :=
  match o with
  | Ok a => k a
  | Raise e => Raise e
  end.

Definition _parse_llm_output (llm_output : string)
  : outcome (string * string * string) :=
  and_then (piece (py_split llm_output thought_marker) 1) (fun after_thought =>
  and_then (piece (py_split after_thought action_marker) 0) (fun thought =>
  and_then (piece (py_split llm_output action_marker) 1) (fun after_action =>
  and_then (piece (py_split after_action input_marker) 0) (fun action =>
  and_then (piece (py_split llm_output input_marker) 1) (fun action_input =>
  Ok (PyStr.strip thought, PyStr.strip action, PyStr.strip action_input)))))).

(** ** The agent and its world *)

(** One entry of [conversation_history]. *)
Record chat_message : Type := {
  role : string;
  content : string;
}.

(** What a tool call comes to inside the [try] of [run]: the parsing of the
    input, the call and what it returns or raises. *)
Inductive tool_result : Type :=
| ToolText (observation : string)       (* a [str] was returned *)
| ToolValue (dumped : string)           (* another value; its [json.dumps] *)
| ToolRaised (message : string).        (* anything raised; its [str(e)] *)

(** One entry of [self.tools]. *)
Record tool_info : Type := {
  description : string;
  args_dumped : string;                       (* [json.dumps(info['args'])] *)
  tool_function : nat -> string -> tool_result;  (* by step and input text *)
}.

Record ReActAgent : Type := {
  agent_model : string;
  tools : list (string * tool_info);          (* a [dict]: names differ *)
  max_steps : nat;
  conversation_history : list chat_message;
}.

(** The arguments that fill [REACT_PROMPT_TEMPLATE]. *)
Record prompt : Type := {
  current_datetime : string;
  tools_description : string;
  tool_names : string;
  user_question : string;
  chat_history : string;
}.

(** A [GenerationResponse], as far as [run] reads it. *)
Record response : Type := {
  status_code : Z;
  response_message : string;
  output_text : string;
}.

(** Outside the repository: the clock and the language model, each asked
    once per step. *)
Record agent_world : Type := {
  now : nat -> string;
  generation_call : nat -> string -> prompt -> response;
}.

(** The dictionaries [run] yields. *)
Inductive agent_event : Type :=
| EvError (step : nat) (message : string)
| EvThought (step : nat) (thought action action_input : string)
| EvFinal (step : nat) (final_answer : string)
| EvObservation (step : nat) (observation : string)
| EvIncomplete (message : string).

(** [__init__] *)
Definition new_agent (model : string) (tools : list (string * tool_info))
  : ReActAgent :=
  {| agent_model := model; tools := tools; max_steps := 7;
     conversation_history := [] |}.

(** [sep.join(parts)] *)
Fixpoint str_join (sep : string) (parts : list string) : string :=
  match parts with
  | [] => EmptyString
  | [p] => p
  | p :: rest => String.append p (String.append sep (str_join sep rest))
  end.

(** Pieces of an f-string, one after another. *)
Definition fstring (parts : list string) : string :=
  fold_right String.append EmptyString parts.

Definition newline : string := String LF EmptyString.

(** [self.tools[action]], when [action in self.tools]. *)
Fixpoint find_tool (tools : list (string * tool_info)) (action : string)
  : option tool_info :=
  match tools with
  | [] => None
  | (name, info) :: rest =>
      if decide (name = action) then Some info else find_tool rest action
  end.

(** How a run stops. *)
Inductive ending : Type :=
| EndedError
| EndedFinal (answer : string)
| EndedSteps.

Section Agent.

Variable world : agent_world.

(** The body of [for step in range(self.max_steps)], for the steps still to
    come: the events yielded and the way the loop is left. *)
Fixpoint steps (self : ReActAgent) (question tools_text names_text : string)
    (remaining step : nat) (history_text : string)
  : list agent_event * ending :=
  match remaining with
  | O => ([], EndedSteps)
  | S remaining' =>
      let p := {| current_datetime := now world step;
                  tools_description := tools_text;
                  tool_names := names_text;
                  user_question := question;
                  chat_history := history_text |} in
      let response := generation_call world step (agent_model self) p in
      if negb (status_code response =? 200)%Z then
        ([EvError (S step)
            (fstring ["LLM 调用失败: "; response_message response])],
         EndedError)
      else
        let llm_output := PyStr.strip (output_text response) in
        match _parse_llm_output llm_output with
        | Raise _ =>
            ([EvError (S step)
                (fstring ["Agent解析输出失败，无法继续。输出为: ";
                          llm_output])],
             EndedError)
        | Ok (thought, action, action_input_str) =>
            let thinking := EvThought (S step) thought action action_input_str in
            if decide (action = "Finish") then
              ([thinking; EvFinal (S step) action_input_str],
               EndedFinal action_input_str)
            else
              let observed_text :=
                match find_tool (tools self) action with
                | Some info =>
                    match tool_function info step action_input_str with
                    | ToolText observation => observation
                    | ToolValue dumped => dumped
                    | ToolRaised e => fstring ["工具执行出错: "; e]
                    end
                | None =>
                    fstring ["错误: 尝试使用一个不存在的工具 '"; action; "'。"]
                end in
              let later :=
                steps self question tools_text names_text remaining' (S step)
                  (fstring [history_text; newline; llm_output; newline;
                            "Observation: "; observed_text; newline]) in
              (thinking :: EvObservation (S step) observed_text :: fst later,
               snd later)
        end
  end.

(** [conversation_history.pop(i)] *)
Definition pop {A} (i : nat) (l : list A) : list A :=
  firstn i l ++ skipn (S i) l.

(** [run], read to its end: every event it yields, and the agent it
    leaves. *)
Definition run (self : ReActAgent) (question : string)
  : list agent_event * ReActAgent :=
  let history_lines :=
    map (fun message =>
           fstring [if decide (role message = "user") then "用户" else "助手";
                    ": "; content message])
        (conversation_history self) in
  let history_text := str_join newline history_lines in
  let appended :=
    conversation_history self ++ [{| role := "user"; content := question |}] in
  let user_msg_index := (length appended - 1)%nat in
  let tools_text :=
    str_join newline
      (map (fun t => fstring ["- "; fst t; ": "; description (snd t);
                              " 参数: "; args_dumped (snd t)])
           (tools self)) in
  let names_text := str_join ", " (map fst (tools self)) in
  let with_history h :=
    {| agent_model := agent_model self; tools := tools self;
       max_steps := max_steps self; conversation_history := h |} in
  match steps self question tools_text names_text (max_steps self) 0
              history_text with
  | (events, EndedError) => (events, with_history (pop user_msg_index appended))
  | (events, EndedFinal answer) =>
      (events,
       with_history (appended ++ [{| role := "assistant"; content := answer |}]))
  | (events, EndedSteps) =>
      (events
         ++ [EvIncomplete "Agent 已达到最大思考步数，未能得出最终答案。"],
       with_history (pop user_msg_index appended))
  end.

(** [reset_conversation] *)
Definition reset_conversation (self : ReActAgent) : ReActAgent :=
  {| agent_model := agent_model self; tools := tools self;
     max_steps := max_steps self; conversation_history := [] |}.

End Agent.

(** The events that end a run. *)
Definition terminal (e : agent_event) : bool :=
  match e with
  | EvError _ _ | EvFinal _ _ | EvIncomplete _ => true
  | EvThought _ _ _ _ | EvObservation _ _ => false
  end.

Fixpoint count_thoughts (evs : list agent_event) : nat :=
  match evs with
  | [] => 0
  | EvThought _ _ _ _ :: rest => S (count_thoughts rest)
  | _ :: rest => count_thoughts rest
  end.

(** The agents a process goes through: a new one, then runs read to their
    end (the clock and the language model answering as they will at each
    run) and resets, in any order. *)
Inductive conversed : ReActAgent -> Prop :=
| conversed_new model tools : conversed (new_agent model tools)
| conversed_run world self question :
    conversed self -> conversed (snd (run world self question))
| conversed_reset self :
    conversed self -> conversed (reset_conversation self).

(** The history that answered questions leave: a user message and the
    assistant's answer for each. *)
Definition exchanges (pairs : list (string * string)) : list chat_message :=
  flat_map (fun qa => [{| role := "user"; content := fst qa |};
                       {| role := "assistant"; content := snd qa |}])
           pairs.

(** * The service: [src/server.py] *)

(** [range(0, stop, step)] for a positive step. *)
Definition range_step (stop step : nat) : list nat :=
  map (fun i => (i * step)%nat) (seq 0 ((stop + step - 1) / step)).

(** [_chunk_text], read to its end: [range] refuses a zero step. *)
Definition _chunk_text (text : string) (chunk_size : nat)
  : outcome (list string) :=
  if (chunk_size =? 0)%nat then Raise ValueError
  else Ok (map (fun start => substring start chunk_size text)
               (range_step (String.length text) chunk_size)).

(** The dictionaries [ask_stream] hands to [_sse_event]. *)
Inductive sse_payload : Type :=
| SseEvent (e : agent_event)
| SseDelta (content : string)
| SseFinal (final_answer : string) (step : nat)
| SseError (message : string).

Section Service.

Variable world : agent_world.
(** [json.dumps(payload, ensure_ascii=False)] *)
Variable json_dumps : sse_payload -> string.

Definition _sse_event (payload : sse_payload) : string :=
  fstring ["data: "; json_dumps payload; newline; newline].

(** [ask]: the events, [final_answer], and the agent afterwards. *)
Definition ask (react_agent : option ReActAgent) (question : string)
  : list agent_event * option string * option ReActAgent :=
  match react_agent with
  | None => ([], Some "服务未初始化", None)
  | Some agent =>
      let ran := run world agent question in
      (fst ran,
       fold_left (fun final_answer event =>
                    match event with
                    | EvFinal _ answer => Some answer
                    | _ => final_answer
                    end)
                 (fst ran) None,
       Some (snd ran))
  end.

(** What [event_generator] yields for one event of the run. *)
Definition stream_event (event : agent_event) : list sse_payload :=
  match event with
  | EvFinal step final_answer =>
      (if PyStr.is_empty final_answer then []
       else match _chunk_text final_answer 60 with
            | Ok pieces => map SseDelta pieces
            | Raise _ => []
            end)
      ++ [SseFinal final_answer step]
  | _ => [SseEvent event]
  end.

(** The body of the response of [ask_stream], frame by frame, and the agent
    afterwards. *)
Definition ask_stream (react_agent : option ReActAgent) (question : string)
  : list string * option ReActAgent :=
  match react_agent with
  | None => ([_sse_event (SseError "服务未初始化")], None)
  | Some agent =>
      let ran := run world agent question in
      (map _sse_event (flat_map stream_event (fst ran)), Some (snd ran))
  end.

(** [reset_conversation] of the service. *)
Definition reset_endpoint (react_agent : option ReActAgent)
  : option ReActAgent :=
  option_map reset_conversation react_agent.

End Service.

(** The text of the [delta] payloads, in order. *)
Fixpoint delta_text (payloads : list sse_payload) : string :=
  match payloads with
  | [] => EmptyString
  | SseDelta content :: rest => String.append content (delta_text rest)
  | _ :: rest => delta_text rest
  end.

(** A clock and a language model for examples: the model asks for the tool
    [lookup] at its first step and finishes at the second. *)
Definition Demo_world : agent_world :=
  {| now := fun _ => "2025-01-01 00:00:00";
     generation_call := fun step _ _ =>
       {| status_code := 200;
          response_message := EmptyString;
          output_text :=
            if (step =? 0)%nat then
              fstring ["Thought: look it up"; newline;
                       "Action: lookup"; newline;
                       "Action Input: {}"]
            else
              fstring ["Thought: known"; newline;
                       "Action: Finish"; newline;
                       "Action Input: 42 yuan"] |} |}.

Definition Demo_agent : ReActAgent :=
  new_agent "qwen-plus"
    [("lookup",
      {| description := "look a price up";
         args_dumped := "{}";
         tool_function := fun _ _ => ToolText "42" |})].
(** * Reasoning about the monad *)

Lemma Qltb_lt a b : Qltb a b = true <-> (a < b)%Q.
Proof.
  unfold Qltb. rewrite negb_true_iff. split.
  - intros H. apply Qnot_le_lt. intros Hle.
    apply Qle_bool_iff in Hle. congruence.
  - intros H. destruct (Qle_bool b a) eqn:E; [|reflexivity].
    apply Qle_bool_iff in E. exfalso. exact (Qlt_not_le _ _ H E).
Qed.

Lemma Qltb_ge a b : Qltb a b = false <-> (b <= a)%Q.
Proof.
  unfold Qltb. rewrite negb_false_iff. apply Qle_bool_iff.
Qed.

Section Keeps.

Context {B : Type} (f : state -> B).

Lemma keeps_ret {A} (a : A) : keeps f (ret a).
Proof. intros s. reflexivity. Qed.

Lemma keeps_raise {A} (e : exn) : keeps f (@raise A e).
Proof. intros s. reflexivity. Qed.

Lemma keeps_gets {A} (g : state -> A) : keeps f (gets g).
Proof. intros s. reflexivity. Qed.

Lemma keeps_modify (g : state -> state) :
  (forall s, f (g s) = f s) -> keeps f (modify g).
Proof. intros H s. apply H. Qed.

Lemma keeps_bind {A C} (m : M A) (k : A -> M C) :
  keeps f m -> (forall a, keeps f (k a)) -> keeps f (bind m k).
Proof.
  intros Hm Hk s. unfold bind.
  specialize (Hm s). destruct (m s) as [[a|e] s1]; simpl in *.
  - rewrite Hk. exact Hm.
  - exact Hm.
Qed.

End Keeps.

(** Splits a [keeps] goal along the structure of the computation. *)
Ltac keeps_step :=
  match goal with
  | |- keeps _ (bind _ _) => apply keeps_bind; [| intros ?]
  | |- keeps _ (ret _) => apply keeps_ret
  | |- keeps _ (raise _) => apply keeps_raise
  | |- keeps _ (gets _) => apply keeps_gets
  | |- keeps _ (modify _) => apply keeps_modify; intros ?; reflexivity
  | |- keeps _ (if ?c then _ else _) => destruct c
  | |- keeps _ (match ?x with _ => _ end) => destruct x
  end.

Ltac keeps_auto := repeat keeps_step.

Section Frame.

Variable ext : externals.
Context {B : Type} (f : state -> B).

(** [f] does not look at the fields the methods assign. *)
Hypothesis f_model : forall b s, f (set_embedding_model b s) = f s.
Hypothesis f_emb : forall e s, f (set_embeddings e s) = f s.
Hypothesis f_dim : forall d s, f (set_vector_dim d s) = f s.
Hypothesis f_index : forall i s, f (set_vector_index i s) = f s.
Hypothesis f_cache : forall c s, f (set_cache c s) = f s.

Section Quiet.

(** ... nor at the events other than the query encodings. *)
Hypothesis f_load : forall s, f (log LoadModel s) = f s.
Hypothesis f_catalog :
  forall names n b s, f (log (EncodeCatalog names n b) s) = f s.

Ltac frame_step :=
  match goal with
  | |- keeps _ (modify _) => apply keeps_modify; intros ?; solve [auto]
  | _ => keeps_step
  end.

Lemma keeps_get_embedding_model : keeps f (_get_embedding_model ext).
Proof. unfold _get_embedding_model. repeat frame_step. Qed.

Lemma keeps_ensure_embeddings force :
  keeps f (_ensure_embeddings ext force).
Proof.
  unfold _ensure_embeddings.
  repeat (frame_step || apply keeps_get_embedding_model).
Qed.

Lemma keeps_build_vector_index force :
  keeps f (_build_vector_index ext force).
Proof.
  unfold _build_vector_index.
  repeat (frame_step || apply keeps_ensure_embeddings).
Qed.

Lemma keeps_np_dot m q : keeps f (np_dot ext m q).
Proof. unfold np_dot. repeat frame_step. Qed.

Lemma keeps_pair_scores sims idxs : keeps f (pair_scores sims idxs).
Proof.
  induction idxs as [|i idxs IH]; simpl.
  - apply keeps_ret.
  - destruct (nth_error sims i); repeat (frame_step || apply IH).
Qed.

Section Silent.

Hypothesis f_query : forall text b s, f (log (EncodeQuery text b) s) = f s.

Lemma keeps_vector_search text k : keeps f (_vector_search ext text k).
Proof.
  unfold _vector_search.
  repeat (frame_step
          || apply keeps_ensure_embeddings
          || apply keeps_get_embedding_model
          || apply keeps_build_vector_index
          || apply keeps_np_dot
          || apply keeps_pair_scores).
Qed.

Lemma keeps_search_loop thr texts b : keeps f (search_loop ext thr texts b).
Proof.
  revert b. induction texts as [|t texts IH]; intros b; simpl.
  - apply keeps_ret.
  - apply keeps_bind; [apply keeps_vector_search|].
    intros [|[idx score] rest]; [apply IH|].
    repeat (frame_step || apply IH).
Qed.

Lemma keeps_find_best_match q c : keeps f (find_best_match ext q c).
Proof.
  unfold find_best_match.
  repeat (frame_step || apply keeps_search_loop).
Qed.

End Silent.

End Quiet.

End Frame.

(** * Inversion of the monad *)

Lemma bind_ok_inv {A B} (m : M A) (k : A -> M B) s b s' :
  bind m k s = (Ok b, s') ->
  exists a s1, m s = (Ok a, s1) /\ k a s1 = (Ok b, s').
Proof.
  unfold bind. destruct (m s) as [[a|e] s1]; intros H.
  - exists a, s1. split; [reflexivity | exact H].
  - discriminate.
Qed.

Lemma bind_assoc {A B C} (m : M A) (k : A -> M B) (h : B -> M C) s :
  bind (bind m k) h s = bind m (fun a => bind (k a) h) s.
Proof.
  unfold bind. destruct (m s) as [[a|e] s1]; reflexivity.
Qed.

(** * [_vector_search]: split, purity of the lookup, warm states *)

(** Unfolds the methods down to the state they compute. *)
Ltac unfold_methods :=
  unfold warm_up, _build_vector_index, _ensure_embeddings,
    _get_embedding_model, read_cache, bind, gets, ret, modify, raise in *.

(** Splits on every test met on the way. *)
Ltac by_cases :=
  simpl; repeat (case_match; simplify_eq/=); intros; simplify_eq/=.

Section Search.

Variable ext : externals.

Lemma vector_search_split text k s :
  _vector_search ext text k s =
  (if is_nil (skin_names s) then ret []
   else warm_up ext text ;;; lookup ext text k) s.
Proof.
  unfold _vector_search, warm_up, lookup, bind, gets, modify, ret.
  destruct (is_nil (skin_names s)); [reflexivity|].
  destruct (_ensure_embeddings ext false s) as [[[]|e] s1]; [|reflexivity].
  destruct (_get_embedding_model ext s1) as [[[]|e] s2]; [|reflexivity].
  reflexivity.
Qed.

Lemma pair_scores_pure sims idxs s s' :
  pair_scores sims idxs s = (fst (pair_scores sims idxs s'), s).
Proof.
  induction idxs as [|i idxs IH]; simpl; [reflexivity|].
  destruct (nth_error sims i) as [score|]; [|reflexivity].
  unfold bind. rewrite IH.
  destruct (pair_scores sims idxs s') as [[tl|e] s2]; reflexivity.
Qed.

(** The lookup reads the index and the embeddings and writes nothing. *)
Lemma lookup_pure text k s s' :
  _vector_index s = _vector_index s' ->
  _embeddings s = _embeddings s' ->
  lookup ext text k s = (fst (lookup ext text k s'), s).
Proof.
  intros Hi He. unfold lookup, bind, gets, np_dot, ret, raise.
  rewrite Hi. destruct (_vector_index s') as [index|].
  - destruct (index_search index _ k); reflexivity.
  - rewrite He. destruct (_embeddings s') as [E|]; [|reflexivity].
    destruct (ncols E =? encode_dim ext)%nat; [|reflexivity].
    apply pair_scores_pure.
Qed.

Lemma lookup_state text k s : snd (lookup ext text k s) = s.
Proof. rewrite (lookup_pure text k s s); reflexivity. Qed.

(** In a warm state the warm-up only logs the query. *)
Lemma warm_up_warm text s :
  warm ext s -> warm_up ext text s = (Ok tt, log (EncodeQuery text true) s).
Proof.
  destruct s as [names al mdl emb dim idx ch evs].
  unfold warm; simpl. intros (Hn & He & Hm & Hi). subst mdl.
  destruct names as [|n names]; [discriminate|].
  destruct emb as [E|]; [|discriminate].
  unfold_methods. simpl.
  destruct (is_some (faiss ext)); simpl; [|reflexivity].
  rewrite Hi; reflexivity.
Qed.

(** A warm-up that returns leaves a warm state. *)
Lemma warm_up_ok_warm text s u s' :
  is_nil (skin_names s) = false ->
  warm_up ext text s = (Ok u, s') -> warm ext s'.
Proof.
  destruct s as [names al mdl emb dim idx ch evs].
  unfold warm. unfold_methods. simpl. intros Hn. rewrite Hn. simpl.
  destruct emb as [E|], mdl, (model_available ext), (faiss ext) as [bld|],
    idx as [ix|]; by_cases; repeat split; done.
Qed.

(** The text being searched decides nothing about what the warm-up
    builds. *)
Lemma warm_up_text t t' s u s' :
  warm_up ext t s = (Ok u, s') ->
  exists s'', warm_up ext t' s = (Ok u, s'')
    /\ _vector_index s'' = _vector_index s'
    /\ _embeddings s'' = _embeddings s'.
Proof.
  destruct s as [names al mdl emb dim idx ch evs].
  unfold_methods. simpl.
  destruct names as [|n names], emb as [E|], mdl, (model_available ext),
    (faiss ext) as [bld|], idx as [ix|]; by_cases;
    eexists; (split; [reflexivity|]); split; reflexivity.
Qed.

(** Determinism across calls: a search that has returned does not change
    what any later search returns. *)
Lemma vector_search_stable t1 t2 k s r1 s1 :
  _vector_search ext t1 k s = (Ok r1, s1) ->
  fst (_vector_search ext t2 k s1) = fst (_vector_search ext t2 k s).
Proof.
  rewrite !vector_search_split.
  destruct (is_nil (skin_names s)) eqn:Hn.
  - intros H. inversion H; subst. rewrite Hn. reflexivity.
  - intros H. apply bind_ok_inv in H as ([] & sw & Hw & Hl).
    assert (s1 = sw) as ->.
    { pose proof (lookup_state t1 k sw) as E. rewrite Hl in E. exact E. }
    pose proof (warm_up_ok_warm _ _ _ _ Hn Hw) as Hwarm.
    destruct Hwarm as (Hn' & Hrest). rewrite Hn'.
    destruct (warm_up_text _ t2 _ _ _ Hw) as (sw' & Hw' & Hi & He).
    unfold bind. rewrite Hw'.
    rewrite (warm_up_warm t2 sw) by (split; assumption).
    rewrite (lookup_pure t2 k (log _ sw) sw) by reflexivity.
    rewrite (lookup_pure t2 k sw' sw) by assumption.
    reflexivity.
Qed.

Lemma top1_stable t1 t2 s r1 s1 :
  _vector_search ext t1 3 s = (Ok r1, s1) ->
  top1 ext s1 t2 = top1 ext s t2.
Proof.
  intros H. unfold top1. rewrite (vector_search_stable _ _ _ _ _ _ H).
  reflexivity.
Qed.

Lemma top1_run text s results s1 :
  _vector_search ext text 3 s = (Ok results, s1) ->
  top1 ext s text = head results.
Proof.
  intros H. unfold top1. rewrite H. destruct results; reflexivity.
Qed.

Lemma queries_app a b : queries (a ++ b) = queries a ++ queries b.
Proof.
  induction a as [|[| |] a IH]; simpl; rewrite ?IH; reflexivity.
Qed.

(** A search on a non-empty catalog encodes its text once, and no other
    query. *)
Lemma vector_search_queries text k s results s1 :
  is_nil (skin_names s) = false ->
  _vector_search ext text k s = (Ok results, s1) ->
  queries (events s1) = queries (events s) ++ [text].
Proof.
  intros Hn H. rewrite vector_search_split, Hn in H.
  apply bind_ok_inv in H as ([] & sw & Hw & Hl).
  assert (s1 = sw) as ->.
  { pose proof (lookup_state text k sw) as E. rewrite Hl in E. exact E. }
  clear Hl. unfold warm_up in Hw.
  apply bind_ok_inv in Hw as ([] & sa & Ha & Hw).
  apply bind_ok_inv in Hw as ([] & sb & Hb & Hw).
  apply bind_ok_inv in Hw as ([] & sc & Hc & Hw).
  apply bind_ok_inv in Hw as (before & sd & Hd & Hw).
  set (f := fun s => queries (events s)).
  assert (Hquiet : forall names n b s0,
             f (log (EncodeCatalog names n b) s0) = f s0).
  { intros. unfold f. simpl. rewrite queries_app, app_nil_r. reflexivity. }
  assert (Hload : forall s0, f (log LoadModel s0) = f s0).
  { intros. unfold f. simpl. rewrite queries_app, app_nil_r. reflexivity. }
  assert (Ea : f sa = f s).
  { pose proof (keeps_ensure_embeddings ext f) as K.
    specialize (K ltac:(reflexivity) ltac:(reflexivity) ltac:(reflexivity)
                  ltac:(reflexivity) Hload Hquiet false s).
    rewrite Ha in K. exact K. }
  assert (Eb : f sb = f sa).
  { pose proof (keeps_get_embedding_model ext f) as K.
    specialize (K ltac:(reflexivity) Hload sa).
    rewrite Hb in K. exact K. }
  assert (Ec : f sc = f sb ++ [text]).
  { inversion Hc; subst. unfold f. simpl. apply queries_app. }
  assert (Ed : f sw = f sc).
  { inversion Hd; subst.
    destruct (is_some (faiss ext) && negb (is_some (_vector_index sd))).
    - pose proof (keeps_build_vector_index ext f) as K.
      specialize (K ltac:(reflexivity) ltac:(reflexivity) ltac:(reflexivity)
                    ltac:(reflexivity) ltac:(reflexivity) Hload Hquiet
                    false sd).
      rewrite Hw in K. exact K.
    - inversion Hw; subst. reflexivity. }
  unfold f in *. congruence.
Qed.

End Search.

(** * The loop of [find_best_match] *)

Section Loop.

Variable ext : externals.

(** One turn of the loop that ends in a return, read backwards. *)
Lemma search_loop_inv thr text rest b s b' s' :
  search_loop ext thr (text :: rest) b s = (Ok b', s') ->
  exists results s1,
    _vector_search ext text 3 s = (Ok results, s1)
    /\ match results with
       | [] => search_loop ext thr rest b s1 = (Ok b', s')
       | (idx, score) :: _ =>
           is_Some (py_index (skin_names s1) idx)
           /\ if Qle_bool thr score
              then b' = tracked b idx score text /\ s' = s1
              else search_loop ext thr rest (tracked b idx score text) s1
                   = (Ok b', s')
       end.
Proof.
  simpl. intros H. apply bind_ok_inv in H as (results & s1 & Hs & H).
  exists results, s1. split; [exact Hs|].
  destruct results as [|[idx score] more]; [exact H|].
  unfold bind, gets in H. simpl in H.
  destruct (py_index (skin_names s1) idx) as [name|]; [|discriminate].
  split; [eexists; reflexivity|]. unfold tracked.
  destruct (Qle_bool thr score); [|exact H].
  inversion H; subst. split; reflexivity.
Qed.

Lemma search_names text k s o s1 :
  _vector_search ext text k s = (o, s1) -> skin_names s1 = skin_names s.
Proof.
  intros H.
  pose proof (keeps_vector_search ext skin_names) as K.
  specialize (K ltac:(reflexivity) ltac:(reflexivity) ltac:(reflexivity)
                ltac:(reflexivity) ltac:(reflexivity) ltac:(reflexivity)
                ltac:(reflexivity) ltac:(reflexivity) text k s).
  rewrite H in K. exact K.
Qed.

Lemma tracked_idx b idx score text i :
  best_idx (tracked b idx score text) = Some i ->
  i = idx \/ best_idx b = Some i.
Proof.
  unfold tracked. destruct (Qltb (best_score b) score); simpl.
  - intros [= ->]. left; reflexivity.
  - intros H. right; exact H.
Qed.

(** Every index the loop keeps has been used as a subscript of
    [skin_names] without raising. *)
Lemma search_loop_valid thr texts : forall b s b' s',
  search_loop ext thr texts b s = (Ok b', s') ->
  (forall i, best_idx b = Some i -> is_Some (py_index (skin_names s) i)) ->
  forall i, best_idx b' = Some i -> is_Some (py_index (skin_names s) i).
Proof.
  induction texts as [|text rest IH]; intros b s b' s' H Hb i Hi.
  - inversion H; subst. auto.
  - apply search_loop_inv in H as (results & s1 & Hs & H).
    pose proof (search_names _ _ _ _ _ Hs) as En.
    destruct results as [|[idx score] more].
    + rewrite <- En. eapply IH; eauto. rewrite En; exact Hb.
    + destruct H as [Hv H]. rewrite En in Hv.
      assert (Hb1 : forall j, best_idx (tracked b idx score text) = Some j ->
                          is_Some (py_index (skin_names s) j)).
      { intros j Hj. apply tracked_idx in Hj as [-> | Hj]; auto. }
      destruct (Qle_bool thr score).
      * destruct H as [-> ->]. auto.
      * rewrite <- En. eapply IH; eauto. rewrite En; exact Hb1.
Qed.

Lemma tracked_below thr b idx score text :
  (best_score b < thr)%Q -> Qle_bool thr score = false ->
  (best_score (tracked b idx score text) < thr)%Q.
Proof.
  intros Hb Hs. unfold tracked.
  destruct (Qltb (best_score b) score); simpl; [|exact Hb].
  apply Qnot_le_lt. intros Hle. apply Qle_bool_iff in Hle. congruence.
Qed.

Lemma tracked_clears thr b idx score text :
  (best_score b < thr)%Q -> Qle_bool thr score = true ->
  tracked b idx score text =
  {| best_idx := Some idx; best_score := score; used_query := Some text |}.
Proof.
  intros Hb Hs. unfold tracked.
  apply Qle_bool_iff in Hs.
  assert (Hlt : (best_score b < score)%Q) by (eapply Qlt_le_trans; eauto).
  apply Qltb_lt in Hlt. rewrite Hlt. reflexivity.
Qed.

(** While nothing tracked reaches the threshold, the loop returns the top
    candidate of the first text that does, or ends below the threshold. *)
Lemma search_loop_first_clearing thr s0 texts : forall b s b' s',
  (forall t, top1 ext s t = top1 ext s0 t) ->
  (best_score b < thr)%Q ->
  search_loop ext thr texts b s = (Ok b', s') ->
  match first_clearing ext s0 thr texts with
  | Some (idx, score, text) =>
      b' = {| best_idx := Some idx; best_score := score;
              used_query := Some text |}
  | None => (best_score b' < thr)%Q
  end.
Proof.
  induction texts as [|text rest IH]; intros b s b' s' Hst Hb H.
  - inversion H; subst. exact Hb.
  - apply search_loop_inv in H as (results & s1 & Hs & H).
    assert (Hst1 : forall t, top1 ext s1 t = top1 ext s0 t).
    { intros t. rewrite (top1_stable ext _ _ _ _ _ Hs). apply Hst. }
    simpl. rewrite <- Hst, (top1_run ext _ _ _ _ Hs).
    destruct results as [|[idx score] more]; simpl.
    + exact (IH _ _ _ _ Hst1 Hb H).
    + destruct H as [_ H].
      destruct (Qle_bool thr score) eqn:Hc.
      * destruct H as [-> _]. apply (tracked_clears thr); assumption.
      * exact (IH _ _ _ _ Hst1 (tracked_below thr _ idx _ text Hb Hc) H).
Qed.

Lemma first_clearing_some s0 thr texts idx score text :
  first_clearing ext s0 thr texts = Some (idx, score, text) ->
  top1 ext s0 text = Some (idx, score) /\ (thr <= score)%Q /\ text ∈ texts.
Proof.
  induction texts as [|t rest IH]; simpl; [discriminate|].
  destruct (top1 ext s0 t) as [[i sc]|] eqn:Ht.
  - destruct (Qle_bool thr sc) eqn:Hc.
    + intros [= -> -> ->]. apply Qle_bool_iff in Hc.
      repeat split; [exact Ht | exact Hc | left].
    + intros H. destruct (IH H) as (? & ? & ?).
      repeat split; [assumption.. | right; assumption].
  - intros H. destruct (IH H) as (? & ? & ?).
    repeat split; [assumption.. | right; assumption].
Qed.

(** The queries a returning loop encodes are [searched_texts]. *)
Lemma search_loop_queries thr s0 texts : forall b s b' s',
  is_nil (skin_names s) = false ->
  (forall t, top1 ext s t = top1 ext s0 t) ->
  search_loop ext thr texts b s = (Ok b', s') ->
  queries (events s') =
  queries (events s) ++ searched_texts ext s0 thr texts.
Proof.
  induction texts as [|text rest IH]; intros b s b' s' Hn Hst H.
  - inversion H; subst. simpl. rewrite app_nil_r. reflexivity.
  - apply search_loop_inv in H as (results & s1 & Hs & H).
    assert (Hst1 : forall t, top1 ext s1 t = top1 ext s0 t).
    { intros t. rewrite (top1_stable ext _ _ _ _ _ Hs). apply Hst. }
    assert (Hn1 : is_nil (skin_names s1) = false).
    { rewrite (search_names _ _ _ _ _ Hs). exact Hn. }
    pose proof (vector_search_queries ext _ _ _ _ _ Hn Hs) as Eq.
    simpl. rewrite <- Hst, (top1_run ext _ _ _ _ Hs).
    destruct results as [|[idx score] more]; simpl.
    + rewrite (IH _ _ _ _ Hn1 Hst1 H), Eq, <- app_assoc. reflexivity.
    + destruct H as [_ H].
      destruct (Qle_bool thr score).
      * destruct H as [_ ->]. exact Eq.
      * rewrite (IH _ _ _ _ Hn1 Hst1 H), Eq, <- app_assoc. reflexivity.
Qed.



(** Raising the threshold leaves a run that ended below it unchanged. *)
Lemma search_loop_raise thr1 thr2 texts : forall b s b' s',
  (thr1 <= thr2)%Q ->
  (best_score b < thr1)%Q ->
  search_loop ext thr1 texts b s = (Ok b', s') ->
  (best_score b' < thr1)%Q ->
  search_loop ext thr2 texts b s = (Ok b', s').
Proof.
  induction texts as [|text rest IH]; intros b s b' s' Hle Hb H Hb'.
  - exact H.
  - apply search_loop_inv in H as (results & s1 & Hs & H).
    simpl. unfold bind. rewrite Hs.
    destruct results as [|[idx score] more].
    + exact (IH _ _ _ _ Hle Hb H Hb').
    + destruct H as [[name Hv] H]. unfold gets. rewrite Hv.
      fold (tracked b idx score text).
      destruct (Qle_bool thr1 score) eqn:Hc.
      * destruct H as [-> _]. exfalso.
        rewrite (tracked_clears thr1) in Hb' by assumption. simpl in Hb'.
        apply Qle_bool_iff in Hc. exact (Qlt_not_le _ _ Hb' Hc).
      * assert (Hc2 : Qle_bool thr2 score = false).
        { destruct (Qle_bool thr2 score) eqn:E; [|reflexivity].
          apply Qle_bool_iff in E.
          assert (Hx : Qle_bool thr1 score = true).
          { apply Qle_bool_iff. eapply Qle_trans; eauto. }
          congruence. }
        rewrite Hc2.
        exact (IH _ _ _ _ Hle (tracked_below thr1 _ idx _ text Hb Hc) H Hb').
Qed.

End Loop.

(** * Alias loading *)

Section AliasFacts.

Variable repr_obj : list (string * json) -> string.

Lemma lookup_fold_insert (names : list string) :
  forall (m : gmap string string) k,
    fold_left (fun m name => <[name := name]> m) names m !! k =
    if decide (k ∈ names) then Some k else m !! k.
Proof.
  induction names as [|n names IH]; intros m k; cbn [fold_left].
  - case_decide as Hin; [|reflexivity].
    exfalso. exact (not_elem_of_nil _ Hin).
  - rewrite IH. rewrite (decide_ext (k ∈ n :: names) (k = n \/ k ∈ names))
      by apply elem_of_cons.
    destruct (decide (k ∈ names)) as [Hin|Hnin].
    + rewrite decide_True by (right; exact Hin). reflexivity.
    + destruct (decide (k = n)) as [->|Hne].
      * rewrite decide_True by (left; reflexivity). apply lookup_insert_eq.
      * rewrite decide_False by tauto.
        apply lookup_insert_ne. congruence.
Qed.

Lemma lookup_identity_map names k :
  identity_map names !! k = if decide (k ∈ names) then Some k else None.
Proof. unfold identity_map. rewrite lookup_fold_insert. reflexivity. Qed.

Lemma lookup_setdefault (m : gmap string string) name k :
  setdefault m name !! k =
  match m !! k with
  | Some v => Some v
  | None => if decide (k = name) then Some k else None
  end.
Proof.
  unfold setdefault. destruct (m !! name) as [v|] eqn:Hn.
  - destruct (m !! k) as [w|] eqn:Hk; [reflexivity|].
    destruct (decide (k = name)) as [->|]; [congruence | reflexivity].
  - destruct (decide (k = name)) as [->|Hne].
    + rewrite lookup_insert_eq, Hn. reflexivity.
    + rewrite lookup_insert_ne by congruence.
      destruct (m !! k); reflexivity.
Qed.

Lemma lookup_fold_setdefault (names : list string) :
  forall (m : gmap string string) k,
    fold_left setdefault names m !! k =
    match m !! k with
    | Some v => Some v
    | None => if decide (k ∈ names) then Some k else None
    end.
Proof.
  induction names as [|n names IH]; intros m k; cbn [fold_left].
  - destruct (m !! k); [reflexivity|].
    case_decide as Hin; [|reflexivity].
    exfalso. exact (not_elem_of_nil _ Hin).
  - rewrite IH, lookup_setdefault.
    destruct (m !! k) as [v|]; [reflexivity|].
    rewrite (decide_ext (k ∈ n :: names) (k = n \/ k ∈ names))
      by apply elem_of_cons.
    destruct (decide (k = n)) as [->|Hne].
    + rewrite decide_True by (left; reflexivity). reflexivity.
    + destruct (decide (k ∈ names)) as [Hin|Hnin].
      * rewrite decide_True by (right; exact Hin). reflexivity.
      * rewrite decide_False by tauto. reflexivity.
Qed.

Lemma lookup_load_alias_mapping f names k :
  _load_alias_mapping repr_obj f names !! k =
  match explicit_entries repr_obj f !! k with
  | Some v => Some v
  | None => if decide (k ∈ names) then Some k else None
  end.
Proof.
  unfold _load_alias_mapping.
  destruct (decide (explicit_entries repr_obj f = ∅)) as [E|E].
  - rewrite E, lookup_empty. apply lookup_identity_map.
  - apply lookup_fold_setdefault.
Qed.

(** The comprehension keeps, for every key, the rendering of the value the
    parsed object holds for it. *)
Lemma lookup_str_items_from ms : forall (m : gmap string string) k,
  fold_left (fun m kv => <[fst kv := py_str repr_obj (snd kv)]> m) ms m !! k =
  match dict_get ms k with
  | Some v => Some (py_str repr_obj v)
  | None => m !! k
  end.
Proof.
  induction ms as [|[k0 v0] ms IH]; intros m k; simpl; [reflexivity|].
  rewrite IH. destruct (dict_get ms k) as [v|]; [reflexivity|].
  destruct (decide (k0 = k)) as [->|Hne].
  - apply lookup_insert_eq.
  - apply lookup_insert_ne. exact Hne.
Qed.

Lemma lookup_str_items ms k :
  str_items repr_obj ms !! k = py_str repr_obj <$> dict_get ms k.
Proof.
  unfold str_items. rewrite lookup_str_items_from, lookup_empty.
  destruct (dict_get ms k); reflexivity.
Qed.

Lemma no_mapping_explicit f : no_mapping f -> explicit_entries repr_obj f = ∅.
Proof.
  destruct f as [| |[s|ms|r]]; simpl; intros H; try reflexivity.
  destruct H.
Qed.

End AliasFacts.

(** C6.  After [_load_alias_mapping] every catalog name is a key of the
    alias map.  An entry of the artifact is kept as it is, also for a
    catalog name (in the [alias_to_en] shape and in the flat shape alike); a
    catalog name the artifact does not mention maps to itself; with the
    artifact missing, unreadable or not an object, every catalog name maps to
    itself.  Resolving a name that is not a key gives the name back. *)
Theorem load_alias_mapping_total
    (repr_obj : list (string * json) -> string)
    (f : mapping_file) (names : list string) :
  let explicit := explicit_entries repr_obj f in
  let m := _load_alias_mapping repr_obj f names in
  (forall name, name ∈ names -> is_Some (m !! name))
  /\ (forall alias canonical,
        explicit !! alias = Some canonical -> m !! alias = Some canonical)
  /\ (forall ms inner alias canonical,
        f = MappingParsed (JObj ms) ->
        dict_get ms "alias_to_en" = Some (JObj inner) ->
        dict_get inner alias = Some (JStr canonical) ->
        m !! alias = Some canonical)
  /\ (forall ms alias canonical,
        f = MappingParsed (JObj ms) ->
        (forall inner, dict_get ms "alias_to_en" <> Some (JObj inner)) ->
        dict_get ms alias = Some (JStr canonical) ->
        m !! alias = Some canonical)
  /\ (forall name,
        name ∈ names -> explicit !! name = None -> m !! name = Some name)
  /\ (no_mapping f ->
        m = identity_map names
        /\ forall name, name ∈ names -> m !! name = Some name)
  /\ (forall x, m !! x = None -> resolve m x = x).
Proof.
  intros explicit m.
  assert (L : forall k, m !! k =
            match explicit !! k with
            | Some v => Some v
            | None => if decide (k ∈ names) then Some k else None
            end) by apply lookup_load_alias_mapping.
  assert (P : forall alias canonical,
            explicit !! alias = Some canonical -> m !! alias = Some canonical).
  { intros alias canonical H. rewrite L, H. reflexivity. }
  repeat split.
  - intros name Hin. rewrite L. destruct (explicit !! name); [eauto|].
    rewrite decide_True by exact Hin. eauto.
  - exact P.
  - intros ms inner alias canonical -> Hget Hin. apply P.
    unfold explicit. simpl. rewrite Hget, lookup_str_items, Hin. reflexivity.
  - intros ms alias canonical -> Hflat Hin. apply P.
    unfold explicit. simpl.
    destruct (dict_get ms "alias_to_en") as [[s|inner|r]|] eqn:Hget;
      try (rewrite lookup_str_items, Hin; reflexivity).
    exfalso. exact (Hflat inner eq_refl).
  - intros name Hin Hnone. rewrite L, Hnone.
    rewrite decide_True by exact Hin. reflexivity.
  - unfold m, _load_alias_mapping.
    rewrite (no_mapping_explicit repr_obj f H).
    rewrite decide_True by reflexivity. reflexivity.
  - intros name Hin. rewrite L. unfold explicit.
    rewrite (no_mapping_explicit repr_obj f H), lookup_empty.
    rewrite decide_True by exact Hin. reflexivity.
  - intros x Hx. unfold resolve. rewrite Hx. reflexivity.
Qed.

(** * Guards and frame *)

Lemma lstrip_all_space s : PyStr.all_space s = true -> PyStr.lstrip s = "".
Proof.
  induction s as [|c s IH]; simpl; [reflexivity|].
  intros H. apply andb_true_iff in H as [Hc Hs]. rewrite Hc. exact (IH Hs).
Qed.

Lemma strip_all_space s : PyStr.all_space s = true -> PyStr.strip s = "".
Proof. intros H. unfold PyStr.strip. rewrite lstrip_all_space; auto. Qed.

(** C5.  With an empty catalog (whatever the query) or with an empty or
    blank query (whatever the catalog), [find_best_match] returns [None]
    and leaves the whole state as it found it: no exception, and no event,
    so neither the model constructor nor [encode] has been called. *)
Theorem find_best_match_guards ext s q c :
  skin_names s = [] \/ PyStr.all_space q = true ->
  find_best_match ext q c s = (Ok None, s).
Proof.
  intros [Hn | Hq]; unfold find_best_match, bind, gets, ret.
  - rewrite Hn. reflexivity.
  - rewrite (strip_all_space q Hq).
    destruct (is_nil (skin_names s)); reflexivity.
Qed.

Lemma find_best_match_guards_witness :
  (skin_names Demo.empty = [] \/ PyStr.all_space "ak redline" = true)
  /\ find_best_match Demo.numpy_only "ak redline" 50 Demo.empty
     = (Ok None, Demo.empty).
Proof.
  split; [left; reflexivity|].
  apply (find_best_match_guards Demo.numpy_only Demo.empty "ak redline" 50).
  left; reflexivity.
Defined.

(** * The embedding cache *)




(** * [find_best_match] around its loop *)

Section Resolve.

Variable ext : externals.

Lemma search_loop_names thr texts b s o s' :
  search_loop ext thr texts b s = (o, s') -> skin_names s' = skin_names s.
Proof.
  intros H.
  pose proof (keeps_search_loop ext skin_names) as K.
  specialize (K ltac:(reflexivity) ltac:(reflexivity) ltac:(reflexivity)
                ltac:(reflexivity) ltac:(reflexivity) ltac:(reflexivity)
                ltac:(reflexivity) ltac:(reflexivity) thr texts b s).
  rewrite H in K. exact K.
Qed.

Lemma search_loop_aliases thr texts b s o s' :
  search_loop ext thr texts b s = (o, s') ->
  alias_to_canonical s' = alias_to_canonical s.
Proof.
  intros H.
  pose proof (keeps_search_loop ext alias_to_canonical) as K.
  specialize (K ltac:(reflexivity) ltac:(reflexivity) ltac:(reflexivity)
                ltac:(reflexivity) ltac:(reflexivity) ltac:(reflexivity)
                ltac:(reflexivity) ltac:(reflexivity) thr texts b s).
  rewrite H in K. exact K.
Qed.

(** What the lines after the loop make of the loop's result. *)
Lemma find_best_match_after_loop q c s b s' :
  is_nil (skin_names s) = false ->
  PyStr.is_empty (PyStr.strip q) = false ->
  search_loop ext (similarity_threshold c)
    (search_text_candidates (PyStr.strip q)) no_best s = (Ok b, s') ->
  find_best_match ext q c s =
  (match best_idx b with
   | None => Ok None
   | Some idx =>
       match py_index (skin_names s) idx with
       | None => Raise IndexError
       | Some name =>
           Ok (if Qltb (best_score b) (similarity_threshold c) then None
               else Some (resolve (alias_to_canonical s) name))
       end
   end, s').
Proof.
  intros Hn Hq Hl.
  pose proof (search_loop_names _ _ _ _ _ _ Hl) as En.
  pose proof (search_loop_aliases _ _ _ _ _ _ Hl) as Ea.
  unfold find_best_match, bind, gets. rewrite Hn, Hq, Hl.
  destruct (best_idx b) as [idx|]; [|reflexivity].
  rewrite En. destruct (py_index (skin_names s) idx) as [name|];
    [|reflexivity].
  destruct (Qltb (best_score b) (similarity_threshold c)); [reflexivity|].
  unfold ret. rewrite Ea. reflexivity.
Qed.

(** A call that returns went through one of the two guards or through the
    loop. *)
Lemma find_best_match_inv q c s r s' :
  find_best_match ext q c s = (Ok r, s') ->
  (r = None /\ s' = s
   /\ (is_nil (skin_names s) = true
       \/ PyStr.is_empty (PyStr.strip q) = true))
  \/ (is_nil (skin_names s) = false
      /\ PyStr.is_empty (PyStr.strip q) = false
      /\ exists b,
          search_loop ext (similarity_threshold c)
            (search_text_candidates (PyStr.strip q)) no_best s = (Ok b, s')
          /\ match best_idx b with
             | None => r = None
             | Some idx =>
                 exists name,
                   py_index (skin_names s) idx = Some name
                   /\ r = if Qltb (best_score b) (similarity_threshold c)
                          then None
                          else Some (resolve (alias_to_canonical s) name)
             end).
Proof.
  intros H.
  destruct (is_nil (skin_names s)) eqn:Hn.
  { left. unfold find_best_match, bind, gets, ret in H. rewrite Hn in H.
    inversion H; subst. auto. }
  destruct (PyStr.is_empty (PyStr.strip q)) eqn:Hq.
  { left. unfold find_best_match, bind, gets, ret in H. rewrite Hn, Hq in H.
    inversion H; subst. auto. }
  right. repeat split.
  destruct (search_loop ext (similarity_threshold c)
              (search_text_candidates (PyStr.strip q)) no_best s)
    as [[b|e] s1] eqn:Hl.
  - rewrite (find_best_match_after_loop _ _ _ _ _ Hn Hq Hl) in H.
    exists b. destruct (best_idx b) as [idx|].
    + destruct (py_index (skin_names s) idx) as [name|]; [|discriminate].
      inversion H; subst. split; [reflexivity|].
      exists name. split; reflexivity.
    + inversion H; subst. split; reflexivity.
  - unfold find_best_match, bind, gets in H. rewrite Hn, Hq, Hl in H.
    discriminate.
Qed.

Lemma py_index_lookup {A} (l : list A) i x :
  py_index l i = Some x ->
  exists n, (n < length l)%nat /\ l !! n = Some x.
Proof.
  unfold py_index. intros H.
  assert (E : forall n, nth_error l n = Some x ->
              exists n, (n < length l)%nat /\ l !! n = Some x).
  { intros n Hn. exists n. split.
    - apply nth_error_Some. congruence.
    - rewrite <- Hn. clear. revert n.
      induction l as [|a l IH]; intros [|n]; simpl; auto. }
  destruct ((0 <=? i) && (i <? Z.of_nat (length l))); [eauto|].
  destruct ((- Z.of_nat (length l) <=? i) && (i <? 0)); [eauto|discriminate].
Qed.

End Resolve.



Lemma threshold_mono c1 c2 :
  c1 <= c2 -> (similarity_threshold c1 <= similarity_threshold c2)%Q.
Proof.
  intros H. unfold similarity_threshold, Qle. simpl. lia.
Qed.

Lemma threshold_above_no_best c :
  0 <= c -> (best_score no_best < similarity_threshold c)%Q.
Proof.
  intros H. unfold similarity_threshold, Qlt. simpl. lia.
Qed.

(** C9.  For a manager whose alias map was loaded for its catalog, a string
    returned by [find_best_match] is the value the alias map holds for the
    catalog name at some position below the catalog's length. *)
Theorem find_best_match_in_catalog ext repr_obj f q c s r s' :
  alias_to_canonical s = _load_alias_mapping repr_obj f (skin_names s) ->
  find_best_match ext q c s = (Ok (Some r), s') ->
  exists i name,
    (i < length (skin_names s))%nat
    /\ skin_names s !! i = Some name
    /\ r = resolve (alias_to_canonical s) name
    /\ alias_to_canonical s !! name = Some r.
Proof.
  intros Hload H.
  apply find_best_match_inv in H
    as [(Hr & _) | (_ & _ & b & _ & Hb)]; [discriminate|].
  destruct (best_idx b) as [idx|]; [|discriminate].
  destruct Hb as (name & Hidx & Hr).
  destruct (Qltb (best_score b) (similarity_threshold c)); [discriminate|].
  injection Hr as ->.
  destruct (py_index_lookup _ _ _ Hidx) as (i & Hi & Hlook).
  exists i, name. repeat split; [exact Hi | exact Hlook |].
  assert (Hin : name ∈ skin_names s).
  { apply list_elem_of_lookup. eauto. }
  unfold resolve. rewrite Hload, lookup_load_alias_mapping.
  destruct (explicit_entries repr_obj f !! name); [reflexivity|].
  rewrite decide_True by exact Hin. reflexivity.
Qed.

Lemma find_best_match_in_catalog_witness :
  alias_to_canonical Demo.fresh
  = _load_alias_mapping Demo.repr_obj Demo.mapping (skin_names Demo.fresh)
  /\ exists i name,
      (i < length (skin_names Demo.fresh))%nat
      /\ skin_names Demo.fresh !! i = Some name
      /\ Demo.redline = resolve (alias_to_canonical Demo.fresh) name
      /\ alias_to_canonical Demo.fresh !! name = Some Demo.redline.
Proof.
  split; [reflexivity|].
  apply (find_best_match_in_catalog Demo.numpy_only Demo.repr_obj
           Demo.mapping "Hongxian" 50 Demo.fresh Demo.redline
           (snd (find_best_match Demo.numpy_only "Hongxian" 50 Demo.fresh))).
  - reflexivity.
  - vm_compute. reflexivity.
Defined.

(** C3.  For cutoffs [0 <= c1 <= c2]: when [find_best_match] returns
    [None] at [c1], it returns [None] at [c2] as well, from the same
    catalog, alias map and query (and ends in the same state). *)
Theorem find_best_match_monotone ext q c1 c2 s s' :
  0 <= c1 -> c1 <= c2 ->
  find_best_match ext q c1 s = (Ok None, s') ->
  find_best_match ext q c2 s = (Ok None, s').
Proof.
  intros H0 H12 H.
  apply find_best_match_inv in H
    as [(_ & -> & Hg) | (Hn & Hq & b & Hl & Hb)].
  { unfold find_best_match, bind, gets, ret.
    destruct Hg as [-> | Hq]; [reflexivity|].
    rewrite Hq. destruct (is_nil (skin_names s)); reflexivity. }
  pose proof (threshold_mono _ _ H12) as Hthr.
  assert (Hbelow : (best_score b < similarity_threshold c1)%Q).
  { destruct (best_idx b) as [idx|] eqn:Ei.
    - destruct Hb as (name & _ & Hr).
      destruct (Qltb (best_score b) (similarity_threshold c1)) eqn:E;
        [|discriminate].
      apply Qltb_lt. exact E.
    - pose proof (search_loop_first_clearing ext _ s _ _ _ _ _
                    (fun t => eq_refl) (threshold_above_no_best c1 H0) Hl)
        as Hfc.
      destruct (first_clearing ext s (similarity_threshold c1) _)
        as [[[i sc] t]|]; [|exact Hfc].
      subst b. discriminate. }
  pose proof (search_loop_raise ext _ _ _ _ _ _ _ Hthr
                (threshold_above_no_best c1 H0) Hl Hbelow) as Hl2.
  rewrite (find_best_match_after_loop ext _ _ _ _ _ Hn Hq Hl2).
  destruct (best_idx b) as [idx|]; [|reflexivity].
  destruct Hb as (name & -> & _).
  assert (Hlt : Qltb (best_score b) (similarity_threshold c2) = true).
  { apply Qltb_lt. eapply Qlt_le_trans; eauto. }
  rewrite Hlt. reflexivity.
Qed.

Lemma find_best_match_monotone_witness :
  0 <= 90 /\ 90 <= 100
  /\ fst (find_best_match Demo.with_faiss "M4" 90 Demo.fresh) = Ok None
  /\ fst (find_best_match Demo.with_faiss "M4" 100 Demo.fresh) = Ok None.
Proof.
  split; [lia|]. split; [lia|]. split; [vm_compute; reflexivity|].
  rewrite (find_best_match_monotone Demo.with_faiss "M4" 90 100 Demo.fresh
             (snd (find_best_match Demo.with_faiss "M4" 90 Demo.fresh))).
  - reflexivity.
  - lia.
  - lia.
  - vm_compute. reflexivity.
Defined.

(** * What a call leaves in place *)

Section Lazy.

Variable ext : externals.

Lemma kept_initialised_refl s : kept_initialised s s.
Proof. repeat split; auto. Qed.

Lemma kept_initialised_trans s1 s2 s3 :
  kept_initialised s1 s2 -> kept_initialised s2 s3 -> kept_initialised s1 s3.
Proof.
  intros (Hm & He & Hi) (Hm' & He' & Hi'). repeat split; auto.
Qed.

Lemma warm_up_kept text s o s' :
  is_nil (skin_names s) = false ->
  warm_up ext text s = (o, s') -> kept_initialised s s'.
Proof.
  destruct s as [names al mdl emb dim idx ch evs].
  unfold kept_initialised. unfold_methods. simpl. intros Hn. rewrite Hn.
  simpl.
  destruct emb as [E|], mdl, (model_available ext), (faiss ext) as [bld|],
    idx as [ix|]; by_cases; repeat split; intros; simplify_eq; done.
Qed.

Lemma vector_search_kept text k s o s' :
  _vector_search ext text k s = (o, s') -> kept_initialised s s'.
Proof.
  rewrite vector_search_split.
  destruct (is_nil (skin_names s)) eqn:Hn.
  - intros [= _ <-]. apply kept_initialised_refl.
  - unfold bind. destruct (warm_up ext text s) as [[[]|e] sw] eqn:Hw.
    + intros H.
      pose proof (lookup_state ext text k sw) as E. rewrite H in E.
      simpl in E. subst s'. exact (warm_up_kept _ _ _ _ Hn Hw).
    + intros [= _ <-]. exact (warm_up_kept _ _ _ _ Hn Hw).
Qed.

Lemma search_loop_kept_initialised thr texts : forall b s o s',
  search_loop ext thr texts b s = (o, s') -> kept_initialised s s'.
Proof.
  induction texts as [|text rest IH]; intros b s o s'; simpl.
  - intros [= _ <-]. apply kept_initialised_refl.
  - unfold bind.
    destruct (_vector_search ext text 3 s) as [[results|e] s1] eqn:Hs;
      pose proof (vector_search_kept _ _ _ _ _ Hs) as K1.
    + destruct results as [|[idx score] more].
      * intros H. exact (kept_initialised_trans _ _ _ K1 (IH _ _ _ _ H)).
      * unfold gets.
        destruct (py_index (skin_names s1) idx); [|intros [= _ <-]; exact K1].
        destruct (Qle_bool thr score); [intros [= _ <-]; exact K1|].
        intros H. exact (kept_initialised_trans _ _ _ K1 (IH _ _ _ _ H)).
    + intros [= _ <-]. exact K1.
Qed.

Lemma find_best_match_kept q c s :
  kept_initialised s (snd (find_best_match ext q c s)).
Proof.
  unfold find_best_match, bind, gets, ret, raise.
  destruct (is_nil (skin_names s)); [apply kept_initialised_refl|].
  destruct (PyStr.is_empty (PyStr.strip q)); [apply kept_initialised_refl|].
  destruct (search_loop ext _ _ no_best s) as [[b|e] s1] eqn:Hl;
    pose proof (search_loop_kept_initialised _ _ _ _ _ _ Hl) as K;
    [|exact K].
  destruct (best_idx b) as [idx|]; [|exact K].
  destruct (py_index (skin_names s1) idx); [|exact K].
  destruct (Qltb (best_score b) (similarity_threshold c)); exact K.
Qed.

End Lazy.

(** C10.  Whatever the query and the cutoff, and whether the call returns
    or raises, [skin_names] and [alias_to_canonical] are after the call what
    they were before it.  Of the rest of the manager the call only fills in
    what was missing: a loaded model stays loaded, a matrix in memory and an
    index that was built stay the ones they were. *)
Theorem find_best_match_frame ext q c s :
  skin_names (snd (find_best_match ext q c s)) = skin_names s
  /\ alias_to_canonical (snd (find_best_match ext q c s))
     = alias_to_canonical s
  /\ kept_initialised s (snd (find_best_match ext q c s)).
Proof.
  split; [|split].
  - apply (keeps_find_best_match ext skin_names); reflexivity.
  - apply (keeps_find_best_match ext alias_to_canonical); reflexivity.
  - apply find_best_match_kept.
Qed.

(** * Query variants *)

Lemma lower_is_empty s : PyStr.is_empty (PyStr.lower s) = PyStr.is_empty s.
Proof. destruct s; reflexivity. Qed.

Lemma search_text_candidates_spec nq :
  PyStr.is_empty nq = false ->
  search_text_candidates nq =
  if decide (nq = PyStr.lower nq) then [PyStr.lower nq]
  else [PyStr.lower nq; nq].
Proof.
  intros H. unfold search_text_candidates. rewrite lower_is_empty, H.
  rewrite (decide_ext (nq ∈ [PyStr.lower nq]) (nq = PyStr.lower nq))
    by apply list_elem_of_singleton.
  destruct (decide (nq = PyStr.lower nq)); reflexivity.
Qed.

Section Variants.

Variable ext : externals.

(** The loop over the two variants when the first does not reach the
    threshold. *)
Lemma search_loop_two thr low nq s i1 s1 i2 s2 b s' :
  top1 ext s low = Some (i1, s1) ->
  top1 ext s nq = Some (i2, s2) ->
  (-1 < s1)%Q -> (s1 < thr)%Q ->
  search_loop ext thr [low; nq] no_best s = (Ok b, s') ->
  b = tracked {| best_idx := Some i1; best_score := s1;
                 used_query := Some low |} i2 s2 nq.
Proof.
  intros H1 H2 Hpos Hlt H.
  apply search_loop_inv in H as (r1 & sa & Hsa & H).
  rewrite (top1_run ext _ _ _ _ Hsa) in H1.
  destruct r1 as [|[j1 t1] more1]; [discriminate|].
  injection H1 as -> ->. destruct H as [_ H].
  assert (Hc : Qle_bool thr s1 = false).
  { destruct (Qle_bool thr s1) eqn:E; [|reflexivity].
    apply Qle_bool_iff in E. exfalso. exact (Qlt_not_le _ _ Hlt E). }
  rewrite Hc in H.
  assert (Ht : tracked no_best i1 s1 low =
               {| best_idx := Some i1; best_score := s1;
                  used_query := Some low |}).
  { unfold tracked. simpl.
    apply Qltb_lt in Hpos. rewrite Hpos. reflexivity. }
  rewrite Ht in H.
  apply search_loop_inv in H as (r2 & sb & Hsb & H).
  rewrite <- (top1_stable ext _ _ _ _ _ Hsa) in H2.
  rewrite (top1_run ext _ _ _ _ Hsb) in H2.
  destruct r2 as [|[j2 t2] more2]; [discriminate|].
  injection H2 as -> ->. destruct H as [_ H].
  destruct (Qle_bool thr s2).
  - destruct H as [-> _]. reflexivity.
  - inversion H; subst. reflexivity.
Qed.

End Variants.

(** C2.  For a query that is not blank:
    - the variants are the lowercase form of the stripped query, then the
      stripped query itself when it differs from its lowercase form;
    - a call that returns has encoded exactly the variants [searched_texts]
      lists, in that order;
    - that list is the lowercase variant alone as soon as its top score
      reaches [score_cutoff / 100], whatever the other variant would score;
      otherwise it has both variants, when there are two;
    - when both are searched, the second candidate replaces the first only
      with a strictly greater score: on equal scores the first stays. *)
Theorem find_best_match_variants ext s q c :
  PyStr.is_empty (PyStr.strip q) = false ->
  search_text_candidates (PyStr.strip q)
  = (if decide (PyStr.strip q = PyStr.lower (PyStr.strip q))
     then [PyStr.lower (PyStr.strip q)]
     else [PyStr.lower (PyStr.strip q); PyStr.strip q])
  /\ (forall r s',
        is_nil (skin_names s) = false ->
        find_best_match ext q c s = (Ok r, s') ->
        queries (events s') =
        queries (events s)
        ++ searched_texts ext s (inject_Z c / 100)%Q
             (search_text_candidates (PyStr.strip q)))
  /\ (forall idx score,
        top1 ext s (PyStr.lower (PyStr.strip q)) = Some (idx, score) ->
        (inject_Z c / 100 <= score)%Q ->
        searched_texts ext s (inject_Z c / 100)%Q
          (search_text_candidates (PyStr.strip q))
        = [PyStr.lower (PyStr.strip q)])
  /\ (PyStr.strip q <> PyStr.lower (PyStr.strip q) ->
      (top1 ext s (PyStr.lower (PyStr.strip q)) = None
       \/ exists idx score,
           top1 ext s (PyStr.lower (PyStr.strip q)) = Some (idx, score)
           /\ (score < inject_Z c / 100)%Q) ->
      searched_texts ext s (inject_Z c / 100)%Q
        (search_text_candidates (PyStr.strip q))
      = [PyStr.lower (PyStr.strip q); PyStr.strip q])
  /\ (forall i1 s1 i2 s2 b s',
        PyStr.strip q <> PyStr.lower (PyStr.strip q) ->
        top1 ext s (PyStr.lower (PyStr.strip q)) = Some (i1, s1) ->
        top1 ext s (PyStr.strip q) = Some (i2, s2) ->
        (-1 < s1)%Q -> (s1 < inject_Z c / 100)%Q ->
        search_loop ext (inject_Z c / 100)%Q
          (search_text_candidates (PyStr.strip q)) no_best s = (Ok b, s') ->
        ((s2 <= s1)%Q ->
         b = {| best_idx := Some i1; best_score := s1;
                used_query := Some (PyStr.lower (PyStr.strip q)) |})
        /\ ((s1 < s2)%Q ->
            b = {| best_idx := Some i2; best_score := s2;
                   used_query := Some (PyStr.strip q) |})).
Proof.
  change (inject_Z c / 100)%Q with (similarity_threshold c).
  intros Hq.
  pose proof (search_text_candidates_spec _ Hq) as Hc.
  split; [exact Hc|]. split; [|split; [|split]].
  - intros r s' Hn H.
    apply find_best_match_inv in H
      as [(_ & _ & [Hg | Hg]) | (_ & _ & b & Hl & _)]; [congruence.. |].
    exact (search_loop_queries ext _ s _ _ _ _ _ Hn (fun t => eq_refl) Hl).
  - intros idx score Ht Hs. rewrite Hc.
    apply Qle_bool_iff in Hs.
    destruct (decide _); simpl; rewrite Ht, Hs; reflexivity.
  - intros Hne Hlow. rewrite Hc, decide_False by exact Hne. simpl.
    destruct Hlow as [-> | (idx & score & -> & Hlt)].
    + destruct (top1 ext s (PyStr.strip q)) as [[i2 s2]|];
        [destruct (Qle_bool _ s2)|]; reflexivity.
    + assert (E : Qle_bool (similarity_threshold c) score = false).
      { destruct (Qle_bool _ score) eqn:E; [|reflexivity].
        apply Qle_bool_iff in E. exfalso. exact (Qlt_not_le _ _ Hlt E). }
      rewrite E.
      destruct (top1 ext s (PyStr.strip q)) as [[i2 s2]|];
        [destruct (Qle_bool _ s2)|]; reflexivity.
  - intros i1 s1 i2 s2 b s' Hne H1 H2 Hpos Hlt Hl.
    rewrite Hc, decide_False in Hl by exact Hne.
    rewrite (search_loop_two ext _ _ _ _ _ _ _ _ _ _ H1 H2 Hpos Hlt Hl).
    unfold tracked. simpl. split.
    + intros Hle. apply Qltb_ge in Hle. rewrite Hle. reflexivity.
    + intros Hgt. apply Qltb_lt in Hgt. rewrite Hgt. reflexivity.
Qed.

Lemma find_best_match_variants_witness :
  PyStr.is_empty (PyStr.strip " M4 ") = false
  /\ search_text_candidates (PyStr.strip " M4 ") = ["m4"; "M4"]
  /\ top1 Demo.with_faiss Demo.fresh "m4" = Some (1, (20 # 25)%Q)
  /\ queries (events (snd (find_best_match Demo.with_faiss " M4 " 80
                             Demo.fresh)))
     = ["m4"]
  /\ queries (events (snd (find_best_match Demo.with_faiss " M4 " 90
                             Demo.fresh)))
     = ["m4"; "M4"].
Proof.
  split; [reflexivity|].
  assert (Ht : top1 Demo.with_faiss Demo.fresh "m4" = Some (1, (20 # 25)%Q))
    by (vm_compute; reflexivity).
  destruct (find_best_match_variants Demo.with_faiss Demo.fresh " M4 " 80
              eq_refl) as (Hc & Hq80 & Hexit & _).
  destruct (find_best_match_variants Demo.with_faiss Demo.fresh " M4 " 90
              eq_refl) as (_ & Hq90 & _ & Hboth & _).
  split; [rewrite Hc; reflexivity|]. split; [exact Ht|]. split.
  - rewrite (Hq80 (Some Demo.asiimov)
               (snd (find_best_match Demo.with_faiss " M4 " 80 Demo.fresh)));
      [|reflexivity|vm_compute; reflexivity].
    rewrite (Hexit 1 (20 # 25)%Q); [reflexivity|exact Ht|].
    vm_compute. discriminate.
  - rewrite (Hq90 None
               (snd (find_best_match Demo.with_faiss " M4 " 90 Demo.fresh)));
      [|reflexivity|vm_compute; reflexivity].
    rewrite Hboth; [reflexivity|vm_compute; discriminate|].
    right. exists 1, (20 # 25)%Q. split; [exact Ht|].
    vm_compute. reflexivity.
Defined.

(** * What a call returns, and when it returns *)

Section Spec.

Variable ext : externals.

Lemma Qle_bool_Qeq a b x : (a == b)%Q -> Qle_bool a x = Qle_bool b x.
Proof.
  intros E.
  destruct (Qle_bool a x) eqn:Ha, (Qle_bool b x) eqn:Hb; try reflexivity.
  - apply Qle_bool_iff in Ha. rewrite E in Ha.
    apply Qle_bool_iff in Ha. congruence.
  - apply Qle_bool_iff in Hb. rewrite <- E in Hb.
    apply Qle_bool_iff in Hb. congruence.
Qed.

Lemma first_clearing_Qeq s a b texts :
  (a == b)%Q -> first_clearing ext s a texts = first_clearing ext s b texts.
Proof.
  intros E. induction texts as [|t rest IH]; simpl; [reflexivity|].
  destruct (top1 ext s t) as [[idx score]|]; [|exact IH].
  rewrite (Qle_bool_Qeq _ _ _ E), IH. reflexivity.
Qed.

(** A call that returns gives the alias resolution of the top candidate of
    the first variant that reaches the threshold, and [None] when no
    variant does. *)
Lemma find_best_match_spec q c s r s' :
  0 <= c ->
  is_nil (skin_names s) = false ->
  PyStr.is_empty (PyStr.strip q) = false ->
  find_best_match ext q c s = (Ok r, s') ->
  match first_clearing ext s (similarity_threshold c)
          (search_text_candidates (PyStr.strip q)) with
  | Some (idx, score, text) =>
      exists X,
        py_index (skin_names s) idx = Some X
        /\ r = Some (resolve (alias_to_canonical s) X)
  | None => r = None
  end.
Proof.
  intros Hc Hn Hq H.
  apply find_best_match_inv in H
    as [(_ & _ & [Hg | Hg]) | (_ & _ & b & Hl & Hb)]; [congruence.. |].
  pose proof (search_loop_first_clearing ext _ s _ _ _ _ _
                (fun t => eq_refl) (threshold_above_no_best c Hc) Hl) as Hfc.
  destruct (first_clearing ext s (similarity_threshold c) _)
    as [[[idx score] text]|] eqn:Efc.
  - apply first_clearing_some in Efc as (_ & Hge & _).
    subst b. simpl in Hb. destruct Hb as (X & HX & Hr).
    exists X. split; [exact HX|].
    apply Qltb_ge in Hge. rewrite Hge in Hr. exact Hr.
  - destruct (best_idx b) as [idx|]; [|exact Hb].
    destruct Hb as (X & _ & Hr).
    apply Qltb_lt in Hfc. rewrite Hfc in Hr. exact Hr.
Qed.

(** The loop returns when each search it may run returns. *)
Lemma search_loop_returns thr s0 texts : forall b s,
  (forall t, fst (_vector_search ext t 3 s) = fst (_vector_search ext t 3 s0)) ->
  skin_names s = skin_names s0 ->
  (forall t, t ∈ texts -> search_returns ext s0 t) ->
  exists b' s', search_loop ext thr texts b s = (Ok b', s').
Proof.
  induction texts as [|text rest IH]; intros b s Hst En Hall.
  - exists b, s. reflexivity.
  - destruct (Hall text ltac:(left)) as (results & Hres & Hvalid).
    rewrite <- Hst in Hres.
    destruct (_vector_search ext text 3 s) as [o s1] eqn:Hs.
    simpl in Hres. subst o.
    assert (Hst1 : forall t, fst (_vector_search ext t 3 s1)
                             = fst (_vector_search ext t 3 s0)).
    { intros t. rewrite (vector_search_stable ext _ t _ _ _ _ Hs). apply Hst. }
    assert (En1 : skin_names s1 = skin_names s0).
    { rewrite (search_names ext _ _ _ _ _ Hs). exact En. }
    assert (Hrest : forall t, t ∈ rest -> search_returns ext s0 t).
    { intros t Ht. apply Hall. right. exact Ht. }
    simpl. unfold bind. rewrite Hs.
    destruct results as [|[idx score] more]; [exact (IH b s1 Hst1 En1 Hrest)|].
    unfold gets. rewrite En1.
    destruct (Hvalid idx score eq_refl) as [name ->].
    destruct (Qle_bool thr score); [eexists _, _; reflexivity|].
    exact (IH _ s1 Hst1 En1 Hrest).
Qed.

Lemma find_best_match_returns q c s :
  (forall t, t ∈ search_text_candidates (PyStr.strip q) ->
             search_returns ext s t) ->
  exists r s', find_best_match ext q c s = (Ok r, s').
Proof.
  intros Hall.
  destruct (is_nil (skin_names s)) eqn:Hn.
  { exists None, s. unfold find_best_match, bind, gets. rewrite Hn.
    reflexivity. }
  destruct (PyStr.is_empty (PyStr.strip q)) eqn:Hq.
  { exists None, s. unfold find_best_match, bind, gets. rewrite Hn, Hq.
    reflexivity. }
  destruct (search_loop_returns (similarity_threshold c) s _ no_best s
              (fun t => eq_refl) eq_refl Hall) as (b & s' & Hl).
  rewrite (find_best_match_after_loop ext _ _ _ _ _ Hn Hq Hl).
  destruct (best_idx b) as [idx|] eqn:Hb; [|eauto].
  destruct (search_loop_valid ext _ _ _ _ _ _ Hl
              ltac:(simpl; discriminate) idx Hb) as [X ->].
  eauto.
Qed.

End Spec.

(** C4, as the code has it.  On a catalog that is not empty, with a query
    that is not blank and [score_cutoff = 0]:
    - a call that returns gives the alias resolution of the top candidate of
      the first variant (lowercase first) whose top score is at least 0,
      and [None] when no variant has such a candidate;
    - the call does return when each variant's search returns with a valid
      top index. *)
Theorem find_best_match_cutoff_zero ext q s :
  is_nil (skin_names s) = false ->
  PyStr.is_empty (PyStr.strip q) = false ->
  (forall r s',
     find_best_match ext q 0 s = (Ok r, s') ->
     match first_clearing ext s 0%Q
             (search_text_candidates (PyStr.strip q)) with
     | Some (idx, score, text) =>
         (0 <= score)%Q
         /\ top1 ext s text = Some (idx, score)
         /\ exists X,
             py_index (skin_names s) idx = Some X
             /\ r = Some (resolve (alias_to_canonical s) X)
     | None => r = None
     end)
  /\ ((forall t, t ∈ search_text_candidates (PyStr.strip q) ->
                 search_returns ext s t) ->
      exists r s', find_best_match ext q 0 s = (Ok r, s')).
Proof.
  intros Hn Hq. split; [|apply find_best_match_returns].
  intros r s' H.
  pose proof (find_best_match_spec ext q 0 s r s' ltac:(lia) Hn Hq H) as Hs.
  rewrite (first_clearing_Qeq ext s (similarity_threshold 0) 0%Q) in Hs
    by reflexivity.
  destruct (first_clearing ext s 0%Q _) as [[[idx score] text]|] eqn:Efc;
    [|exact Hs].
  apply first_clearing_some in Efc as (Ht & Hge & _).
  repeat split; assumption.
Qed.

Lemma find_best_match_cutoff_zero_witness :
  is_nil (skin_names Demo.fresh) = false
  /\ PyStr.is_empty (PyStr.strip "AWP") = false
  /\ (forall r s',
        find_best_match Demo.numpy_only "AWP" 0 Demo.fresh = (Ok r, s') ->
        r = Some Demo.redline)
  /\ exists r s',
       find_best_match Demo.numpy_only "AWP" 0 Demo.fresh = (Ok r, s').
Proof.
  split; [reflexivity|]. split; [reflexivity|].
  destruct (find_best_match_cutoff_zero Demo.numpy_only "AWP" Demo.fresh
              eq_refl eq_refl) as [Hspec Hret].
  split.
  - intros r s' H. apply Hspec in H.
    assert (E : first_clearing Demo.numpy_only Demo.fresh 0%Q
                  (search_text_candidates (PyStr.strip "AWP"))
                = Some (0, 20 # 25, "awp")) by (vm_compute; reflexivity).
    rewrite E in H. destruct H as (_ & _ & X & HX & ->).
    vm_compute in HX. injection HX as <-. vm_compute. reflexivity.
  - apply Hret. intros t Ht.
    assert (Hc : search_text_candidates (PyStr.strip "AWP") = ["awp"; "AWP"])
      by reflexivity.
    rewrite Hc in Ht.
    apply elem_of_cons in Ht as [-> | Ht];
      [|apply list_elem_of_singleton in Ht as ->].
    + eexists. split; [vm_compute; reflexivity|].
      intros idx score [= <- <-]. vm_compute. eauto.
    + eexists. split; [vm_compute; reflexivity|].
      intros idx score [= <- <-]. vm_compute. eauto.
Defined.

(** C4 as stated fails.  On the three-row catalog, cutoff 0:
    - the query [xyz123] has only negative similarities, and the call
      returns [None];
    - for the query [AWP] the lowercase variant's top candidate (row 0,
      score 4/5) is returned although the original variant's top candidate
      (row 1) scores 1. *)
Lemma cutoff_zero_is_not_always_a_match :
  is_nil (skin_names Demo.fresh) = false
  /\ PyStr.is_empty (PyStr.strip "xyz123") = false
  /\ fst (find_best_match Demo.numpy_only "xyz123" 0 Demo.fresh) = Ok None
  /\ PyStr.is_empty (PyStr.strip "AWP") = false
  /\ top1 Demo.numpy_only Demo.fresh "awp" = Some (0, 20 # 25)
  /\ top1 Demo.numpy_only Demo.fresh "AWP" = Some (1, 1%Q)
  /\ fst (find_best_match Demo.numpy_only "AWP" 0 Demo.fresh)
     = Ok (Some Demo.redline)
  /\ py_index (skin_names Demo.fresh) 1 = Some Demo.asiimov
  /\ resolve (alias_to_canonical Demo.fresh) Demo.asiimov <> Demo.redline.
Proof.
  repeat split; try (vm_compute; reflexivity).
  vm_compute. discriminate.
Qed.



(** * The two search paths *)

Lemma nth_error_is_lookup {A} (l : list A) i : nth_error l i = l !! i.
Proof.
  revert i. induction l as [|a l IH]; intros [|i]; simpl; auto.
Qed.

Lemma pair_scores_total sims idxs s :
  (forall i, i ∈ idxs -> (i < length sims)%nat) ->
  pair_scores sims idxs s
  = (Ok (map (fun i => (Z.of_nat i, default 0%Q (sims !! i))) idxs), s).
Proof.
  induction idxs as [|i idxs IH]; intros Hall; simpl; [reflexivity|].
  rewrite nth_error_is_lookup.
  destruct (lookup_lt_is_Some_2 sims i) as [x Hx].
  { apply Hall. left. }
  rewrite Hx. unfold bind. rewrite IH.
  - reflexivity.
  - intros j Hj. apply Hall. right. exact Hj.
Qed.

Section Paths.

Variable ext : externals.

Lemma argsort_in_range xs order a :
  argsort_of xs order -> a ∈ order -> (a < length xs)%nat.
Proof.
  intros [Hp _] Hin. rewrite Hp in Hin. apply elem_of_seq in Hin. lia.
Qed.

(** The NumPy path under the sorting contract: the pairs for the first
    [k] positions of the order. *)
Lemma numpy_path text k E s :
  ncols E = encode_dim ext ->
  _vector_index s = None ->
  _embeddings s = Some E ->
  let sims := map (fun row => dot row (encode_text ext true text))
                  (mrows E) in
  argsort_of sims (argsort_desc ext sims) ->
  lookup ext text k s
  = (Ok (map (fun i => (Z.of_nat i, default 0%Q (sims !! i)))
             (firstn k (argsort_desc ext sims))), s).
Proof.
  intros Hcols Hidx Hemb sims Hsort.
  unfold lookup, bind, gets, np_dot, ret. rewrite Hidx, Hemb, Hcols.
  rewrite Nat.eqb_refl. fold sims. apply pair_scores_total.
  intros i Hi. apply (argsort_in_range _ _ _ Hsort).
  apply list_elem_of_lookup in Hi as (n & Hn).
  apply lookup_take_Some in Hn as [Hn _].
  apply list_elem_of_lookup. eauto.
Qed.

Lemma numpy_path_descending sims order k :
  argsort_of sims order ->
  descending (map (fun i => (Z.of_nat i, default 0%Q (sims !! i)))
                  (firstn k order)).
Proof.
  intros Hsort i j p p' Hij Hi Hj.
  rewrite list_lookup_fmap in Hi, Hj.
  destruct (firstn k order !! i) as [a|] eqn:Ea; [|discriminate].
  destruct (firstn k order !! j) as [b|] eqn:Eb; [|discriminate].
  injection Hi as <-. injection Hj as <-. simpl.
  apply lookup_take_Some in Ea as [Ea _].
  apply lookup_take_Some in Eb as [Eb _].
  destruct (lookup_lt_is_Some_2 sims a) as [x Hx].
  { apply (argsort_in_range _ _ _ Hsort), list_elem_of_lookup. eauto. }
  destruct (lookup_lt_is_Some_2 sims b) as [y Hy].
  { apply (argsort_in_range _ _ _ Hsort), list_elem_of_lookup. eauto. }
  rewrite Hx, Hy. simpl.
  exact (proj2 Hsort i j a b x y Hij Ea Eb Hx Hy).
Qed.

(** C8, as the contracts of the two libraries give it.  On the same matrix
    and the same query, when the index returns what an exact inner-product
    search may return and [np.argsort] sorts, both paths return, each gives
    at most [k] pairs with scores best first, and their first pairs hold
    the same score, the best inner product of any row.  The two first
    indices are rows with that score; they are the same row whenever only
    one row has it. *)
Theorem search_paths_agree text k E index s_f s_n found_f :
  let q := encode_text ext true text in
  let sims := map (fun row => dot row q) (mrows E) in
  ncols E = encode_dim ext ->
  _vector_index s_f = Some index ->
  index_search index q k = Some found_f ->
  exact_search E q k found_f ->
  _vector_index s_n = None ->
  _embeddings s_n = Some E ->
  argsort_of sims (argsort_desc ext sims) ->
  lookup ext text k s_f = (Ok found_f, s_f)
  /\ exists found_n,
      lookup ext text k s_n = (Ok found_n, s_n)
      /\ (length found_f <= k)%nat /\ (length found_n <= k)%nat
      /\ descending found_f /\ descending found_n
      /\ exists i_f x_f i_n x_n row_f row_n,
          head found_f = Some (Z.of_nat i_f, x_f)
          /\ head found_n = Some (Z.of_nat i_n, x_n)
          /\ (x_f == x_n)%Q
          /\ mrows E !! i_f = Some row_f /\ (dot row_f q == x_f)%Q
          /\ mrows E !! i_n = Some row_n /\ dot row_n q = x_n
          /\ (forall row, row ∈ mrows E -> (dot row q <= x_n)%Q)
          /\ ((forall j row,
                 mrows E !! j = Some row -> (dot row q == x_n)%Q ->
                 j = i_n) ->
              i_f = i_n).
Proof.
  intros q sims Hcols Hidx Hsearch Hexact Hnone Hemb Hsort.
  split.
  { unfold lookup, bind, gets, ret. rewrite Hidx. fold q.
    rewrite Hsearch. reflexivity. }
  eexists. split; [exact (numpy_path text k E s_n Hcols Hnone Hemb Hsort)|].
  fold q. fold sims.
  destruct Hexact as (Hlen & Hdesc & i_f & row_f & x_f & rest & -> & Hrow
                      & Hscore & Hmax).
  split; [exact Hlen|].
  split; [rewrite length_map, length_take; lia|].
  split; [exact Hdesc|].
  split; [apply numpy_path_descending; exact Hsort|].
  destruct k as [|k]; [simpl in Hlen; lia|].
  assert (Hn : (i_f < length sims)%nat).
  { unfold sims. rewrite length_map. apply lookup_lt_is_Some. eauto. }
  destruct (argsort_desc ext sims) as [|a order] eqn:Eo.
  { destruct Hsort as [Hp _]. apply Permutation_length in Hp.
    rewrite length_seq in Hp. simpl in Hp. lia. }
  assert (Ha : (a < length sims)%nat).
  { apply (argsort_in_range _ _ _ Hsort). left. }
  destruct (lookup_lt_is_Some_2 sims a Ha) as [x_n Hx].
  assert (Hra : exists row_n, mrows E !! a = Some row_n /\ dot row_n q = x_n).
  { unfold sims in Hx. rewrite list_lookup_fmap in Hx.
    destruct (mrows E !! a) as [row_n|]; [|discriminate].
    injection Hx as Hx. eauto. }
  destruct Hra as (row_n & Hrow_n & Hdot_n).
  assert (Htop : forall b row, mrows E !! b = Some row ->
                   (dot row q <= x_n)%Q).
  { intros b row Hb.
    assert (Hbs : sims !! b = Some (dot row q)).
    { unfold sims. rewrite list_lookup_fmap, Hb. reflexivity. }
    assert (Hin : b ∈ a :: order).
    { rewrite (proj1 Hsort). apply elem_of_seq.
      apply lookup_lt_Some in Hbs. lia. }
    apply list_elem_of_lookup in Hin as (j & Hj).
    exact (proj2 Hsort 0%nat j a b x_n (dot row q) ltac:(lia) eq_refl Hj
             Hx Hbs). }
  assert (Heq : (x_f == x_n)%Q).
  { apply Qle_antisym.
    - rewrite Hscore. exact (Htop _ _ Hrow).
    - rewrite <- Hdot_n. apply Hmax.
      apply list_elem_of_lookup. eauto. }
  exists i_f, x_f, a, x_n, row_f, row_n. simpl. rewrite Hx. simpl.
  repeat split; try assumption; try reflexivity.
  - symmetry. exact Hscore.
  - intros row Hin. apply list_elem_of_lookup in Hin as (b & Hb).
    exact (Htop _ _ Hb).
  - intros Huniq. apply (Huniq i_f row_f Hrow).
    rewrite <- Hscore. exact Heq.
Qed.

End Paths.

(** Checks a contract on a list written out. *)
Ltac on_listed_pairs :=
  intros [|[|[|[|?]]]] [|[|[|[|?]]]]; intros; simpl in *; simplify_eq;
  first [lia | vm_compute; discriminate].

Lemma demo_exact_search_awp :
  exact_search (encode Demo.numpy_only true Demo.catalog)
    (Demo.encoder true "awp") 3
    [(0, (20 # 25)%Q); (1, (15 # 25)%Q); (2, (0 # 625)%Q)].
Proof.
  split; [simpl; lia|]. split; [unfold descending; on_listed_pairs|].
  exists 0%nat, [1; 0]%Q, (20 # 25)%Q, [(1, (15 # 25)%Q); (2, (0 # 625)%Q)].
  split; [reflexivity|]. split; [reflexivity|].
  split; [vm_compute; reflexivity|].
  intros row Hin. simpl in Hin.
  repeat (apply elem_of_cons in Hin as [-> | Hin];
          [vm_compute; discriminate|]).
  inversion Hin.
Qed.

Lemma demo_argsort_awp :
  argsort_of [20 # 25; 15 # 25; 0 # 625]%Q
    (Demo.argsort [20 # 25; 15 # 25; 0 # 625]%Q).
Proof.
  split; [vm_compute; reflexivity|].
  change (Demo.argsort [20 # 25; 15 # 25; 0 # 625]%Q) with [0; 1; 2]%nat.
  intros [|[|[|[|?]]]] [|[|[|[|?]]]]; intros; simpl in *; simplify_eq;
    simpl in *; simplify_eq; first [lia | vm_compute; discriminate].
Qed.

Lemma search_paths_agree_witness :
  let E := encode Demo.numpy_only true Demo.catalog in
  let found_f := [(0, (20 # 25)%Q); (1, (15 # 25)%Q); (2, (0 # 625)%Q)] in
  exact_search E (Demo.encoder true "awp") 3 found_f
  /\ lookup Demo.numpy_only "awp" 3
       (Demo_warm Demo.catalog E (Some (Demo_later_first E)))
     = (Ok found_f, Demo_warm Demo.catalog E (Some (Demo_later_first E)))
  /\ exists found_n x_f x_n,
      lookup Demo.numpy_only "awp" 3 (Demo_warm Demo.catalog E None)
      = (Ok found_n, Demo_warm Demo.catalog E None)
      /\ (length found_n <= 3)%nat
      /\ descending found_n
      /\ snd <$> head found_f = Some x_f
      /\ snd <$> head found_n = Some x_n
      /\ (x_f == x_n)%Q.
Proof.
  intros E found_f.
  destruct (search_paths_agree Demo.numpy_only "awp" 3 E
              (Demo_later_first E)
              (Demo_warm Demo.catalog E (Some (Demo_later_first E)))
              (Demo_warm Demo.catalog E None) found_f
              eq_refl eq_refl ltac:(vm_compute; reflexivity)
              demo_exact_search_awp eq_refl eq_refl demo_argsort_awp)
    as (Hf & found_n & Hn & _ & Hlen & _ & Hdesc
        & i_f & x_f & i_n & x_n & row_f & row_n & Hhf & Hhn & Heq & _).
  split; [exact demo_exact_search_awp|]. split; [exact Hf|].
  exists found_n, x_f, x_n. rewrite Hhf, Hhn. repeat split; assumption.
Defined.

(** C8 as stated fails on equal scores.  A catalog that lists one name
    twice has two equal rows.  An exact inner-product index may name either
    first, and so may a descending sort: here the index (which names the
    later of two equal rows first) and the sort (which keeps them in place)
    both do what is asked of them, the two first scores are equal, and the
    two first indices differ. *)
Lemma search_paths_differ_on_equal_scores :
  let names := [Demo.redline; Demo.redline] in
  let q := Demo.encoder true "ak redline" in
  let sims := map (fun row => dot row q) (mrows Demo_twins) in
  exact_search Demo_twins q 3 [(1, 1%Q); (0, 1%Q); Demo.no_hit]
  /\ argsort_of sims (Demo.argsort sims)
  /\ fst (lookup Demo.numpy_only "ak redline" 3
            (Demo_warm names Demo_twins
               (Some (Demo_later_first Demo_twins))))
     = Ok [(1, 1%Q); (0, 1%Q); Demo.no_hit]
  /\ fst (lookup Demo.numpy_only "ak redline" 3
            (Demo_warm names Demo_twins None))
     = Ok [(0, 1%Q); (1, 1%Q)].
Proof.
  intros names q sims. split; [|split; [|split]].
  - split; [simpl; lia|]. split; [unfold descending; on_listed_pairs|].
    exists 1%nat, [1; 0]%Q, 1%Q, [(0, 1%Q); Demo.no_hit].
    split; [reflexivity|]. split; [reflexivity|].
    split; [vm_compute; reflexivity|].
    intros row Hin. simpl in Hin.
    repeat (apply elem_of_cons in Hin as [-> | Hin];
            [vm_compute; discriminate|]).
    inversion Hin.
  - split; [vm_compute; reflexivity|].
    change (Demo.argsort sims) with [0; 1]%nat.
    change sims with [1%Q; 1%Q].
    intros [|[|[|?]]] [|[|[|?]]]; intros; simpl in *; simplify_eq;
      simpl in *; simplify_eq; first [lia | vm_compute; discriminate].
  - vm_compute. reflexivity.
  - vm_compute. reflexivity.
Qed.

(** * Managers as the constructor makes them *)

Lemma init_loaded ext repr_obj d rebuild_index refresh_data :
  let s := snd (__init__ ext repr_obj d rebuild_index refresh_data) in
  skin_names s = load_skin_names (skin_list_file d)
  /\ alias_to_canonical s =
     _load_alias_mapping repr_obj (name_mapping_file d) (skin_names s).
Proof.
  unfold __init__.
  set (self := {| skin_names := load_skin_names (skin_list_file d) |}).
  destruct rebuild_index; simpl; [|split; reflexivity].
  assert (N : skin_names (snd (_build_vector_index ext refresh_data self))
              = skin_names self).
  { apply (keeps_build_vector_index ext skin_names); reflexivity. }
  assert (A : alias_to_canonical
                (snd (_build_vector_index ext refresh_data self))
              = alias_to_canonical self).
  { apply (keeps_build_vector_index ext alias_to_canonical); reflexivity. }
  rewrite N, A. split; reflexivity.
Qed.

(** In every state a manager goes through, the catalog is the one read at
    construction and the alias map is the one loaded for it. *)
Lemma reachable_loaded ext repr_obj d s :
  reachable ext repr_obj d s ->
  skin_names s = load_skin_names (skin_list_file d)
  /\ alias_to_canonical s =
     _load_alias_mapping repr_obj (name_mapping_file d) (skin_names s).
Proof.
  induction 1 as [rebuild_index refresh_data | s q c _ [IHn IHa]].
  - apply init_loaded.
  - assert (N : skin_names (snd (find_best_match ext q c s)) = skin_names s).
    { apply (keeps_find_best_match ext skin_names); reflexivity. }
    assert (A : alias_to_canonical (snd (find_best_match ext q c s))
                = alias_to_canonical s).
    { apply (keeps_find_best_match ext alias_to_canonical); reflexivity. }
    rewrite N, A. split; assumption.
Qed.

Example demo_fresh_constructed :
  Demo.fresh
  = snd (__init__ Demo.numpy_only Demo.repr_obj Demo.files false false).
Proof. reflexivity. Qed.

(** * Invariants of a manager's life *)

Section Life.

Variable ext : externals.

Lemma count_loads_app a b :
  count_loads (a ++ b) = (count_loads a + count_loads b)%nat.
Proof.
  induction a as [|[| |] a IH]; simpl; rewrite ?IH; reflexivity.
Qed.

Lemma count_catalog_encodes_app a b :
  count_catalog_encodes (a ++ b)
  = (count_catalog_encodes a + count_catalog_encodes b)%nat.
Proof.
  induction a as [|[| |] a IH]; simpl; rewrite ?IH; reflexivity.
Qed.

Lemma usable_cache_shape cached n m :
  usable_cache cached n = Some m -> nrows m = n.
Proof.
  unfold usable_cache.
  destruct (shape cached) as [|r [|c [|x l]]]; try discriminate.
  destruct (Nat.eqb_spec r n) as [->|]; [|discriminate].
  intros [= <-]. reflexivity.
Qed.

Ltac count_events :=
  rewrite ?count_loads_app, ?count_catalog_encodes_app in *; simpl in *.

(** Closes a case in which a write failed although every write goes
    through. *)
Ltac unwritable Hw :=
  match goal with
  | H : save_cache _ ?c = SaveFailed _ |- _ =>
      rewrite (Hw c) in H; discriminate
  end.

Lemma warm_up_consistent text s o s' :
  is_nil (skin_names s) = false ->
  consistent ext s -> warm_up ext text s = (o, s') -> consistent ext s'.
Proof.
  destruct s as [names al mdl emb dim idx ch evs].
  unfold consistent. unfold_methods. simpl. intros Hn. rewrite Hn. simpl.
  intros (Hl & Hc & Hr).
  destruct emb as [E|], mdl, (model_available ext), (faiss ext) as [bld|],
    idx as [ix|]; by_cases; count_events;
    repeat match goal with
           | H : usable_cache _ _ = Some _ |- _ =>
               apply usable_cache_shape in H
           end.
  all: (split; [lia|]).
  all: split;
    [ intros Hw; try unwritable Hw;
      destruct (Hc Hw) as [Hc' | (Hc' & He & Hn')]; try discriminate;
      first [left; lia | right; repeat split; auto; lia]
    | intros E0 HE0; simplify_eq; simpl; auto ].
Qed.


Lemma vector_search_consistent text k s o s' :
  consistent ext s -> _vector_search ext text k s = (o, s') ->
  consistent ext s'.
Proof.
  intros Hc. rewrite vector_search_split.
  destruct (is_nil (skin_names s)) eqn:Hn.
  - intros [= _ <-]. exact Hc.
  - unfold bind. destruct (warm_up ext text s) as [[[]|e] sw] eqn:Hw.
    + intros H.
      pose proof (lookup_state ext text k sw) as E. rewrite H in E.
      simpl in E. subst s'. exact (warm_up_consistent _ _ _ _ Hn Hc Hw).
    + intros [= _ <-]. exact (warm_up_consistent _ _ _ _ Hn Hc Hw).
Qed.

Lemma search_loop_consistent thr texts : forall b s o s',
  consistent ext s -> search_loop ext thr texts b s = (o, s') ->
  consistent ext s'.
Proof.
  induction texts as [|text rest IH]; intros b s o s' Hc; simpl.
  - intros [= _ <-]. exact Hc.
  - unfold bind.
    destruct (_vector_search ext text 3 s) as [[results|e] s1] eqn:Hs;
      pose proof (vector_search_consistent _ _ _ _ _ Hc Hs) as K1.
    + destruct results as [|[idx score] more]; [apply IH; exact K1|].
      unfold gets.
      destruct (py_index (skin_names s1) idx); [|intros [= _ <-]; exact K1].
      destruct (Qle_bool thr score); [intros [= _ <-]; exact K1|].
      apply IH; exact K1.
    + intros [= _ <-]. exact K1.
Qed.

Lemma find_best_match_consistent q c s :
  consistent ext s -> consistent ext (snd (find_best_match ext q c s)).
Proof.
  intros Hc. unfold find_best_match, bind, gets, ret, raise.
  destruct (is_nil (skin_names s)); [exact Hc|].
  destruct (PyStr.is_empty (PyStr.strip q)); [exact Hc|].
  destruct (search_loop ext _ _ no_best s) as [[b|e] s1] eqn:Hl;
    pose proof (search_loop_consistent _ _ _ _ _ _ Hc Hl) as K;
    [|exact K].
  destruct (best_idx b) as [idx|]; [|exact K].
  destruct (py_index (skin_names s1) idx); [|exact K].
  destruct (Qltb (best_score b) (similarity_threshold c)); exact K.
Qed.

Lemma init_consistent repr_obj d rebuild_index refresh_data :
  consistent ext (snd (__init__ ext repr_obj d rebuild_index refresh_data)).
Proof.
  unfold __init__, consistent.
  destruct rebuild_index; [|simpl; repeat split; auto; discriminate].
  unfold_methods. simpl.
  destruct (load_skin_names (skin_list_file d)) as [|n names] eqn:En; simpl.
  { repeat split; auto; discriminate. }
  destruct refresh_data, (model_available ext), (faiss ext) as [bld|];
    by_cases;
    repeat match goal with
           | H : usable_cache _ _ = Some _ |- _ =>
               apply usable_cache_shape in H
           end;
    (split; [reflexivity|]);
    (split;
       [intros Hw; try unwritable Hw;
        first [left; reflexivity | right; repeat split; reflexivity]|]);
    intros E0 HE0; simplify_eq; simpl; auto.
Qed.

Lemma reachable_consistent repr_obj d s :
  reachable ext repr_obj d s -> consistent ext s.
Proof.
  induction 1 as [rebuild_index refresh_data | s q c _ IH].
  - apply init_consistent.
  - apply find_best_match_consistent. exact IH.
Qed.

End Life.


(** X2.  In every state a manager goes through, a matrix in memory
    has exactly one row per catalog name, and [_vector_dim] is its number of
    columns. *)
Theorem embeddings_rows_match_catalog ext repr_obj d s E :
  reachable ext repr_obj d s ->
  _embeddings s = Some E ->
  nrows E = length (skin_names s) /\ _vector_dim s = Some (ncols E).
Proof.
  intros H. destruct (reachable_consistent ext _ _ _ H) as (_ & _ & Hr).
  apply Hr.
Qed.


(** * Construction, failure and the cache file *)

Lemma rstrip_idem s : PyStr.rstrip (PyStr.rstrip s) = PyStr.rstrip s.
Proof.
  induction s as [|c t IH]; simpl; [reflexivity|].
  destruct (PyStr.is_space c && PyStr.is_empty (PyStr.rstrip t)) eqn:E;
    [reflexivity|].
  simpl. rewrite IH, E. reflexivity.
Qed.

(** A string that is empty or starts with a character that is not blank. *)
Lemma lstrip_fixed s :
  match s with
  | EmptyString => True
  | String c _ => PyStr.is_space c = false
  end ->
  PyStr.lstrip s = s.
Proof. destruct s as [|c t]; simpl; [reflexivity|]. intros ->. reflexivity. Qed.

Lemma lstrip_head s :
  match PyStr.lstrip s with
  | EmptyString => True
  | String c _ => PyStr.is_space c = false
  end.
Proof.
  induction s as [|c t IH]; simpl; [exact I|].
  destruct (PyStr.is_space c) eqn:E; [exact IH | exact E].
Qed.

Lemma rstrip_head s :
  match s with
  | EmptyString => True
  | String c _ => PyStr.is_space c = false
  end ->
  match PyStr.rstrip s with
  | EmptyString => True
  | String c _ => PyStr.is_space c = false
  end.
Proof.
  destruct s as [|c t]; simpl; [auto|]. intros E. rewrite E. simpl. exact E.
Qed.

Lemma strip_idem s : PyStr.strip (PyStr.strip s) = PyStr.strip s.
Proof.
  unfold PyStr.strip.
  rewrite (lstrip_fixed (PyStr.rstrip (PyStr.lstrip s))).
  - apply rstrip_idem.
  - apply rstrip_head, lstrip_head.
Qed.

(** X3.  Every catalog name [__init__] keeps is the stripped form of a
    line of the list file, is not empty, and has no blank left at either end
    (stripping it again changes nothing). *)
Theorem load_skin_names_clean (f : option (list string)) (name : string) :
  name ∈ load_skin_names f ->
  PyStr.is_empty name = false
  /\ PyStr.strip name = name
  /\ exists lines line,
      f = Some lines /\ line ∈ lines /\ name = PyStr.strip line.
Proof.
  destruct f as [lines|]; simpl; [|intros H; inversion H].
  intros H. apply list_elem_of_filter in H as [Hne H].
  apply list_elem_of_fmap in H as (line & -> & Hin).
  split; [exact Hne|]. split; [apply strip_idem|].
  exists lines, line. auto.
Qed.

Section Construction.
Variable ext : externals.

(** X4.  When the list file is missing or has only blank lines,
    construction returns without calling the model (whatever
    [rebuild_index] and [refresh_data] are), no matrix or index is built, and
    every later query returns [None] and leaves the manager as it is. *)
Theorem empty_catalog_manager repr_obj d rebuild_index refresh_data :
  load_skin_names (skin_list_file d) = [] ->
  fst (__init__ ext repr_obj d rebuild_index refresh_data) = Ok tt
  /\ events (snd (__init__ ext repr_obj d rebuild_index refresh_data)) = []
  /\ _embeddings (snd (__init__ ext repr_obj d rebuild_index refresh_data))
     = None
  /\ _vector_index (snd (__init__ ext repr_obj d rebuild_index refresh_data))
     = None
  /\ forall q c,
      find_best_match ext q c
        (snd (__init__ ext repr_obj d rebuild_index refresh_data))
      = (Ok None, snd (__init__ ext repr_obj d rebuild_index refresh_data)).
Proof.
  intros Hn. unfold __init__. rewrite Hn.
  assert (E : forall s, skin_names s = [] ->
            forall q c, find_best_match ext q c s = (Ok None, s)).
  { intros s Hs q c. unfold find_best_match, bind, gets, ret. rewrite Hs.
    reflexivity. }
  destruct rebuild_index; simpl; repeat split; try reflexivity;
    intros q c; apply E; reflexivity.
Qed.

(** X5.  When [_ensure_embeddings] has encoded the catalog, the
    cache file it wrote is adopted by a manager on the same catalog that has
    no matrix in memory: the same matrix and width, no call of the model, and
    the file left as it is. *)
Theorem cache_round_trip force s s1 s2 :
  is_nil (skin_names s) = false ->
  _ensure_embeddings ext force s = (Ok tt, s1) ->
  count_catalog_encodes (events s1) <> count_catalog_encodes (events s) ->
  skin_names s2 = skin_names s ->
  _embeddings s2 = None ->
  cache s2 = cache s1 ->
  exists s3,
    _ensure_embeddings ext false s2 = (Ok tt, s3)
    /\ _embeddings s3 = _embeddings s1
    /\ _vector_dim s3 = _vector_dim s1
    /\ events s3 = events s2
    /\ cache s3 = cache s2.
Proof.
  intros Hn Hrun Hcount Hnames Hemb Hcache.
  assert (Hs1 : _embeddings s1 = Some (encode ext true (skin_names s))
                /\ _vector_dim s1 = Some (encode_dim ext)
                /\ cache s1
                   = CacheArray (to_ndarray (encode ext true (skin_names s)))).
  { revert Hrun Hcount. destruct s as [names al mdl emb dim idx ch evs].
    unfold_methods. simpl in *. rewrite Hn.
    destruct emb as [E|], force, mdl, (model_available ext); by_cases;
      rewrite ?count_catalog_encodes_app in *; simpl in *;
      try (exfalso; lia); repeat split; reflexivity. }
  destruct Hs1 as (He1 & Hd1 & Hc1).
  unfold _ensure_embeddings, bind, gets, modify, read_cache.
  rewrite Hnames, Hn, Hemb. simpl. rewrite Hcache, Hc1. simpl.
  unfold usable_cache, to_ndarray, encode. simpl.
  rewrite Nat.eqb_refl. eexists. split; [reflexivity|].
  simpl. rewrite He1, Hd1. repeat split.
  rewrite Hcache, Hc1. reflexivity.
Qed.

(** X6.  With a catalog, a query that is not blank, no model loaded
    and no model to load, [find_best_match] raises the model's failure
    instead of returning [None]; no model call is logged. *)
Theorem model_unavailable_propagates q c s :
  is_nil (skin_names s) = false ->
  PyStr.is_empty (PyStr.strip q) = false ->
  _embedding_model s = false ->
  model_available ext = false ->
  fst (find_best_match ext q c s) = Raise ModelUnavailable
  /\ events (snd (find_best_match ext q c s)) = events s.
Proof.
  intros Hn Hq Hm Ha.
  assert (Hw : forall text,
             fst (warm_up ext text s) = Raise ModelUnavailable
             /\ events (snd (warm_up ext text s)) = events s).
  { intros text. destruct s as [names al mdl emb dim idx ch evs].
    simpl in *. subst mdl. unfold_methods. simpl. rewrite Hn, Ha.
    destruct emb as [E|]; by_cases; split; reflexivity. }
  assert (Hs : forall text,
             fst (_vector_search ext text 3 s) = Raise ModelUnavailable
             /\ events (snd (_vector_search ext text 3 s)) = events s).
  { intros text. rewrite vector_search_split, Hn. unfold bind.
    destruct (Hw text) as [H1 H2].
    destruct (warm_up ext text s) as [[u|e] sw]; simpl in *;
      [discriminate|]. split; congruence. }
  unfold find_best_match, bind, gets. rewrite Hn, Hq.
  rewrite (search_text_candidates_spec _ Hq).
  set (low := PyStr.lower (PyStr.strip q)).
  destruct (Hs low) as [H1 H2].
  destruct (decide _) as [Hd|Hd]; simpl; unfold bind;
    destruct (_vector_search ext low 3 s) as [[r|err] s1]; simpl in *;
    try discriminate; split; congruence.
Qed.
End Construction.

(** * Calls one after another *)

Section Calls.
Variable ext : externals.

(** A loop that returns leaves every search as it was. *)
Lemma search_loop_keeps_searches thr texts : forall b s b' s',
  search_loop ext thr texts b s = (Ok b', s') ->
  forall t, fst (_vector_search ext t 3 s')
            = fst (_vector_search ext t 3 s).
Proof.
  induction texts as [|text rest IH]; intros b s b' s' H t.
  - inversion H; subst. reflexivity.
  - apply search_loop_inv in H as (results & s1 & Hs & H).
    pose proof (vector_search_stable ext _ t _ _ _ _ Hs) as E1.
    destruct results as [|[idx score] more].
    + rewrite (IH _ _ _ _ H). exact E1.
    + destruct H as [_ H]. destruct (Qle_bool thr score).
      * destruct H as [_ ->]. exact E1.
      * rewrite (IH _ _ _ _ H). exact E1.
Qed.

(** Two states that answer every search alike run the loop alike. *)
Lemma search_loop_congruence thr texts : forall b sa sb,
  (forall t, fst (_vector_search ext t 3 sa)
             = fst (_vector_search ext t 3 sb)) ->
  skin_names sa = skin_names sb ->
  fst (search_loop ext thr texts b sa) = fst (search_loop ext thr texts b sb).
Proof.
  induction texts as [|text rest IH]; intros b sa sb Hst Hn; simpl;
    [reflexivity|].
  unfold bind. specialize (Hst text) as Ht.
  destruct (_vector_search ext text 3 sa) as [oa sa1] eqn:Ha.
  destruct (_vector_search ext text 3 sb) as [ob sb1] eqn:Hb.
  simpl in Ht. subst ob.
  destruct oa as [results|e]; [|reflexivity].
  assert (Hst1 : forall t, fst (_vector_search ext t 3 sa1)
                           = fst (_vector_search ext t 3 sb1)).
  { intros t. rewrite (vector_search_stable ext _ t _ _ _ _ Ha).
    rewrite (vector_search_stable ext _ t _ _ _ _ Hb). apply Hst. }
  assert (Hn1 : skin_names sa1 = skin_names sb1).
  { rewrite (search_names ext _ _ _ _ _ Ha), (search_names ext _ _ _ _ _ Hb).
    exact Hn. }
  destruct results as [|[idx score] more]; [exact (IH _ _ _ Hst1 Hn1)|].
  unfold gets. rewrite Hn1.
  destruct (py_index (skin_names sb1) idx); [|reflexivity].
  destruct (Qle_bool thr score); [reflexivity|].
  exact (IH _ _ _ Hst1 Hn1).
Qed.

Lemma find_best_match_congruence q c sa sb :
  (forall t, fst (_vector_search ext t 3 sa)
             = fst (_vector_search ext t 3 sb)) ->
  skin_names sa = skin_names sb ->
  alias_to_canonical sa = alias_to_canonical sb ->
  fst (find_best_match ext q c sa) = fst (find_best_match ext q c sb).
Proof.
  intros Hst Hn Ha.
  unfold find_best_match, bind, gets. rewrite Hn.
  destruct (is_nil (skin_names sb)); [reflexivity|].
  destruct (PyStr.is_empty (PyStr.strip q)); [reflexivity|].
  pose proof (search_loop_congruence (similarity_threshold c)
                (search_text_candidates (PyStr.strip q)) no_best sa sb Hst Hn)
    as Hl.
  destruct (search_loop ext _ _ no_best sa) as [oa sa1] eqn:Ea.
  destruct (search_loop ext _ _ no_best sb) as [ob sb1] eqn:Eb.
  simpl in Hl. subst ob.
  destruct oa as [b|e]; [|reflexivity].
  destruct (best_idx b) as [idx|]; [|reflexivity].
  rewrite (search_loop_names ext _ _ _ _ _ _ Ea),
    (search_loop_names ext _ _ _ _ _ _ Eb), Hn.
  destruct (py_index (skin_names sb) idx); [|reflexivity].
  destruct (Qltb (best_score b) (similarity_threshold c)); [reflexivity|].
  unfold ret. simpl.
  rewrite (search_loop_aliases ext _ _ _ _ _ _ Ea),
    (search_loop_aliases ext _ _ _ _ _ _ Eb), Ha.
  reflexivity.
Qed.

(** X7.  A call that has returned changes no later answer: any
    query gives from the state it left what it would have given before it,
    and the same call again returns the same result. *)
Theorem find_best_match_history_independent q1 c1 q2 c2 s r1 s1 :
  find_best_match ext q1 c1 s = (Ok r1, s1) ->
  fst (find_best_match ext q2 c2 s1) = fst (find_best_match ext q2 c2 s)
  /\ fst (find_best_match ext q1 c1 s1) = Ok r1.
Proof.
  intros H.
  assert (G : forall q c,
             fst (find_best_match ext q c s1) = fst (find_best_match ext q c s)).
  { intros q c. apply find_best_match_congruence.
    - apply find_best_match_inv in H
        as [(_ & -> & _) | (_ & _ & b & Hl & _)]; [reflexivity|].
      intros t. exact (search_loop_keeps_searches _ _ _ _ _ _ Hl t).
    - pose proof (keeps_find_best_match ext skin_names) as K.
      specialize (K ltac:(reflexivity) ltac:(reflexivity) ltac:(reflexivity)
                    ltac:(reflexivity) ltac:(reflexivity) ltac:(reflexivity)
                    ltac:(reflexivity) ltac:(reflexivity) q1 c1 s).
      rewrite H in K. exact K.
    - pose proof (keeps_find_best_match ext alias_to_canonical) as K.
      specialize (K ltac:(reflexivity) ltac:(reflexivity) ltac:(reflexivity)
                    ltac:(reflexivity) ltac:(reflexivity) ltac:(reflexivity)
                    ltac:(reflexivity) ltac:(reflexivity) q1 c1 s).
      rewrite H in K. exact K. }
  split; [apply G|]. rewrite G, H. reflexivity.
Qed.

Lemma pair_scores_spec sims idxs s found s' :
  pair_scores sims idxs s = (Ok found, s') ->
  length found = length idxs
  /\ forall idx score,
      (idx, score) ∈ found ->
      exists i, idx = Z.of_nat i /\ i ∈ idxs /\ sims !! i = Some score.
Proof.
  revert found. induction idxs as [|i idxs IH]; simpl; intros found H.
  - inversion H; subst. split; [reflexivity|]. intros idx score Hin.
    inversion Hin.
  - destruct (nth_error sims i) as [sc|] eqn:Ei; [|discriminate].
    apply bind_ok_inv in H as (tl & s1 & Htl & H).
    inversion H; subst. destruct (IH _ Htl) as [Hlen Hall].
    split; [simpl; congruence|].
    intros idx score Hin. apply elem_of_cons in Hin as [[= -> ->] | Hin].
    + exists i. repeat split; [left|].
      rewrite <- Ei. clear. revert i.
      induction sims as [|a l IHl]; intros [|n]; simpl; auto.
    + destruct (Hall _ _ Hin) as (j & -> & Hj & Hs).
      exists j. repeat split; [right; exact Hj | exact Hs].
Qed.

(** X8.  Without faiss, a search that returns on a catalog that is
    not empty gives at most [top_k] pairs, and each pair is an index into the
    rows of the matrix in memory (whose width is the encoder's) together with
    the inner product of that row and the encoded query. *)
Theorem numpy_search_results text k s found s' :
  faiss ext = None ->
  _vector_index s = None ->
  is_nil (skin_names s) = false ->
  _vector_search ext text k s = (Ok found, s') ->
  exists E,
    _embeddings s' = Some E
    /\ ncols E = encode_dim ext
    /\ (length found <= k)%nat
    /\ forall idx score,
        (idx, score) ∈ found ->
        exists i row,
          idx = Z.of_nat i
          /\ mrows E !! i = Some row
          /\ score = dot row (encode_text ext true text).
Proof.
  intros Hf Hi Hn H. rewrite vector_search_split, Hn in H.
  apply bind_ok_inv in H as ([] & sw & Hw & Hl).
  assert (s' = sw) as ->.
  { pose proof (lookup_state ext text k sw) as E. rewrite Hl in E. exact E. }
  pose proof (warm_up_ok_warm ext _ _ _ _ Hn Hw) as (_ & He & _).
  assert (Hiw : _vector_index sw = None).
  { revert Hw. destruct s as [names al mdl emb dim idx ch evs].
    simpl in *. subst idx. unfold_methods. simpl. rewrite Hn, Hf.
    destruct emb as [E|], mdl, (model_available ext); by_cases; reflexivity. }
  unfold lookup, bind, gets, np_dot in Hl. rewrite Hiw in Hl.
  destruct (_embeddings sw) as [E|]; [|discriminate].
  exists E. split; [reflexivity|].
  destruct (Nat.eqb_spec (ncols E) (encode_dim ext)) as [Hd|Hd];
    [|discriminate].
  split; [exact Hd|]. unfold ret in Hl.
  apply pair_scores_spec in Hl as [Hlen Hall].
  split.
  - rewrite Hlen. rewrite length_take. lia.
  - intros idx score Hin. destruct (Hall _ _ Hin) as (i & -> & _ & Hs).
    rewrite list_lookup_fmap in Hs.
    destruct (mrows E !! i) as [row|] eqn:Er; [|discriminate].
    injection Hs as <-. exists i, row. auto.
Qed.

Lemma vector_search_warm text k s :
  warm ext s ->
  snd (_vector_search ext text k s) = log (EncodeQuery text true) s.
Proof.
  intros Hw. rewrite vector_search_split.
  destruct Hw as (Hn & Hrest). rewrite Hn. unfold bind.
  rewrite (warm_up_warm ext text s) by (split; assumption).
  pose proof (lookup_state ext text k (log (EncodeQuery text true) s)) as E.
  destruct (lookup ext text k _) as [o sl]. exact E.
Qed.

Lemma warm_log e s : warm ext s -> warm ext (log e s).
Proof. intros H. exact H. Qed.

Lemma search_loop_warm thr texts : forall b s,
  warm ext s ->
  exists searched,
    snd (search_loop ext thr texts b s)
    = fold_left (fun st t => log (EncodeQuery t true) st) searched s.
Proof.
  induction texts as [|text rest IH]; intros b s Hw; simpl.
  - exists []. reflexivity.
  - unfold bind. pose proof (vector_search_warm text 3 s Hw) as E.
    destruct (_vector_search ext text 3 s) as [[results|e] s1]; simpl in E;
      subst s1; [|exists [text]; reflexivity].
    assert (Hw1 : warm ext (log (EncodeQuery text true) s)) by exact Hw.
    destruct results as [|[idx score] more].
    + destruct (IH b _ Hw1) as (l & El). exists (text :: l). exact El.
    + unfold gets.
      destruct (py_index _ idx); [|exists [text]; reflexivity].
      destruct (Qle_bool thr score); [exists [text]; reflexivity|].
      destruct (IH (tracked b idx score text) _ Hw1) as (l & El).
      exists (text :: l). exact El.
Qed.

Lemma fold_log_fields searched : forall s,
  let s' := fold_left (fun st t => log (EncodeQuery t true) st) searched s in
  skin_names s' = skin_names s
  /\ _embedding_model s' = _embedding_model s
  /\ _embeddings s' = _embeddings s
  /\ _vector_dim s' = _vector_dim s
  /\ _vector_index s' = _vector_index s
  /\ cache s' = cache s
  /\ events s' = events s ++ map (fun t => EncodeQuery t true) searched.
Proof.
  induction searched as [|t l IH]; intros s; simpl.
  - rewrite app_nil_r. repeat split.
  - destruct (IH (log (EncodeQuery t true) s)) as (H1 & H2 & H3 & H4 & H5 & H6 & H7).
    repeat split; try assumption.
    rewrite H7. simpl. rewrite <- app_assoc. reflexivity.
Qed.

(** X9.  From a warm manager, a call of [find_best_match] (returning
    or raising) leaves the matrix, its width, the index and the cache file
    untouched, keeps the manager warm, and adds to the log nothing but the
    encodings of the queries it searched. *)
Theorem warm_calls_only_encode_queries q c s :
  warm ext s ->
  let s' := snd (find_best_match ext q c s) in
  warm ext s'
  /\ _embeddings s' = _embeddings s
  /\ _vector_dim s' = _vector_dim s
  /\ _vector_index s' = _vector_index s
  /\ cache s' = cache s
  /\ exists searched,
      events s' = events s ++ map (fun t => EncodeQuery t true) searched.
Proof.
  intros Hw.
  assert (G : exists searched,
             snd (find_best_match ext q c s)
             = fold_left (fun st t => log (EncodeQuery t true) st) searched s).
  { unfold find_best_match, bind, gets, ret, raise.
    destruct (is_nil (skin_names s)); [exists []; reflexivity|].
    destruct (PyStr.is_empty (PyStr.strip q)); [exists []; reflexivity|].
    destruct (search_loop_warm (similarity_threshold c)
                (search_text_candidates (PyStr.strip q)) no_best s Hw)
      as (l & El).
    exists l. rewrite <- El.
    destruct (search_loop ext _ _ no_best s) as [[b|e] s1]; [|reflexivity].
    destruct (best_idx b) as [idx|]; [|reflexivity].
    destruct (py_index (skin_names s1) idx); [|reflexivity].
    destruct (Qltb (best_score b) (similarity_threshold c)); reflexivity. }
  destruct G as (l & ->).
  destruct (fold_log_fields l s) as (H1 & H2 & H3 & H4 & H5 & H6 & H7).
  cbv zeta. split; [|split; [|split; [|split; [|split]]]]; try assumption.
  - destruct Hw as (Hn & He & Hm & Hi). unfold warm.
    rewrite H1, H2, H3, H5. repeat split; assumption.
  - exists l. exact H7.
Qed.

(** X10.  A call that returns, on a catalog that is not empty and with
    a query that is not blank, leaves the manager warm: matrix in memory,
    model loaded, index built when faiss is there. *)
Theorem returning_call_warms q c s r s' :
  is_nil (skin_names s) = false ->
  PyStr.is_empty (PyStr.strip q) = false ->
  find_best_match ext q c s = (Ok r, s') ->
  warm ext s'.
Proof.
  intros Hn Hq H.
  apply find_best_match_inv in H
    as [(_ & _ & [Hg | Hg]) | (_ & _ & b & Hl & _)]; [congruence.. |].
  rewrite (search_text_candidates_spec _ Hq) in Hl.
  assert (G : forall rest b0 s0 b1 s1,
             is_nil (skin_names s0) = false ->
             search_loop ext (similarity_threshold c)
               (PyStr.lower (PyStr.strip q) :: rest) b0 s0 = (Ok b1, s1) ->
             warm ext s1).
  { clear. intros rest b0 s0 b1 s1 Hn H.
    apply search_loop_inv in H as (results & sa & Hs & H).
    assert (Hwa : warm ext sa).
    { rewrite vector_search_split, Hn in Hs.
      apply bind_ok_inv in Hs as ([] & sw & Hw & Hlk).
      pose proof (lookup_state ext (PyStr.lower (PyStr.strip q)) 3 sw) as E.
      rewrite Hlk in E.
      simpl in E. subst sa. exact (warm_up_ok_warm ext _ _ _ _ Hn Hw). }
    assert (K : forall o s2 texts b2,
               search_loop ext (similarity_threshold c) texts b2 sa = (o, s2) ->
               warm ext s2).
    { intros o s2 texts b2 Hl2.
      destruct (search_loop_warm (similarity_threshold c) texts b2 sa Hwa)
        as (l & El).
      rewrite Hl2 in El. simpl in El. subst s2.
      destruct (fold_log_fields l sa) as (H1 & H2 & H3 & H4 & H5 & H6 & H7).
      destruct Hwa as (Hn' & He & Hm & Hi). unfold warm.
      rewrite H1, H2, H3, H5. repeat split; assumption. }
    destruct results as [|[idx score] more]; [exact (K _ _ _ _ H)|].
    destruct H as [_ H]. destruct (Qle_bool _ score).
    - destruct H as [_ ->]. exact Hwa.
    - exact (K _ _ _ _ H). }
  destruct (decide _); exact (G _ _ _ _ _ Hn Hl).
Qed.
End Calls.

(** * The properties above on the demo manager *)

Lemma load_skin_names_clean_witness :
  Demo.asiimov ∈ load_skin_names (skin_list_file Demo.files)
  /\ PyStr.strip Demo.asiimov = Demo.asiimov.
Proof.
  assert (H : Demo.asiimov ∈ load_skin_names (skin_list_file Demo.files)).
  { vm_compute. right. left. }
  split; [exact H|].
  exact (proj1 (proj2 (load_skin_names_clean _ _ H))).
Defined.

Lemma empty_catalog_manager_witness :
  load_skin_names (skin_list_file Demo_no_files) = []
  /\ fst (__init__ Demo.no_model Demo.repr_obj Demo_no_files true true)
     = Ok tt.
Proof.
  split; [reflexivity|].
  exact (proj1 (empty_catalog_manager Demo.no_model Demo.repr_obj
                  Demo_no_files true true eq_refl)).
Defined.

Lemma demo_served_reachable :
  reachable Demo.numpy_only Demo.repr_obj Demo.files Demo_served.
Proof.
  exact (reach_call Demo.numpy_only Demo.repr_obj Demo.files _ "ak redline" 50
           (reach_init Demo.numpy_only Demo.repr_obj Demo.files false false)).
Qed.


(** Where the write fails the bound does not hold: each call encodes the
    catalog, raises at the write and adopts nothing, so the next call
    encodes it again. *)
Example failed_write_encodes_again :
  let once := snd (find_best_match Demo.locked "ak redline" 50
                     Demo.unreadable) in
  let twice := snd (find_best_match Demo.locked "ak redline" 50 once) in
  fst (find_best_match Demo.locked "ak redline" 50 once) = Raise OSError
  /\ _embeddings twice = None
  /\ count_loads (events twice) = 1%nat
  /\ count_catalog_encodes (events twice) = 2%nat.
Proof.
  vm_compute. repeat split.
Qed.

Lemma embeddings_rows_match_catalog_witness :
  reachable Demo.numpy_only Demo.repr_obj Demo.files Demo_served
  /\ _embeddings Demo_served = Some (encode Demo.numpy_only true Demo.catalog)
  /\ nrows (encode Demo.numpy_only true Demo.catalog)
     = length (skin_names Demo_served).
Proof.
  split; [exact demo_served_reachable|].
  assert (H : _embeddings Demo_served
              = Some (encode Demo.numpy_only true Demo.catalog))
    by (vm_compute; reflexivity).
  split; [exact H|].
  exact (proj1 (embeddings_rows_match_catalog _ _ _ _ _
                  demo_served_reachable H)).
Defined.

Lemma cache_round_trip_witness :
  is_nil (skin_names Demo.fresh) = false
  /\ exists s3,
      _ensure_embeddings Demo.numpy_only false
        (set_cache (cache Demo_served) Demo.fresh) = (Ok tt, s3)
      /\ _embeddings s3 = _embeddings Demo_served
      /\ events s3 = [].
Proof.
  split; [reflexivity|].
  destruct (cache_round_trip Demo.numpy_only true Demo.fresh
              (snd (_ensure_embeddings Demo.numpy_only true Demo.fresh))
              (set_cache (cache Demo_served) Demo.fresh))
    as (s3 & H1 & H2 & _ & H4 & _).
  - reflexivity.
  - vm_compute. reflexivity.
  - vm_compute. discriminate.
  - reflexivity.
  - reflexivity.
  - vm_compute. reflexivity.
  - exists s3. split; [exact H1|]. split; [|exact H4].
    rewrite H2. vm_compute. reflexivity.
Defined.

Lemma model_unavailable_propagates_witness :
  is_nil (skin_names Demo.fresh) = false
  /\ PyStr.is_empty (PyStr.strip "ak redline") = false
  /\ _embedding_model Demo.fresh = false
  /\ model_available Demo.no_model = false
  /\ fst (find_best_match Demo.no_model "ak redline" 50 Demo.fresh)
     = Raise ModelUnavailable.
Proof.
  repeat (split; [reflexivity|]).
  exact (proj1 (model_unavailable_propagates Demo.no_model "ak redline" 50
                  Demo.fresh eq_refl eq_refl eq_refl eq_refl)).
Defined.

Lemma find_best_match_history_independent_witness :
  find_best_match Demo.numpy_only "ak redline" 50 Demo.fresh
  = (Ok (Some Demo.redline), Demo_served)
  /\ fst (find_best_match Demo.numpy_only "Hongxian" 50 Demo_served)
     = fst (find_best_match Demo.numpy_only "Hongxian" 50 Demo.fresh).
Proof.
  assert (H : find_best_match Demo.numpy_only "ak redline" 50 Demo.fresh
              = (Ok (Some Demo.redline), Demo_served))
    by (vm_compute; reflexivity).
  split; [exact H|].
  exact (proj1 (find_best_match_history_independent Demo.numpy_only
                  "ak redline" 50 "Hongxian" 50 _ _ _ H)).
Defined.

Lemma numpy_search_results_witness :
  faiss Demo.numpy_only = None
  /\ _vector_index Demo.fresh = None
  /\ is_nil (skin_names Demo.fresh) = false
  /\ exists E,
      _embeddings (snd (_vector_search Demo.numpy_only "m4" 2 Demo.fresh))
      = Some E
      /\ (length [(1, 20 # 25); (0, 15 # 25)]%Q <= 2)%nat.
Proof.
  repeat (split; [reflexivity|]).
  destruct (numpy_search_results Demo.numpy_only "m4" 2 Demo.fresh
              [(1%Z, (20 # 25)%Q); (0%Z, (15 # 25)%Q)]
              (snd (_vector_search Demo.numpy_only "m4" 2 Demo.fresh))
              eq_refl eq_refl eq_refl)
    as (E & HE & _ & Hlen & _).
  - vm_compute. reflexivity.
  - exists E. split; [exact HE | exact Hlen].
Defined.

Lemma demo_served_warm : warm Demo.numpy_only Demo_served.
Proof. vm_compute. repeat split; discriminate. Qed.

Lemma warm_calls_only_encode_queries_witness :
  warm Demo.numpy_only Demo_served
  /\ cache (snd (find_best_match Demo.numpy_only "M4" 90 Demo_served))
     = cache Demo_served.
Proof.
  split; [exact demo_served_warm|].
  destruct (warm_calls_only_encode_queries Demo.numpy_only "M4" 90
              Demo_served demo_served_warm) as (_ & _ & _ & _ & H & _).
  exact H.
Defined.

Lemma returning_call_warms_witness :
  is_nil (skin_names Demo.fresh) = false
  /\ PyStr.is_empty (PyStr.strip "ak redline") = false
  /\ warm Demo.numpy_only Demo_served.
Proof.
  split; [reflexivity|]. split; [reflexivity|].
  apply (returning_call_warms Demo.numpy_only "ak redline" 50 Demo.fresh
           (Some Demo.redline) Demo_served eq_refl eq_refl).
  vm_compute. reflexivity.
Defined.

(** * The catalog refresh *)

Lemma fromkeys_from (names : list string) : forall acc,
  NoDup acc ->
  NoDup (fold_left (fun acc x => if decide (x ∈ acc) then acc else acc ++ [x])
           names acc)
  /\ forall x,
      x ∈ fold_left (fun acc x => if decide (x ∈ acc) then acc else acc ++ [x])
            names acc
      <-> x ∈ acc \/ x ∈ names.
Proof.
  induction names as [|n names IH]; intros acc Hnd; simpl.
  - split; [exact Hnd|]. intros x. rewrite elem_of_nil. tauto.
  - destruct (decide (n ∈ acc)) as [Hin|Hnin].
    + destruct (IH acc Hnd) as [H1 H2]. split; [exact H1|].
      intros x. rewrite H2, elem_of_cons.
      split; [tauto|]. intros [H|[->|H]]; auto.
    + assert (Hnd' : NoDup (acc ++ [n])).
      { apply NoDup_app. split; [exact Hnd|]. split.
        - intros x Hx Hx'. apply list_elem_of_singleton in Hx'. subst. auto.
        - apply NoDup_singleton. }
      destruct (IH _ Hnd') as [H1 H2]. split; [exact H1|].
      intros x. rewrite H2, elem_of_app, list_elem_of_singleton, elem_of_cons.
      tauto.
Qed.

Lemma fromkeys_spec names :
  NoDup (fromkeys names) /\ forall x, x ∈ fromkeys names <-> x ∈ names.
Proof.
  destruct (fromkeys_from names [] (NoDup_nil_2)) as [H1 H2].
  split; [exact H1|]. intros x. unfold fromkeys. rewrite H2, elem_of_nil.
  tauto.
Qed.

Section RefreshFacts.
Variable repr_obj : list (string * json) -> string.

Lemma add_candidate_clean st name :
  (forall n, n ∈ fst st -> clean n) ->
  forall n, n ∈ fst (add_candidate repr_obj st name) -> clean n.
Proof.
  intros H n. unfold add_candidate.
  destruct name as [v|]; [|apply H].
  destruct (json_truthy v); [|apply H].
  destruct (PyStr.is_empty (PyStr.strip (py_str repr_obj v))) eqn:E;
    simpl; [apply H|].
  destruct (bool_decide _); simpl; [apply H|].
  rewrite elem_of_app, list_elem_of_singleton. intros [Hin | ->]; [auto|].
  split; [exact E | apply strip_idem].
Qed.

Lemma item_candidates_clean fields n :
  n ∈ item_candidates repr_obj fields -> clean n.
Proof.
  unfold item_candidates. simpl.
  repeat apply add_candidate_clean. simpl. intros x Hx. inversion Hx.
Qed.

Lemma lookup_fold_insert_const (keys : list string) (v : string) :
  forall (m : gmap string string) k,
    fold_left (fun m key => <[key := v]> m) keys m !! k =
    if decide (k ∈ keys) then Some v else m !! k.
Proof.
  induction keys as [|n keys IH]; intros m k; cbn [fold_left].
  - case_decide as Hin; [|reflexivity].
    exfalso. exact (not_elem_of_nil _ Hin).
  - rewrite IH. rewrite (decide_ext (k ∈ n :: keys) (k = n \/ k ∈ keys))
      by apply elem_of_cons.
    destruct (decide (k ∈ keys)) as [Hin|Hnin].
    + rewrite decide_True by (right; exact Hin). reflexivity.
    + destruct (decide (k = n)) as [->|Hne].
      * rewrite decide_True by (left; reflexivity). apply lookup_insert_eq.
      * rewrite decide_False by tauto.
        apply lookup_insert_ne. congruence.
Qed.

Lemma process_item_sound locale item_id fields a :
  sound a -> sound (process_item repr_obj locale item_id fields a).
Proof.
  intros (Hc & Hk & Hv & He). unfold process_item.
  destruct (item_candidates repr_obj fields) as [|p more] eqn:Ec;
    [exact (conj Hc (conj Hk (conj Hv He)))|].
  assert (Hcl : forall n, n ∈ p :: more -> clean n).
  { intros n Hn. apply (item_candidates_clean fields). rewrite Ec. exact Hn. }
  set (base := if bool_decide (locale = "en") then p
               else default p (english_primary_by_id a !! item_id)).
  assert (Hbase : base ∈ all_skin_names a ++ p :: more).
  { unfold base. rewrite elem_of_app.
    destruct (bool_decide (locale = "en")); [right; left|].
    destruct (english_primary_by_id a !! item_id) as [v|] eqn:E; simpl.
    - left. eapply He; eauto.
    - right. left. }
  unfold sound. cbn [all_skin_names alias_map english_primary_by_id].
  split; [|split; [|split]].
  - intros n. rewrite elem_of_app. intros [H|H]; auto.
  - intros k. rewrite lookup_fold_insert_const, elem_of_app.
    destruct (decide (k ∈ p :: more)); [split; eauto|].
    split; [intros H; left; apply Hk; exact H|].
    intros [H|H]; [apply Hk; exact H | contradiction].
  - intros k v. rewrite lookup_fold_insert_const.
    destruct (decide (k ∈ p :: more)).
    + intros [= <-]. exact Hbase.
    + intros H. rewrite elem_of_app. left. eapply Hv; eauto.
  - intros id v.
    destruct (bool_decide (locale = "en")).
    + destruct (decide (item_id = id)) as [->|Hne].
      * rewrite lookup_insert_eq. intros [= <-].
        rewrite elem_of_app. right. left.
      * rewrite lookup_insert_ne by exact Hne. intros H.
        rewrite elem_of_app. left. eapply He; eauto.
    + intros H. rewrite elem_of_app. left. eapply He; eauto.
Qed.

Lemma process_items_sound locale items : forall a,
  sound a -> sound (process_items repr_obj locale items a).
Proof.
  induction items as [|[id [s|fields|r]] rest IH]; intros a Ha; simpl; auto.
  apply IH, process_item_sound, Ha.
Qed.

Lemma process_locale_sound locale d a :
  sound a -> sound (process_locale repr_obj locale d a).
Proof.
  intros Ha. destruct d as [|[s|ms|r]]; simpl; auto.
  apply process_items_sound, Ha.
Qed.

Lemma refresh_start_sound : sound refresh_start.
Proof.
  unfold sound, refresh_start. simpl. split; [|split; [|split]].
  - intros n Hn. inversion Hn.
  - intros k. rewrite lookup_empty, elem_of_nil. split; [|tauto].
    intros [x Hx]. discriminate.
  - intros k v. rewrite lookup_empty. discriminate.
  - intros k v. rewrite lookup_empty. discriminate.
Qed.

Lemma written_names_clean en zh names aliases :
  update_skin_list repr_obj en zh = Some (names, aliases) ->
  names <> []
  /\ NoDup names
  /\ forall name, name ∈ names ->
       PyStr.is_empty name = false /\ PyStr.strip name = name.
Proof.
  unfold update_skin_list.
  set (a := process_locale repr_obj "zh-CN" zh
              (process_locale repr_obj "en" en refresh_start)).
  assert (Ha : sound a).
  { apply process_locale_sound, process_locale_sound, refresh_start_sound. }
  destruct (fromkeys_spec (all_skin_names a)) as [Hnd Hin].
  destruct (fromkeys (all_skin_names a)) as [|n l] eqn:E; simpl;
    [discriminate|].
  intros [= <- <-]. split; [discriminate|]. split; [exact Hnd|].
  intros name Hname. apply Hin in Hname. apply (proj1 Ha). exact Hname.
Qed.

(** X11.  When [update_skin_list] writes, the list it writes is not
    empty, has no name twice, and every name in it is non-empty with nothing
    left to strip. *)
Theorem update_skin_list_names en zh names aliases :
  update_skin_list repr_obj en zh = Some (names, aliases) ->
  names <> []
  /\ NoDup names
  /\ forall name, name ∈ names ->
       PyStr.is_empty name = false /\ PyStr.strip name = name.
Proof.
  exact (written_names_clean en zh names aliases).
Qed.

Lemma written_aliases_closed en zh names aliases :
  update_skin_list repr_obj en zh = Some (names, aliases) ->
  (forall name, name ∈ names <-> is_Some (aliases !! name))
  /\ (forall alias canonical,
        aliases !! alias = Some canonical -> canonical ∈ names).
Proof.
  unfold update_skin_list.
  set (a := process_locale repr_obj "zh-CN" zh
              (process_locale repr_obj "en" en refresh_start)).
  assert (Ha : sound a).
  { apply process_locale_sound, process_locale_sound, refresh_start_sound. }
  destruct (fromkeys_spec (all_skin_names a)) as [Hnd Hin].
  destruct (fromkeys (all_skin_names a)) as [|n l] eqn:E; simpl;
    [discriminate|].
  intros [= <- <-]. destruct Ha as (_ & Hk & Hv & _). split.
  - intros name. rewrite Hin. symmetry. apply Hk.
  - intros alias canonical H. apply Hin. eapply Hv; eauto.
Qed.

(** X12.  When [update_skin_list] writes, the keys of the alias map
    are exactly the names of the list, and every canonical name the map
    points to is itself a name of the list. *)
Theorem update_skin_list_aliases en zh names aliases :
  update_skin_list repr_obj en zh = Some (names, aliases) ->
  (forall name, name ∈ names <-> is_Some (aliases !! name))
  /\ (forall alias canonical,
        aliases !! alias = Some canonical -> canonical ∈ names).
Proof.
  exact (written_aliases_closed en zh names aliases).
Qed.
End RefreshFacts.

(** * The files of the refresh, read back *)

Lemma append_cons x a b :
  String.append (String x a) b = String x (String.append a b).
Proof. reflexivity. Qed.

Lemma append_nil b : String.append "" b = b.
Proof. reflexivity. Qed.

Lemma append_assoc a b c :
  String.append (String.append a b) c = String.append a (String.append b c).
Proof.
  induction a as [|x a IH]; [reflexivity|].
  rewrite !append_cons, IH. reflexivity.
Qed.

Lemma append_empty_r a : String.append a "" = a.
Proof.
  induction a as [|x a IH]; [reflexivity|]. rewrite append_cons, IH.
  reflexivity.
Qed.

Lemma read_lines_from_line n : forall cur rest,
  one_line n = true ->
  read_lines_from cur (String.append n rest)
  = read_lines_from (String.append cur n) rest.
Proof.
  induction n as [|c n IH]; intros cur rest H.
  - rewrite append_nil, append_empty_r. reflexivity.
  - simpl in H. apply andb_true_iff in H as [H Hn].
    apply andb_true_iff in H as [H1 H2].
    apply negb_true_iff in H1, H2. rewrite append_cons. simpl.
    rewrite H1, H2.
    rewrite (IH _ _ Hn). unfold snoc_char.
    rewrite append_assoc, append_cons, append_nil. reflexivity.
Qed.

Lemma is_empty_append a b :
  PyStr.is_empty a = false -> PyStr.is_empty (String.append a b) = false.
Proof. destruct a; [discriminate|]. rewrite append_cons. reflexivity. Qed.

Lemma read_lines_join n names :
  one_line n = true -> PyStr.is_empty n = false ->
  read_lines (join_lines (n :: names)) =
  match names with
  | [] => [n]
  | _ :: _ => snoc_char n LF :: read_lines (join_lines names)
  end.
Proof.
  intros H1 Hne. unfold read_lines. destruct names as [|m names].
  - simpl. rewrite <- (append_empty_r n) at 1.
    rewrite (read_lines_from_line n "" "" H1), append_nil. simpl.
    rewrite Hne. reflexivity.
  - change (join_lines (n :: m :: names))
      with (String.append n (String LF (join_lines (m :: names)))).
    rewrite (read_lines_from_line n "" _ H1), append_nil. simpl.
    reflexivity.
Qed.

Lemma length_lstrip s : (String.length (PyStr.lstrip s) <= String.length s)%nat.
Proof.
  induction s as [|c t IH]; simpl; [lia|].
  destruct (PyStr.is_space c); simpl; lia.
Qed.

Lemma length_rstrip s : (String.length (PyStr.rstrip s) <= String.length s)%nat.
Proof.
  induction s as [|c t IH]; simpl; [lia|].
  destruct (PyStr.is_space c && PyStr.is_empty (PyStr.rstrip t)); simpl; lia.
Qed.

Lemma clean_head n :
  clean n ->
  exists c t, n = String c t /\ PyStr.is_space c = false
              /\ PyStr.rstrip n = n.
Proof.
  intros [Hne Hs]. destruct n as [|c t]; [discriminate|].
  exists c, t. split; [reflexivity|].
  destruct (PyStr.is_space c) eqn:Ec.
  - exfalso. unfold PyStr.strip in Hs. simpl in Hs. rewrite Ec in Hs.
    pose proof (length_rstrip (PyStr.lstrip t)) as L1.
    pose proof (length_lstrip t) as L2.
    rewrite Hs in L1. simpl in L1. lia.
  - split; [reflexivity|].
    unfold PyStr.strip in Hs. simpl in Hs. rewrite Ec in Hs. exact Hs.
Qed.

Lemma rstrip_snoc_space s c :
  PyStr.is_space c = true -> PyStr.rstrip (snoc_char s c) = PyStr.rstrip s.
Proof.
  intros Hc. unfold snoc_char. induction s as [|x s IH].
  - rewrite append_nil. simpl. rewrite Hc. reflexivity.
  - rewrite append_cons. simpl. rewrite IH. reflexivity.
Qed.

Lemma strip_line n : clean n -> PyStr.strip (snoc_char n LF) = n.
Proof.
  intros Hn. destruct (clean_head n Hn) as (c & t & -> & Hc & Hr).
  unfold PyStr.strip.
  change (snoc_char (String c t) LF) with (String c (snoc_char t LF)).
  simpl PyStr.lstrip. rewrite Hc.
  change (String c (snoc_char t LF)) with (snoc_char (String c t) LF).
  rewrite rstrip_snoc_space by reflexivity. exact Hr.
Qed.

Lemma read_back_lines (names : list string) :
  (forall name, name ∈ names ->
     PyStr.is_empty name = false /\ PyStr.strip name = name
     /\ one_line name = true) ->
  load_skin_names (Some (read_lines (join_lines names))) = names.
Proof.
  induction names as [|n names IH]; intros H; [reflexivity|].
  destruct (H n ltac:(left)) as (Hne & Hs & H1).
  assert (IH' : load_skin_names (Some (read_lines (join_lines names)))
                = names).
  { apply IH. intros x Hx. apply H. right. exact Hx. }
  rewrite (read_lines_join n names H1 Hne).
  destruct names as [|m names]; unfold load_skin_names in *; cbn [map].
  - rewrite Hs, filter_cons_True by exact Hne. reflexivity.
  - rewrite (strip_line n (conj Hne Hs)).
    rewrite filter_cons_True by exact Hne. rewrite IH'. reflexivity.
Qed.

(** X13.  A list of names that are non-empty, have nothing to strip and
    hold no line end, written one per line and read back the way
    [__init__] reads the list file, is the same list. *)
Theorem catalog_file_round_trip (names : list string) :
  (forall name, name ∈ names ->
     PyStr.is_empty name = false /\ PyStr.strip name = name
     /\ one_line name = true) ->
  load_skin_names (Some (read_lines (join_lines names))) = names.
Proof.
  exact (read_back_lines names).
Qed.

Lemma dict_get_pairs (l : list (string * string)) k :
  NoDup l.*1 ->
  match dict_get (map (fun kv => (fst kv, JStr (snd kv))) l) k with
  | Some v => exists x, v = JStr x /\ (k, x) ∈ l
  | None => k ∉ l.*1
  end.
Proof.
  induction l as [|[k0 v0] l IH]; simpl; intros Hnd.
  - apply not_elem_of_nil.
  - apply NoDup_cons in Hnd as [Hk0 Hnd]. specialize (IH Hnd).
    destruct (dict_get _ k) as [v|].
    + destruct IH as (x & -> & Hin). exists x. split; [reflexivity|].
      right. exact Hin.
    + destruct (decide (k0 = k)) as [->|Hne].
      * exists v0. split; [reflexivity | left].
      * rewrite elem_of_cons. intros [->|Hin]; [congruence | contradiction].
Qed.

Lemma explicit_entries_payload repr_obj (aliases : gmap string string) k :
  explicit_entries repr_obj (MappingParsed (mapping_payload aliases)) !! k
  = aliases !! k.
Proof.
  unfold mapping_payload. simpl. rewrite lookup_str_items.
  pose proof (dict_get_pairs (map_to_list aliases) k
                (NoDup_fst_map_to_list aliases)) as H.
  destruct (dict_get _ k) as [v|]; simpl.
  - destruct H as (x & -> & Hin). apply elem_of_map_to_list in Hin.
    simpl. congruence.
  - symmetry. apply not_elem_of_dom. intros Hd. apply H.
    apply elem_of_dom in Hd as [x Hx].
    apply list_elem_of_fmap. exists (k, x). split; [reflexivity|].
    apply elem_of_map_to_list. exact Hx.
Qed.

(** X14.  A manager constructed on the two files
    [update_skin_list] has written (names without line ends inside) has
    the written names as its catalog, in order, and exactly the written alias
    map: loading adds no entry and changes none. *)
Theorem refreshed_manager ext repr_obj en zh names aliases c
    rebuild_index refresh_data :
  update_skin_list repr_obj en zh = Some (names, aliases) ->
  (forall name, name ∈ names -> one_line name = true) ->
  skin_names (snd (__init__ ext repr_obj (refreshed_disk names aliases c)
                     rebuild_index refresh_data)) = names
  /\ alias_to_canonical
       (snd (__init__ ext repr_obj (refreshed_disk names aliases c)
               rebuild_index refresh_data)) = aliases.
Proof.
  intros Hu H1.
  destruct (written_names_clean repr_obj _ _ _ _ Hu) as (_ & _ & Hclean).
  destruct (written_aliases_closed repr_obj _ _ _ _ Hu) as (Hkeys & _).
  destruct (init_loaded ext repr_obj (refreshed_disk names aliases c)
              rebuild_index refresh_data) as [Hn Ha].
  assert (En : load_skin_names
                 (skin_list_file (refreshed_disk names aliases c)) = names).
  { apply read_back_lines. intros n Hin.
    destruct (Hclean n Hin). auto. }
  rewrite En in Hn. split; [exact Hn|].
  rewrite Ha, Hn. apply map_eq. intros k.
  rewrite lookup_load_alias_mapping. simpl name_mapping_file.
  rewrite explicit_entries_payload.
  destruct (aliases !! k) as [v|] eqn:Ek; [reflexivity|].
  rewrite decide_False; [reflexivity|].
  intros Hin. apply Hkeys in Hin as [x Hx]. congruence.
Qed.

Lemma demo_refresh :
  update_skin_list Demo.repr_obj Demo_feed_en Demo_feed_zh
  = Some (Demo_names, Demo_aliases).
Proof. vm_compute. reflexivity. Qed.

Lemma update_skin_list_names_witness :
  update_skin_list Demo.repr_obj Demo_feed_en Demo_feed_zh
  = Some (Demo_names, Demo_aliases)
  /\ NoDup Demo_names.
Proof.
  split; [exact demo_refresh|].
  exact (proj1 (proj2 (update_skin_list_names _ _ _ _ _ demo_refresh))).
Defined.

Lemma update_skin_list_aliases_witness :
  update_skin_list Demo.repr_obj Demo_feed_en Demo_feed_zh
  = Some (Demo_names, Demo_aliases)
  /\ (Demo_aliases !! Demo.hongxian = Some Demo.redline ->
      Demo.redline ∈ Demo_names).
Proof.
  split; [exact demo_refresh|].
  exact (proj2 (update_skin_list_aliases _ _ _ _ _ demo_refresh)
           Demo.hongxian Demo.redline).
Defined.

Lemma demo_names_lines :
  forall name, name ∈ Demo_names ->
    PyStr.is_empty name = false /\ PyStr.strip name = name
    /\ one_line name = true.
Proof.
  intros name H. unfold Demo_names in H.
  repeat (apply elem_of_cons in H as [-> | H];
          [repeat split; vm_compute; reflexivity|]).
  inversion H.
Qed.

Lemma catalog_file_round_trip_witness :
  (forall name, name ∈ Demo_names ->
     PyStr.is_empty name = false /\ PyStr.strip name = name
     /\ one_line name = true)
  /\ load_skin_names (Some (read_lines (join_lines Demo_names))) = Demo_names.
Proof.
  split; [exact demo_names_lines|].
  exact (catalog_file_round_trip Demo_names demo_names_lines).
Defined.

Lemma refreshed_manager_witness :
  update_skin_list Demo.repr_obj Demo_feed_en Demo_feed_zh
  = Some (Demo_names, Demo_aliases)
  /\ (forall name, name ∈ Demo_names -> one_line name = true)
  /\ alias_to_canonical
       (snd (__init__ Demo.numpy_only Demo.repr_obj
               (refreshed_disk Demo_names Demo_aliases CacheMissing)
               true true)) = Demo_aliases.
Proof.
  split; [exact demo_refresh|].
  assert (H : forall name, name ∈ Demo_names -> one_line name = true).
  { intros name Hn. exact (proj2 (proj2 (demo_names_lines name Hn))). }
  split; [exact H|].
  exact (proj2 (refreshed_manager Demo.numpy_only Demo.repr_obj _ _ _ _
                  CacheMissing true true demo_refresh H)).
Defined.

(** * The agent: parsing the model's output *)

Lemma prefix_split sep : forall s,
  String.prefix sep s = true ->
  s = String.append sep (string_drop (String.length sep) s).
Proof.
  induction sep as [|c sep IH]; intros s H; [reflexivity|].
  destruct s as [|d s]; simpl in H; [discriminate|].
  destruct (Ascii.ascii_dec c d) as [->|Hne]; [|discriminate].
  rewrite append_cons. simpl. f_equal. apply IH. exact H.
Qed.

Lemma prefix_append sep after : String.prefix sep (String.append sep after) = true.
Proof.
  induction sep as [|c sep IH]; [destruct after; reflexivity|].
  rewrite append_cons. simpl.
  destruct (Ascii.ascii_dec c c) as [_|Hne]; [exact IH | congruence].
Qed.

Lemma cut_some sep : forall s before after,
  cut sep s = Some (before, after) ->
  s = String.append before (String.append sep after).
Proof.
  induction s as [|c s IH]; intros before after.
  - cbn [cut]. destruct (String.prefix sep "") eqn:E; [|discriminate].
    intros [= <- <-]. rewrite append_nil. exact (prefix_split sep "" E).
  - cbn [cut]. destruct (String.prefix sep (String c s)) eqn:E.
    + intros [= <- <-]. rewrite append_nil. exact (prefix_split sep _ E).
    + destruct (cut sep s) as [[b a]|] eqn:Ec; [|discriminate].
      intros [= <- <-]. rewrite append_cons. f_equal. apply IH. reflexivity.
Qed.

Lemma cut_occurs sep s : occurs sep s -> cut sep s <> None.
Proof.
  intros (before & after & ->).
  induction before as [|c before IH].
  - rewrite append_nil.
    pose proof (prefix_append sep after) as E.
    destruct (String.append sep after) as [|d t]; cbn [cut]; rewrite E;
      discriminate.
  - rewrite append_cons. cbn [cut].
    destruct (String.prefix sep _); [discriminate|].
    destruct (cut sep (String.append before (String.append sep after)))
      as [[b a]|]; [discriminate | contradiction].
Qed.

Lemma cut_none_iff sep s : cut sep s = None <-> ~ occurs sep s.
Proof.
  split.
  - intros H Ho. exact (cut_occurs sep s Ho H).
  - intros H. destruct (cut sep s) as [[b a]|] eqn:E; [|reflexivity].
    exfalso. apply H. exists b, a. exact (cut_some _ _ _ _ E).
Qed.

Lemma py_split_head s sep :
  exists first rest, py_split s sep = first :: rest.
Proof.
  unfold py_split. destruct (String.length s); simpl; [eauto|].
  destruct (cut sep s) as [[b a]|]; eauto.
Qed.

Lemma py_split_fuel_head f s sep :
  exists first rest, py_split_fuel f s sep = first :: rest.
Proof.
  destruct f; simpl; [eauto|]. destruct (cut sep s) as [[b a]|]; eauto.
Qed.

Lemma piece_first s sep : exists p, piece (py_split s sep) 0 = Ok p.
Proof.
  destruct (py_split_head s sep) as (first & rest & ->).
  exists first. reflexivity.
Qed.

Lemma piece_1 a b rest : piece (a :: b :: rest) 1 = Ok b.
Proof.
  unfold piece, py_index.
  assert (H : (1 <? Z.of_nat (length (a :: b :: rest)))%Z = true).
  { apply Z.ltb_lt. simpl length. lia. }
  rewrite H. reflexivity.
Qed.

Lemma piece_1_single a : piece [a] 1 = Raise IndexError.
Proof. reflexivity. Qed.

(** The second piece is there exactly when the separator stands in the
    text. *)
Lemma piece_second s sep :
  sep <> EmptyString ->
  (occurs sep s -> exists p, piece (py_split s sep) 1 = Ok p)
  /\ (~ occurs sep s -> piece (py_split s sep) 1 = Raise IndexError).
Proof.
  intros Hsep. split.
  - intros Ho. pose proof (cut_occurs sep s Ho) as Hc.
    unfold py_split. destruct s as [|c s].
    + exfalso. apply Hc. simpl. destruct sep; [congruence | reflexivity].
    + cbn [String.length py_split_fuel].
      destruct (cut sep (String c s)) as [[b a]|]; [|congruence].
      destruct (py_split_fuel_head (String.length s) a sep)
        as (first & rest & ->).
      exists first. apply piece_1.
  - intros Hn. apply cut_none_iff in Hn. unfold py_split.
    destruct (String.length s); simpl; [reflexivity|].
    rewrite Hn. reflexivity.
Qed.

(** X15.  [_parse_llm_output] returns exactly when the three markers
    [Thought:], [Action:] and [Action Input:] all stand in the text; when one
    of them is missing it raises [IndexError] (the one exception [run]
    catches around it). *)
Theorem parse_llm_output_markers (llm_output : string) :
  (occurs thought_marker llm_output
   /\ occurs action_marker llm_output
   /\ occurs input_marker llm_output ->
   exists thought action action_input,
     _parse_llm_output llm_output = Ok (thought, action, action_input))
  /\ (~ (occurs thought_marker llm_output
         /\ occurs action_marker llm_output
         /\ occurs input_marker llm_output) ->
      _parse_llm_output llm_output = Raise IndexError).
Proof.
  assert (HT : thought_marker <> "") by discriminate.
  assert (HA : action_marker <> "") by discriminate.
  assert (HI : input_marker <> "") by discriminate.
  destruct (piece_second llm_output thought_marker HT) as [T1 T2].
  destruct (piece_second llm_output action_marker HA) as [A1 A2].
  destruct (piece_second llm_output input_marker HI) as [I1 I2].
  unfold _parse_llm_output. split.
  - intros (Ht & Ha & Hi).
    destruct (T1 Ht) as (p1 & ->). simpl.
    destruct (piece_first p1 action_marker) as (p2 & ->). simpl.
    destruct (A1 Ha) as (p3 & ->). simpl.
    destruct (piece_first p3 input_marker) as (p4 & ->). simpl.
    destruct (I1 Hi) as (p5 & ->). simpl. eauto.
  - intros Hn.
    destruct (cut thought_marker llm_output) as [[b a]|] eqn:Et.
    2:{ rewrite T2 by (apply cut_none_iff; exact Et). reflexivity. }
    assert (Ht : occurs thought_marker llm_output).
    { exists b, a. exact (cut_some _ _ _ _ Et). }
    destruct (T1 Ht) as (p1 & ->). simpl.
    destruct (piece_first p1 action_marker) as (p2 & ->). simpl.
    destruct (cut action_marker llm_output) as [[b' a']|] eqn:Ea.
    2:{ rewrite A2 by (apply cut_none_iff; exact Ea). reflexivity. }
    assert (Ha : occurs action_marker llm_output).
    { exists b', a'. exact (cut_some _ _ _ _ Ea). }
    destruct (A1 Ha) as (p3 & ->). simpl.
    destruct (piece_first p3 input_marker) as (p4 & ->). simpl.
    rewrite I2; [reflexivity|]. intros Hi. apply Hn. auto.
Qed.

Lemma parse_llm_output_markers_witness :
  exists thought action action_input,
    _parse_llm_output "Thought: ask Action: lookup Action Input: {}"
    = Ok (thought, action, action_input).
Proof.
  apply (proj1 (parse_llm_output_markers
                  "Thought: ask Action: lookup Action Input: {}")).
  split; [|split].
  - exists "", " ask Action: lookup Action Input: {}". reflexivity.
  - exists "Thought: ask ", " lookup Action Input: {}". reflexivity.
  - exists "Thought: ask Action: lookup ", " {}". reflexivity.
Defined.

(** * The agent: a run *)

Section AgentFacts.
Variable world : agent_world.

Lemma steps_shape self question tools_text names_text :
  forall remaining step history_text,
    exists body,
      Forall (fun e => terminal e = false) body
      /\ (count_thoughts body <= remaining)%nat
      /\ (length body <= 2 * remaining)%nat
      /\ match snd (steps world self question tools_text names_text
                      remaining step history_text) with
         | EndedError =>
             exists st m,
               fst (steps world self question tools_text names_text
                      remaining step history_text) = body ++ [EvError st m]
         | EndedFinal answer =>
             exists st,
               fst (steps world self question tools_text names_text
                      remaining step history_text)
               = body ++ [EvFinal st answer]
         | EndedSteps =>
             fst (steps world self question tools_text names_text
                    remaining step history_text) = body
         end.
Proof.
  induction remaining as [|remaining IH]; intros step history_text.
  - exists []. simpl. repeat split; auto.
  - cbn [steps].
    destruct (negb (status_code _ =? 200)%Z).
    { exists []. simpl. repeat split; auto; try lia. eauto. }
    destruct (_parse_llm_output _) as [[[thought action] input]|e].
    2:{ exists []. simpl. repeat split; auto; try lia. eauto. }
    destruct (decide (action = "Finish")).
    { exists [EvThought (S step) thought action input]. simpl.
      repeat split; auto; try lia. eauto. }
    set (obs := match find_tool (tools self) action with
                | Some info => _ | None => _ end).
    set (h' := fstring _).
    destruct (IH (S step) h') as (body & Hb & Hc & Hl & He).
    exists (EvThought (S step) thought action input
              :: EvObservation (S step) obs :: body).
    cbn [fst snd]. repeat split.
    + repeat constructor; auto.
    + simpl. lia.
    + simpl. lia.
    + destruct (snd (steps world self question tools_text names_text
                       remaining (S step) h')).
      * destruct He as (st & m & ->). exists st, m. reflexivity.
      * destruct He as (st & ->). exists st. reflexivity.
      * rewrite He. reflexivity.
Qed.

Lemma pop_last {A} (l : list A) x :
  pop (length (l ++ [x]) - 1) (l ++ [x]) = l.
Proof.
  unfold pop. rewrite length_app. simpl.
  replace (length l + 1 - 1)%nat with (length l) by lia.
  rewrite take_app_length.
  rewrite drop_ge by (rewrite length_app; simpl; lia).
  apply app_nil_r.
Qed.

Lemma run_shape self question :
  exists body last,
    fst (run world self question) = body ++ [last]
    /\ Forall (fun e => terminal e = false) body
    /\ terminal last = true
    /\ (count_thoughts body <= max_steps self)%nat
    /\ (length (fst (run world self question)) <= 2 * max_steps self + 1)%nat.
Proof.
  unfold run.
  match goal with
  | |- context [steps world self question ?a ?b ?c ?d ?h] =>
      destruct (steps_shape self question a b c d h)
        as (body & Hb & Hc & Hl & He);
      destruct (steps world self question a b c d h) as [events e]
  end.
  cbn [fst snd] in *.
  destruct e.
  - destruct He as (st & m & ->). exists body, (EvError st m).
    cbn [fst]. rewrite length_app. simpl. repeat split; auto; lia.
  - destruct He as (st & ->). exists body, (EvFinal st answer).
    cbn [fst]. rewrite length_app. simpl. repeat split; auto; lia.
  - subst events. exists body. eexists.
    cbn [fst]. rewrite length_app. simpl.
    split; [reflexivity|]. repeat split; auto; lia.
Qed.

(** X16.  A run read to its end yields thought and observation
    events and then exactly one closing event (final, error or incomplete),
    which comes last; it takes at most [max_steps] thoughts and yields at
    most [2 * max_steps + 1] events. *)
Theorem run_events self question :
  exists body last,
    fst (run world self question) = body ++ [last]
    /\ Forall (fun e => terminal e = false) body
    /\ terminal last = true
    /\ (count_thoughts body <= max_steps self)%nat
    /\ (length (fst (run world self question)) <= 2 * max_steps self + 1)%nat.
Proof.
  exact (run_shape self question).
Qed.

Lemma run_leaves self question :
  agent_model (snd (run world self question)) = agent_model self
  /\ tools (snd (run world self question)) = tools self
  /\ max_steps (snd (run world self question)) = max_steps self
  /\ match last (fst (run world self question)) with
     | Some (EvFinal _ answer) =>
         conversation_history (snd (run world self question))
         = conversation_history self
           ++ [{| role := "user"; content := question |};
               {| role := "assistant"; content := answer |}]
     | _ =>
         conversation_history (snd (run world self question))
         = conversation_history self
     end.
Proof.
  unfold run.
  match goal with
  | |- context [steps world self question ?a ?b ?c ?d ?h] =>
      destruct (steps_shape self question a b c d h)
        as (body & Hb & Hc & Hl & He);
      destruct (steps world self question a b c d h) as [events e]
  end.
  cbn [fst snd] in *.
  destruct e; cbn [fst snd agent_model tools max_steps conversation_history];
    repeat (split; [reflexivity|]).
  - destruct He as (st & m & ->). rewrite last_snoc. apply pop_last.
  - destruct He as (st & ->). rewrite last_snoc, <- app_assoc. reflexivity.
  - rewrite last_snoc. apply pop_last.
Qed.

(** X17.  A run read to its end leaves the model, the tools and
    [max_steps] as they were.  When its last event is a final answer, the
    history has gained the user's question and that answer, in this order;
    otherwise (error, or steps used up) the history is what it was before
    the run: the question has been taken out again. *)
Theorem run_history self question :
  agent_model (snd (run world self question)) = agent_model self
  /\ tools (snd (run world self question)) = tools self
  /\ max_steps (snd (run world self question)) = max_steps self
  /\ match last (fst (run world self question)) with
     | Some (EvFinal _ answer) =>
         conversation_history (snd (run world self question))
         = conversation_history self
           ++ [{| role := "user"; content := question |};
               {| role := "assistant"; content := answer |}]
     | _ =>
         conversation_history (snd (run world self question))
         = conversation_history self
     end.
Proof.
  exact (run_leaves self question).
Qed.

Lemma exchanges_snoc pairs q a :
  exchanges (pairs ++ [(q, a)])
  = exchanges pairs ++ [{| role := "user"; content := q |};
                        {| role := "assistant"; content := a |}].
Proof.
  unfold exchanges. rewrite flat_map_app. simpl. reflexivity.
Qed.

End AgentFacts.

(** X18.  Whatever runs (read to their end) and resets an agent has
    gone through since it was made, [max_steps] is 7 and the history is a
    sequence of exchanges, a user message followed by the assistant's
    answer: a question that got no answer leaves no trace. *)
Theorem conversed_history self :
  conversed self ->
  max_steps self = 7%nat
  /\ exists pairs, conversation_history self = exchanges pairs.
Proof.
  induction 1 as [model tools | world self question _ [IHm [pairs IHp]]
                 | self _ [IHm _]].
  - split; [reflexivity|]. exists []. reflexivity.
  - destruct (run_leaves world self question) as (_ & _ & Hm & Hh).
    split; [congruence|].
    destruct (last (fst (run world self question))) as [[| | st answer| |]|];
      try (exists pairs; congruence).
    exists (pairs ++ [(question, answer)]).
    rewrite exchanges_snoc, Hh, IHp. reflexivity.
  - split; [exact IHm|]. exists []. reflexivity.
Qed.

Lemma conversed_history_witness :
  conversed (snd (run Demo_world Demo_agent "price of the redline?"))
  /\ max_steps (snd (run Demo_world Demo_agent "price of the redline?"))
     = 7%nat
  /\ exists pairs,
      conversation_history
        (snd (run Demo_world Demo_agent "price of the redline?"))
      = exchanges pairs.
Proof.
  assert (H : conversed
                (snd (run Demo_world Demo_agent "price of the redline?")))
    by (apply conversed_run, conversed_new).
  split; [exact H|]. exact (conversed_history _ H).
Defined.

(** * The service: chunks, [ask] and [ask_stream] *)

Lemma string_drop_empty n : string_drop n "" = "".
Proof. destruct n; reflexivity. Qed.

Lemma substring_head n : forall s,
  String.append (substring 0 n s) (string_drop n s) = s.
Proof.
  induction n as [|n IH]; intros s.
  - destruct s; reflexivity.
  - destruct s as [|c s]; [reflexivity|].
    simpl substring. rewrite append_cons. simpl string_drop. f_equal. apply IH.
Qed.

Lemma substring_drop a : forall n s,
  String.append (substring a n s) (string_drop (a + n) s) = string_drop a s.
Proof.
  induction a as [|a IH]; intros n s.
  - simpl plus. rewrite substring_head. reflexivity.
  - destruct s as [|c s].
    + destruct n; reflexivity.
    + simpl. destruct n; apply IH.
Qed.

Lemma length_substring a : forall n s,
  String.length (substring a n s) = Nat.min n (String.length s - a).
Proof.
  induction a as [|a IH]; intros n s.
  - revert s. induction n as [|n IHn]; intros s.
    + destruct s; reflexivity.
    + destruct s as [|c s]; [reflexivity|]. simpl. rewrite IHn.
      rewrite Nat.sub_0_r. reflexivity.
  - destruct s as [|c s].
    + destruct n; simpl; lia.
    + simpl. destruct n; apply IH.
Qed.

Lemma string_drop_all n : forall s,
  (String.length s <= n)%nat -> string_drop n s = "".
Proof.
  induction n as [|n IH]; intros s H.
  - destruct s; [reflexivity | simpl in H; lia].
  - destruct s as [|c s]; [reflexivity|]. simpl. apply IH. simpl in H. lia.
Qed.

Lemma fstring_chunks s cs : forall n k,
  String.append
    (fstring (map (fun start => substring start cs s)
                  (map (fun i => (i * cs)%nat) (seq k n))))
    (string_drop ((k + n) * cs) s)
  = string_drop (k * cs) s.
Proof.
  induction n as [|n IH]; intros k.
  - simpl. rewrite Nat.add_0_r. reflexivity.
  - cbn [seq map fstring fold_right]. rewrite append_assoc.
    replace ((k + S n) * cs)%nat with ((S k + n) * cs)%nat by lia.
    unfold fstring in IH. rewrite IH.
    replace (S k * cs)%nat with (k * cs + cs)%nat by lia.
    apply substring_drop.
Qed.

Lemma chunks_cover len cs :
  (0 < cs)%nat -> (len <= (len + cs - 1) / cs * cs)%nat.
Proof.
  intros H.
  pose proof (Nat.div_mod_eq (len + cs - 1) cs) as E.
  pose proof (Nat.mod_upper_bound (len + cs - 1) cs ltac:(lia)) as B.
  nia.
Qed.

Lemma chunks_inside len cs i :
  (0 < cs)%nat -> (i < (len + cs - 1) / cs)%nat -> (i * cs < len)%nat.
Proof.
  intros H Hi.
  pose proof (Nat.div_mod_eq (len + cs - 1) cs) as E.
  pose proof (Nat.mod_upper_bound (len + cs - 1) cs ltac:(lia)) as B.
  nia.
Qed.

Lemma chunk_text_cover (text : string) (chunk_size : nat) :
  (0 < chunk_size)%nat ->
  exists pieces,
    _chunk_text text chunk_size = Ok pieces
    /\ fstring pieces = text
    /\ length pieces
       = ((String.length text + chunk_size - 1) / chunk_size)%nat
    /\ forall piece, piece ∈ pieces ->
         (1 <= String.length piece <= chunk_size)%nat.
Proof.
  intros Hcs. unfold _chunk_text.
  destruct (Nat.eqb_spec chunk_size 0) as [->|_]; [lia|].
  eexists. split; [reflexivity|]. unfold range_step. split; [|split].
  - pose proof (fstring_chunks text chunk_size
                  ((String.length text + chunk_size - 1) / chunk_size) 0)
      as H.
    simpl in H. rewrite string_drop_all in H
      by (apply chunks_cover; exact Hcs).
    rewrite append_empty_r in H. destruct text; exact H.
  - rewrite !length_map, length_seq. reflexivity.
  - intros piece Hin.
    apply list_elem_of_fmap in Hin as (start & -> & Hin).
    apply list_elem_of_fmap in Hin as (i & -> & Hin).
    apply elem_of_seq in Hin. rewrite length_substring.
    pose proof (chunks_inside (String.length text) chunk_size i Hcs
                  ltac:(lia)).
    lia.
Qed.

(** X19.  For a positive [chunk_size], [_chunk_text] read to its end
    yields pieces that, put together in order, are the text; there are as
    many as the length divided by [chunk_size], rounded up (none for the
    empty text); and each holds at least one character and at most
    [chunk_size]. *)
Theorem chunk_text_pieces (text : string) (chunk_size : nat) :
  (0 < chunk_size)%nat ->
  exists pieces,
    _chunk_text text chunk_size = Ok pieces
    /\ fstring pieces = text
    /\ length pieces
       = ((String.length text + chunk_size - 1) / chunk_size)%nat
    /\ forall piece, piece ∈ pieces ->
         (1 <= String.length piece <= chunk_size)%nat.
Proof.
  exact (chunk_text_cover text chunk_size).
Qed.

Lemma chunk_text_pieces_witness :
  (0 < 3)%nat
  /\ exists pieces,
      _chunk_text "abcdefg" 3 = Ok pieces
      /\ fstring pieces = "abcdefg"
      /\ length pieces = ((String.length "abcdefg" + 3 - 1) / 3)%nat
      /\ forall piece, piece ∈ pieces ->
           (1 <= String.length piece <= 3)%nat.
Proof.
  split; [lia|]. apply (chunk_text_pieces "abcdefg" 3). lia.
Defined.

Section ServiceFacts.

Variable world : agent_world.
Variable json_dumps : sse_payload -> string.

Lemma final_answer_fold body closing :
  Forall (fun e => terminal e = false) body ->
  fold_left (fun final_answer event =>
               match event with
               | EvFinal _ answer => Some answer
               | _ => final_answer
               end) (body ++ [closing]) None
  = match closing with
    | EvFinal _ answer => Some answer
    | _ => None
    end.
Proof.
  intros Hb. rewrite fold_left_app. generalize (@None string).
  induction Hb as [|e body He _ IH]; intros acc.
  - destruct closing; reflexivity.
  - destruct e; try discriminate; apply IH.
Qed.

Lemma no_final_in_body body step answer :
  Forall (fun e => terminal e = false) body ->
  EvFinal step answer ∉ body.
Proof.
  intros Hb Hin. rewrite Forall_forall in Hb.
  specialize (Hb _ Hin). discriminate.
Qed.

(** X20.  With an agent in place, [ask] returns a [final_answer] exactly
    when the run closed with a final event, whose answer it is, and the
    history has then gained the question and this answer; when it returns
    none, no final event is among the events and the history is what it was
    before the request. *)
Theorem ask_answer_and_history agent question :
  exists agent',
    snd (ask world (Some agent) question) = Some agent'
    /\ match snd (fst (ask world (Some agent) question)) with
       | Some answer =>
           (exists step,
              last (fst (fst (ask world (Some agent) question)))
              = Some (EvFinal step answer))
           /\ conversation_history agent'
              = conversation_history agent
                ++ [{| role := "user"; content := question |};
                    {| role := "assistant"; content := answer |}]
       | None =>
           (forall step answer,
              EvFinal step answer
                ∉ fst (fst (ask world (Some agent) question)))
           /\ conversation_history agent' = conversation_history agent
       end.
Proof.
  exists (snd (run world agent question)). split; [reflexivity|].
  unfold ask. cbn [fst snd].
  destruct (run_leaves world agent question) as (_ & _ & _ & Hh).
  destruct (run_shape world agent question)
    as (body & closing & E & Hb & Hc & _).
  rewrite E in Hh |- *. rewrite last_snoc in Hh |- *.
  rewrite (final_answer_fold body closing Hb).
  destruct closing as [| |st answer| |]; try discriminate.
  - split; [|exact Hh]. intros st' ans Hin.
    apply elem_of_app in Hin as [Hin|Hin].
    + exact (no_final_in_body _ _ _ Hb Hin).
    + apply list_elem_of_singleton in Hin. discriminate.
  - split; [|exact Hh]. exists st. reflexivity.
  - split; [|exact Hh]. intros st' ans Hin.
    apply elem_of_app in Hin as [Hin|Hin].
    + exact (no_final_in_body _ _ _ Hb Hin).
    + apply list_elem_of_singleton in Hin. discriminate.
Qed.

Lemma delta_text_app a b :
  delta_text (a ++ b) = String.append (delta_text a) (delta_text b).
Proof.
  induction a as [|[| | |] a IH]; cbn [app delta_text]; rewrite ?IH;
    try reflexivity.
  rewrite append_assoc. reflexivity.
Qed.

Lemma stream_body body payload :
  Forall (fun e => terminal e = false) body ->
  payload ∈ flat_map stream_event body ->
  exists e, payload = SseEvent e.
Proof.
  induction 1 as [|e body He _ IH]; intros Hin; [inversion Hin|].
  cbn [flat_map] in Hin. apply elem_of_app in Hin as [Hin|Hin]; [|auto].
  destruct e; try discriminate; cbn [stream_event] in Hin;
    apply list_elem_of_singleton in Hin; eauto.
Qed.

Lemma delta_text_body body :
  Forall (fun e => terminal e = false) body ->
  delta_text (flat_map stream_event body) = EmptyString.
Proof.
  induction 1 as [|e body He _ IH]; [reflexivity|].
  destruct e; try discriminate; simpl; exact IH.
Qed.

Lemma delta_text_deltas pieces :
  delta_text (map SseDelta pieces) = fstring pieces.
Proof.
  induction pieces as [|p pieces IH]; [reflexivity|].
  cbn [map delta_text fstring fold_right]. rewrite IH. reflexivity.
Qed.

(** X21.  With an agent in place, the frames of [ask_stream] carry
    payloads whose [delta] contents, put together in order, are the
    [final_answer] that [ask] returns for the same run (nothing when there
    is none); every [delta] holds between 1 and 60 characters; and a run with
    a final answer ends the stream with the [final] payload that repeats the
    answer, while a run without one sends no [final] and no [delta]. *)
Theorem ask_stream_deltas agent question :
  exists payloads,
    fst (ask_stream world json_dumps (Some agent) question)
    = map (_sse_event json_dumps) payloads
    /\ (forall content, SseDelta content ∈ payloads ->
          (1 <= String.length content <= 60)%nat)
    /\ match snd (fst (ask world (Some agent) question)) with
       | Some answer =>
           delta_text payloads = answer
           /\ exists step, last payloads = Some (SseFinal answer step)
       | None =>
           forall payload, payload ∈ payloads ->
             exists e, payload = SseEvent e
       end.
Proof.
  exists (flat_map stream_event (fst (run world agent question))).
  split; [reflexivity|]. unfold ask. cbn [fst snd].
  destruct (run_shape world agent question)
    as (body & closing & -> & Hb & Hc & _).
  rewrite (final_answer_fold body closing Hb), flat_map_app.
  cbn [flat_map]. rewrite app_nil_r. split.
  - intros content Hin. apply elem_of_app in Hin as [Hin|Hin].
    + destruct (stream_body _ _ Hb Hin) as (e & He). discriminate.
    + destruct closing as [| |st answer| |]; cbn [stream_event] in Hin;
        try (apply list_elem_of_singleton in Hin; discriminate).
      apply elem_of_app in Hin as [Hin|Hin];
        [|apply list_elem_of_singleton in Hin; discriminate].
      destruct answer as [|c answer]; [inversion Hin|].
      cbn [PyStr.is_empty] in Hin.
      destruct (chunk_text_cover (String c answer) 60 ltac:(lia))
        as (pieces & E & _ & _ & Hlen).
      rewrite E in Hin.
      apply list_elem_of_fmap in Hin as (p & [= ->] & Hp). auto.
  - destruct closing as [| |st answer| |]; try discriminate.
    + intros payload Hin. apply elem_of_app in Hin as [Hin|Hin].
      * exact (stream_body _ _ Hb Hin).
      * apply list_elem_of_singleton in Hin. eauto.
    + split.
      * rewrite delta_text_app, (delta_text_body body Hb), append_nil.
        cbn [stream_event].
        destruct answer as [|c answer]; [reflexivity|].
        cbn [PyStr.is_empty].
        destruct (chunk_text_cover (String c answer) 60 ltac:(lia))
          as (pieces & -> & Hcat & _).
        rewrite delta_text_app, delta_text_deltas, Hcat. cbn [delta_text].
        apply append_empty_r.
      * exists st. cbn [stream_event]. rewrite !app_assoc. apply last_snoc.
    + intros payload Hin. apply elem_of_app in Hin as [Hin|Hin].
      * exact (stream_body _ _ Hb Hin).
      * apply list_elem_of_singleton in Hin. eauto.
Qed.

End ServiceFacts.
